(** * applemusic-mcp: the dual-token authentication and session core

    A shallow embedding of the TypeScript sources

    - [src/auth/appleMusicAuth.ts]  (module [AppleMusicAuth]),
    - [src/auth/oauthServer.ts]     (module [OAuthServer]),
    - [build/auth/oauthToken.js]    (module [OAuthToken]),
    - [src/client.ts]               (module [Client]),
    - [src/appleMusic/api.ts]       (module [AppleMusicAPI]),

    preceded by the JavaScript primitives they use (module [JS]) and the
    answers of the HTTP handlers (module [Http]), and followed by the
    vocabulary of the statements (module [Spec]) and the properties proved.

    Conventions of the embedding.
    - A JavaScript [number] that holds a count of seconds or milliseconds is
      an integer of [Z].  [NaN] and the infinities are modelled where the
      sources can meet them, in the lifetime that [Number.parseInt] reads
      from the environment and [clampTTL] receives ([JS.number]).
    - A JavaScript string is a [string]; header strings are decoded by Node
      as Latin-1, so one [ascii] is one code unit.  [undefined]/[null] is
      [None].
    - A [Map] keyed by strings is a [gmap string _].
    - [async] functions are cut at their [await]s into atomic segments, each
      a function on an explicit state; an execution is a list of events. *)

From Stdlib Require Import ZArith String Ascii Bool List.
From stdpp Require Import base option list gmap strings.
Import ListNotations.

Local Open Scope Z_scope.

(** ** JavaScript primitives used by the sources *)

Module JS.

(** Truthiness of a string: every string but the empty one. *)
Definition truthy (s : string) : bool :=
  match s with
  | EmptyString => false
  | String _ _ => true
  end.

(** Truthiness of [string | undefined | null]. *)
Definition truthy_opt (o : option string) : bool :=
  match o with
  | None => false
  | Some s => truthy s
  end.

(** Truthiness of a number: every number but [0]. *)
Definition truthy_num (n : Z) : bool := negb (Z.eqb n 0).

(** Truthiness of [number | undefined]. *)
Definition truthy_num_opt (o : option Z) : bool :=
  match o with
  | None => false
  | Some n => truthy_num n
  end.

(** [s.split(sep)] for a one-character separator: every occurrence of the
    separator cuts; the empty string gives one empty piece. *)
Fixpoint split (sep : ascii) (s : string) : list string :=
  match s with
  | EmptyString => [EmptyString]
  | String c s' =>
      if Ascii.eqb c sep then EmptyString :: split sep s'
      else match split sep s' with
           | [] => [String c EmptyString]
           | p :: ps => String c p :: ps
           end
  end.

(** [toLowerCase] on one Latin-1 code unit: A-Z, and the accented capitals
    U+00C0-U+00DE except the multiplication sign U+00D7, move up by 32. *)
Definition lower_char (c : ascii) : ascii :=
  let n := N_of_ascii c in
  if ((65 <=? n) && (n <=? 90))%N then ascii_of_N (n + 32)
  else if ((192 <=? n) && (n <=? 222) && negb (n =? 215))%N
       then ascii_of_N (n + 32)
  else c.

Fixpoint toLowerCase (s : string) : string :=
  match s with
  | EmptyString => EmptyString
  | String c s' => String (lower_char c) (toLowerCase s')
  end.

(** White space and line terminators in the Latin-1 range: TAB, LF, VT, FF,
    CR, SPACE and NO-BREAK SPACE. *)
Definition is_white (c : ascii) : bool :=
  let n := N_of_ascii c in
  ((9 <=? n) && (n <=? 13) || (n =? 32) || (n =? 160))%N.

Fixpoint trimStart (s : string) : string :=
  match s with
  | EmptyString => EmptyString
  | String c s' => if is_white c then trimStart s' else s
  end.

Fixpoint trimEnd (s : string) : string :=
  match s with
  | EmptyString => EmptyString
  | String c s' =>
      match trimEnd s' with
      | EmptyString => if is_white c then EmptyString else String c EmptyString
      | r => String c r
      end
  end.

(** [s.trim()] *)
Definition trim (s : string) : string := trimEnd (trimStart s).

(** [URLSearchParams]: the decoded name/value pairs in document order;
    [get] answers the first value of a name. *)
Fixpoint params_get (name : string) (ps : list (string * string))
  : option string :=
  match ps with
  | [] => None
  | (k, v) :: ps' => if String.eqb k name then Some v else params_get name ps'
  end.

(** [URLSearchParams.set]: the first pair of that name takes the value, the
    later ones of that name go, and the pair is appended when there is none. *)
Fixpoint params_remove (name : string) (ps : list (string * string))
  : list (string * string) :=
  match ps with
  | [] => []
  | (k, v) :: ps' =>
      if String.eqb k name then params_remove name ps'
      else (k, v) :: params_remove name ps'
  end.

Fixpoint params_set (name value : string) (ps : list (string * string))
  : list (string * string) :=
  match ps with
  | [] => [(name, value)]
  | (k, v) :: ps' =>
      if String.eqb k name then (name, value) :: params_remove name ps'
      else (k, v) :: params_set name value ps'
  end.

(** A parsed [URL]: what precedes the query, and the query pairs. *)
Record URL := mkURL { url_base : string; searchParams : list (string * string) }.

Definition url_set (name value : string) (u : URL) : URL :=
  mkURL (url_base u) (params_set name value (searchParams u)).

(** A [number] with the values that are not integers of [Z]: the two
    infinities and [NaN], which [Number.parseInt] answers for a text that
    does not start with a number. *)
Inductive number :=
| Num (z : Z)
| PosInf
| NegInf
| NaN.

(** [a <= b], for [a] and [b] other than [NaN]. *)
Definition num_leb (a b : number) : bool :=
  match a, b with
  | NaN, _ | _, NaN => false
  | NegInf, _ => true
  | _, PosInf => true
  | Num x, Num y => Z.leb x y
  | _, _ => false
  end.

(** [Math.min(a, b)]: [NaN] when either argument is. *)
Definition Math_min (a b : number) : number :=
  match a, b with
  | NaN, _ | _, NaN => NaN
  | _, _ => if num_leb a b then a else b
  end.

(** [Math.max(a, b)]: [NaN] when either argument is. *)
Definition Math_max (a b : number) : number :=
  match a, b with
  | NaN, _ | _, NaN => NaN
  | _, _ => if num_leb a b then b else a
  end.

End JS.

(** ** src/auth/appleMusicAuth.ts *)

Module AppleMusicAuth.

Record AppleMusicAuthConfig := mkConfig {
  teamId : string;
  keyId : string;
  privateKey : string;
  tokenTTLSeconds : option Z
}.

Definition SIX_MONTHS_SECONDS : Z := 60 * 60 * 24 * 30 * 6.

Record CachedToken := mkCached {
  token : string;
  expiresAtEpoch : Z
}.

(** [Math.max(60, Math.min(ttlSeconds, SIX_MONTHS_SECONDS))] on a lifetime
    that is an integer; [clampTTL_number] below is the function on every
    number and agrees with this one on the integers. *)
Definition clampTTL (ttlSeconds : Z) : Z :=
  let safe := Z.max 60 (Z.min ttlSeconds SIX_MONTHS_SECONDS) in
  safe.

(** [clampTTL(ttlSeconds: number): number] (lines 17-20) on every number
    it can be given: [getDeveloperConfigFromEnv] passes on what
    [Number.parseInt] made of [APPLE_MUSIC_DEV_TOKEN_TTL_SECONDS] (lines
    44-46), an integer or [NaN], and a configuration given to
    [createDeveloperTokenProvider] may hold any number. *)
Definition clampTTL_number (ttlSeconds : JS.number) : JS.number :=
  let safe :=
    JS.Math_max (JS.Num 60) (JS.Math_min ttlSeconds (JS.Num SIX_MONTHS_SECONDS)) in
  safe.

(** *** [createDeveloperTokenProvider]

    The closure keeps [cached] and [inFlight].  [getToken] and the async
    arrow it starts are cut at their [await]s:

    - [getToken_call]   : from the invocation of [getToken] to its first
                          [return] or to [await inFlight] (lines 62-79),
                          which includes the arrow's run up to
                          [await generateDeveloperToken(config)] (69-70);
    - [arrow_resume]    : the arrow after that [await], to its end (70-75);
    - [getToken_resume] : [getToken] after [await inFlight], through
                          [finally] (79-82). *)

Inductive error :=
| ConfigError               (* thrown by getDeveloperConfigFromEnv *)
| MintError (msg : string). (* rejection of generateDeveloperToken *)

(** How [generateDeveloperToken(config)] settles, with what [decodeJwt]
    reads in the token: [exp] is [Some] when the claim is a number. *)
Inductive mint_outcome :=
| MintOk (tok : string) (exp : option Z)
| MintFail (msg : string).

Inductive settlement :=
| Fulfilled (tok : string)
| Rejected (e : error).

Inductive promise :=
| Pending
| Settled (r : settlement).

(** An activation of [getToken]: it has returned or thrown, or its promise
    was resolved with the promise [p] ([return inFlight]), or it is
    suspended at [await inFlight] on [p]. *)
Inductive activation :=
| Returned (r : settlement)
| Follows (p : nat)
| Awaits (p : nat).

Record provider := mkProvider {
  config : option AppleMusicAuthConfig;
    (* initialConfig ?? getDeveloperConfigFromEnv(); None when that throws *)
  cached : option CachedToken;
  inFlight : option nat;            (* the promise the variable holds *)
  promises : list promise;          (* promises of the arrows, by creation *)
  frames : gmap nat (Z * AppleMusicAuthConfig);
    (* arrows suspended at await generateDeveloperToken: their now, config *)
  calls : gmap nat activation;      (* activations of getToken *)
  mints : nat                       (* calls of generateDeveloperToken *)
}.

Definition set_cached (v : option CachedToken) (s : provider) : provider :=
  mkProvider (config s) v (inFlight s) (promises s) (frames s) (calls s) (mints s).

Definition set_inFlight (v : option nat) (s : provider) : provider :=
  mkProvider (config s) (cached s) v (promises s) (frames s) (calls s) (mints s).

Definition set_promises (v : list promise) (s : provider) : provider :=
  mkProvider (config s) (cached s) (inFlight s) v (frames s) (calls s) (mints s).

Definition set_frames (v : gmap nat (Z * AppleMusicAuthConfig)) (s : provider)
  : provider :=
  mkProvider (config s) (cached s) (inFlight s) (promises s) v (calls s) (mints s).

Definition set_call (c : nat) (a : activation) (s : provider) : provider :=
  mkProvider (config s) (cached s) (inFlight s) (promises s) (frames s)
             (<[c := a]> (calls s)) (mints s).

Definition count_mint (s : provider) : provider :=
  mkProvider (config s) (cached s) (inFlight s) (promises s) (frames s)
             (calls s) (S (mints s)).

(** [cached && cached.expiresAtEpoch - 300 > now] *)
Definition cache_hit (now : Z) (s : provider) : option string :=
  match cached s with
  | Some ct => if expiresAtEpoch ct - 300 >? now then Some (token ct) else None
  | None => None
  end.

(** The async arrow from its start to its first [await]: it reads the
    configuration (a throw rejects its promise at once) and calls
    [generateDeveloperToken].  [p] is the arrow's promise. *)
Definition arrow_start (p : nat) (now : Z) (s : provider) : provider :=
  match config s with
  | None => set_promises (promises s ++ [Settled (Rejected ConfigError)]) s
  | Some cfg =>
      count_mint
        (set_frames (<[p := (now, cfg)]> (frames s))
           (set_promises (promises s ++ [Pending]) s))
  end.

Definition getToken_call (c : nat) (now : Z) (s : provider) : provider :=
  match cache_hit now s with
  | Some tok => set_call c (Returned (Fulfilled tok)) s
  | None =>
      match inFlight s with
      | Some p => set_call c (Follows p) s
      | None =>
          let p := length (promises s) in
          set_call c (Awaits p) (set_inFlight (Some p) (arrow_start p now s))
      end
  end.

Definition arrow_resume (p : nat) (now : Z) (cfg : AppleMusicAuthConfig)
    (o : mint_outcome) (s : provider) : provider :=
  let s := set_frames (delete p (frames s)) s in
  match o with
  | MintOk tok claim =>
      let exp :=
        match claim with
        | Some e => e
        | None => now + clampTTL (default 3600 (tokenTTLSeconds cfg))
        end in
      set_promises (<[p := Settled (Fulfilled tok)]> (promises s))
        (set_inFlight None (set_cached (Some (mkCached tok exp)) s))
  | MintFail msg =>
      set_promises (<[p := Settled (Rejected (MintError msg))]> (promises s)) s
  end.

Definition getToken_resume (c : nat) (r : settlement) (s : provider) : provider :=
  set_call c (Returned r) (set_inFlight None s).

(** The scheduler's choices. *)
Inductive event :=
| Call (c : nat) (now : Z)               (* a caller invokes getToken *)
| MintSettles (p : nat) (o : mint_outcome)
    (* generateDeveloperToken of arrow p settles; the arrow runs on *)
| Resume (c : nat).
    (* the activation waiting on a settled promise runs on *)

Definition step (e : event) (s : provider) : option provider :=
  match e with
  | Call c now =>
      match calls s !! c with
      | None => Some (getToken_call c now s)
      | Some _ => None
      end
  | MintSettles p o =>
      match frames s !! p with
      | Some (now, cfg) => Some (arrow_resume p now cfg o s)
      | None => None
      end
  | Resume c =>
      match calls s !! c with
      | Some (Awaits p) =>
          match promises s !! p with
          | Some (Settled r) => Some (getToken_resume c r s)
          | _ => None
          end
      | _ => None
      end
  end.

Fixpoint run (tr : list event) (s : provider) : option provider :=
  match tr with
  | [] => Some s
  | e :: tr' =>
      match step e s with
      | Some s' => run tr' s'
      | None => None
      end
  end.

(** What the promise returned by activation [c] has settled to, if it has. *)
Definition result (s : provider) (c : nat) : option settlement :=
  match calls s !! c with
  | Some (Returned r) => Some r
  | Some (Follows p) =>
      match promises s !! p with
      | Some (Settled r) => Some r
      | _ => None
      end
  | _ => None
  end.

(** What a mint outcome makes of the arrow's promise. *)
Definition settlement_of (o : mint_outcome) : settlement :=
  match o with
  | MintOk tok _ => Fulfilled tok
  | MintFail msg => Rejected (MintError msg)
  end.

(** A provider as [createDeveloperTokenProvider] returns it. *)
Definition createDeveloperTokenProvider (cfg : option AppleMusicAuthConfig)
  : provider :=
  mkProvider cfg None None [] ∅ ∅ 0.

(** *** [generateDeveloperToken]

    What the function hands to [sign]: the protected header and the claims
    set on the [SignJWT] builder.  [now] is [Math.floor(Date.now() / 1000)]
    as the function reads it.  Importing the key and signing are left to
    [mint_outcome]. *)
Record unsigned_jwt := mkJwt {
  jwt_alg : string;                (* setProtectedHeader({ alg, kid }) *)
  jwt_kid : string;
  jwt_iat : Z;                     (* setIssuedAt(now) *)
  jwt_exp : Z;                     (* setExpirationTime(exp) *)
  jwt_iss : string                 (* setIssuer(teamId) *)
}.

Definition generateDeveloperToken_claims (cfg : AppleMusicAuthConfig) (now : Z)
  : unsigned_jwt :=
  let ttl := clampTTL (default (60 * 60 * 24) (tokenTTLSeconds cfg)) in
  let exp := now + ttl in
  mkJwt "ES256" (keyId cfg) now exp (teamId cfg).

(** *** The module variable [musicUserToken] (lines 88-103)

    The variable is passed in and out.  Tokens are taken within Latin-1,
    where [JS.trim] is [String.prototype.trim]. *)
Definition setMusicUserToken (token : string) (musicUserToken : option string)
  : option string :=
  Some (JS.trim token).

Definition getMusicUserToken (musicUserToken : option string) : option string :=
  musicUserToken.

(** [requireMusicUserToken()]: the token, or the message of the [Error] it
    throws. *)
Definition requireMusicUserToken (musicUserToken : option string)
  : string + string :=
  match musicUserToken with
  | Some t =>
      if JS.truthy t then inl t
      else inr "Missing Music User Token. Use the auth tool to set it."
  | None => inr "Missing Music User Token. Use the auth tool to set it."
  end.

End AppleMusicAuth.

(** ** What the HTTP handlers answer *)

Module Http.

(** What a handler did with [res], or that it threw. *)
Inductive outcome :=
| PlainText (status : Z) (body : string)
    (* writeHead(status, {content-type: text/plain}); end(body) *)
| Redirect (location : JS.URL)
    (* writeHead(302, {Location: url.toString()}); end() *)
| Threw.
    (* new URL(...) threw a TypeError *)

(** The JSON answer of the token endpoint. *)
Inductive token_answer :=
| TokenError (status : Z) (error : string)
    (* writeHead(status); end(JSON.stringify({ error })) *)
| TokenGranted (access_token token_type : string) (expires_in : Z)
               (scope : string).
    (* writeHead(200); end(JSON.stringify(response)) *)

Definition is_redirect (o : outcome) : bool :=
  match o with
  | Redirect _ => true
  | _ => false
  end.

End Http.

(** ** src/auth/oauthServer.ts *)

Module OAuthServer.
Import Http.

Record PendingState := mkPending {
  redirectUri : string;
  ps_expiresAt : Z                 (* expiresAt, milliseconds *)
}.

Record StoredToken := mkStored {
  token : string;
  expiresAt : option Z             (* milliseconds; optional *)
}.

(** The two module-level maps. *)
Record store := mkStore {
  pendingStates : gmap string PendingState;
  userTokens : gmap string StoredToken
}.

(** The callback of [setInterval]: every entry whose [expiresAt] is before
    [now] is deleted. *)
Definition sweep (now : Z) (st : store) : store :=
  mkStore (filter (fun kv => ¬ (ps_expiresAt kv.2 < now)) (pendingStates st))
          (userTokens st).

(** [getStoredUserToken(sessionId?)]; [now] is [Date.now()]. *)
Definition getStoredUserToken (sessionId : option string) (now : Z) (st : store)
  : option string * store :=
  if negb (JS.truthy_opt sessionId) then (None, st)
  else
    match sessionId with
    | None => (None, st)
    | Some sid =>
        match userTokens st !! sid with
        | None => (None, st)
        | Some stored =>
            match expiresAt stored with
            | Some e =>
                if JS.truthy_num e && Z.ltb e now
                then (None, mkStore (pendingStates st) (delete sid (userTokens st)))
                else (Some (token stored), st)
            | None => (Some (token stored), st)
            end
        end
    end.

(** [storeUserToken(sessionId, token, expiresIn?)]; [now] is [Date.now()]. *)
Definition storeUserToken (sessionId tok : string) (expiresIn : option Z)
    (now : Z) (st : store) : store :=
  let expiresAt :=
    match expiresIn with
    | Some n => if JS.truthy_num n then Some (now + n * 1000) else None
    | None => None
    end in
  mkStore (pendingStates st) (<[sessionId := mkStored tok expiresAt]> (userTokens st)).

(** The part of [handleOAuthAuthorize] that touches the stores (lines
    40-50): [None] when it answered 400, the store with the recorded state
    otherwise.  [now] is [Date.now()]. *)
Definition authorize_record (searchParams : list (string * string)) (now : Z)
    (st : store) : option store :=
  match JS.params_get "redirect_uri" searchParams,
        JS.params_get "state" searchParams with
  | Some redirect, Some state =>
      if negb (JS.truthy redirect) || negb (JS.truthy state) then None
      else Some (mkStore (<[state := mkPending redirect (now + 600000)]>
                            (pendingStates st))
                         (userTokens st))
  | _, _ => None
  end.

Section Callback.

(** [new URL(s)]: the parsed URL, or [None] when the constructor throws. *)
Variable URL_new : string -> option JS.URL.

(** [handleOAuthCallback(req, res, body)]: [params] is
    [new URLSearchParams(body)], [uuid] what [randomUUID()] returns, [now]
    is [Date.now()] (read by [storeUserToken]). *)
Definition handleOAuthCallback (params : list (string * string))
    (uuid : string) (now : Z) (st : store) : outcome * store :=
  let musicUserToken := JS.params_get "music_user_token" params in
  let state := JS.params_get "state" params in
  match musicUserToken, state with
  | Some musicUserToken, Some state =>
      if negb (JS.truthy musicUserToken) || negb (JS.truthy state)
      then (PlainText 400 "Missing token or state", st)
      else
        match pendingStates st !! state with
        | None => (PlainText 400 "Invalid or expired state", st)
        | Some stateData =>
            let st := mkStore (delete state (pendingStates st)) (userTokens st) in
            let accessToken := musicUserToken in
            let sessionId := uuid in
            let st := storeUserToken sessionId musicUserToken None now st in
            match URL_new (redirectUri stateData) with
            | None => (Threw, st)
            | Some redirectUrl =>
                let redirectUrl := JS.url_set "code" accessToken redirectUrl in
                let redirectUrl := JS.url_set "state" state redirectUrl in
                (Redirect redirectUrl, st)
            end
        end
  | _, _ => (PlainText 400 "Missing token or state", st)
  end.

End Callback.

End OAuthServer.

(** ** build/auth/oauthToken.js *)

Module OAuthToken.
Import Http.

(** [handleOAuthToken(req, res, body)]: [params] is
    [new URLSearchParams(body)], [uuid] what [randomUUID()] returns, [now]
    is [Date.now()] (read by [storeUserToken]). *)
Definition handleOAuthToken (params : list (string * string)) (uuid : string)
    (now : Z) (st : OAuthServer.store) : token_answer * OAuthServer.store :=
  let grantType := JS.params_get "grant_type" params in
  let code := JS.params_get "code" params in
  match grantType, code with
  | Some g, Some code =>
      if negb (String.eqb g "authorization_code") || negb (JS.truthy code)
      then (TokenError 400 "invalid_request", st)
      else
        let accessToken := uuid in
        let sessionId := accessToken in
        let st := OAuthServer.storeUserToken sessionId code
                    (Some (3600 * 24 * 90)) now st in
        (TokenGranted accessToken "Bearer" (3600 * 24 * 90)
                      "music.library.read music.library.write", st)
  | _, _ => (TokenError 400 "invalid_request", st)
  end.

End OAuthToken.

(** ** src/client.ts *)

Module Client.
Import Http.

(** The module-level session token store and pending slot. *)
Record state := mkState {
  sessionTokens : gmap string string;
  pendingToken : option string
}.

Section StatelessOAuth.

(** [new URL(s)]: the parsed URL, or [None] when the constructor throws. *)
Variable URL_new : string -> option JS.URL.

(** [handleOAuthCallback(_req, res, body)] of the stateless mode; [params]
    is [new URLSearchParams(body)]. *)
Definition handleOAuthCallback (params : list (string * string)) : outcome :=
  let token := JS.params_get "music_user_token" params in
  let state := JS.params_get "state" params in
  let redirectUri := JS.params_get "redirect_uri" params in
  match token, state, redirectUri with
  | Some token, Some state, Some redirectUri =>
      if negb (JS.truthy token) || negb (JS.truthy state)
         || negb (JS.truthy redirectUri)
      then PlainText 400 "Missing parameters"
      else
        match URL_new redirectUri with
        | None => Threw
        | Some url =>
            let url := JS.url_set "code" token url in
            let url := JS.url_set "state" state url in
            Redirect url
        end
  | _, _, _ => PlainText 400 "Missing parameters"
  end.

End StatelessOAuth.

(** [handleOAuthToken(_req, res, body)] of the stateless mode: it has no
    access to any store. *)
Definition handleOAuthToken (params : list (string * string)) : token_answer :=
  let grantType := JS.params_get "grant_type" params in
  let code := JS.params_get "code" params in
  match grantType, code with
  | Some g, Some code =>
      if negb (String.eqb g "authorization_code") || negb (JS.truthy code)
      then TokenError 400 "invalid_request"
      else TokenGranted code "Bearer" (60 * 60 * 24 * 90)
                        "music.library.read music.library.write"
  | _, _ => TokenError 400 "invalid_request"
  end.

(** [parseBearerToken(authHeader?: string): string | undefined] *)
Definition parseBearerToken (authHeader : option string) : option string :=
  match authHeader with
  | None => None
  | Some h =>
      if negb (JS.truthy h) then None
      else
        let parts := JS.split " " h in
        match parts !! 0%nat, parts !! 1%nat with
        | Some scheme, Some value =>
            if negb (JS.truthy scheme) || negb (JS.truthy value) then None
            else if negb (String.eqb (JS.toLowerCase scheme) "bearer") then None
            else Some (JS.trim value)
        | _, _ => None
        end
  end.

(** A header value as [Record<string, string | string[] | undefined>]
    has it. *)
Inductive header_value :=
| HString (v : string)
| HArray (vs : list string).

(** The first truthy entry of an array of strings. *)
Fixpoint first_truthy (vs : list string) : option string :=
  match vs with
  | [] => None
  | v :: vs' => if JS.truthy v then Some v else first_truthy vs'
  end.

Fixpoint session_id_among (keys : list string)
    (headers : gmap string header_value) : option string :=
  match keys with
  | [] => None
  | key :: keys' =>
      match headers !! key with
      | Some (HArray vs) =>
          match first_truthy vs with
          | Some entry => Some entry
          | None => session_id_among keys' headers
          end
      | Some (HString raw) =>
          if JS.truthy raw then Some raw else session_id_among keys' headers
      | None => session_id_among keys' headers
      end
  end.

(** [getSessionIdFromHeaders(headers?)] *)
Definition getSessionIdFromHeaders (headers : option (gmap string header_value))
  : option string :=
  match headers with
  | None => None
  | Some hs =>
      session_id_among
        ["mcp-session-id"; "Mcp-Session-Id"; "x-mcp-session-id";
         "X-MCP-Session-Id"] hs
  end.

(** The [extra] argument the transport hands to a tool handler. *)
Record extra := mkExtra {
  sessionId : option string;
  requestInfo_headers : option (gmap string header_value)
}.

(** [resolveSessionId(extra?)] *)
Definition resolveSessionId (e : option extra) : option string :=
  match e with
  | None => None
  | Some x =>
      if JS.truthy_opt (sessionId x) then sessionId x
      else getSessionIdFromHeaders (requestInfo_headers x)
  end.

(** The first two lines of every library tool handler (311-312, 323-324,
    ...): [sessionId ? sessionTokens.get(sessionId) : pendingToken]. *)
Definition handler_userToken (e : option extra) (st : state) : option string :=
  let sessionId := resolveSessionId e in
  match sessionId with
  | Some sid => if JS.truthy sid then sessionTokens st !! sid else pendingToken st
  | None => pendingToken st
  end.

(** [s.startsWith(p)] *)
Definition startsWith (s p : string) : bool := String.prefix p s.

(** [s.slice(n)] for [n] within the string. *)
Fixpoint slice (n : nat) (s : string) : string :=
  match n, s with
  | O, _ => s
  | S n', String _ s' => slice n' s'
  | S _, EmptyString => EmptyString
  end.

Definition stripMcpPrefix (pathname : string) : string :=
  if startsWith pathname "/mcp/" then slice 4 pathname else pathname.

(** An incoming request: what the listener of [http.createServer] reads. *)
Record request := mkRequest {
  method : string;
  pathname : string;               (* url.pathname *)
  headers : gmap string string     (* req.headers *)
}.

(** Lines 716-739: the bearer token and the session id are taken from the
    headers and written to the stores before the transport sees the
    request. *)
Definition bind_credentials (authHeader sessionId : option string) (st : state)
  : state :=
  if JS.truthy_opt authHeader then
    match parseBearerToken authHeader with
    | Some token =>
        if JS.truthy token then
          let st := mkState (sessionTokens st) (Some token) in
          match sessionId with
          | Some sid =>
              if JS.truthy sid
              then mkState (<[sid := token]> (sessionTokens st)) (pendingToken st)
              else st
          | None => st
          end
        else st
    | None => st
    end
  else
    match sessionId, pendingToken st with
    | Some sid, Some pending =>
        if JS.truthy sid && JS.truthy pending
        then mkState (<[sid := pending]> (sessionTokens st)) (pendingToken st)
        else st
    | _, _ => st
    end.

(** Which branch of the listener answers a request. *)
Inductive disposition :=
| OAuthAuthorize              (* handleOAuthAuthorize *)
| OAuthCallback               (* handleOAuthCallback *)
| AuthorizationServerMetadata (* RFC 8414 document *)
| OpenIdConfiguration
| ProtectedResourceMetadata   (* RFC 9728 document *)
| LegacyMetadata
| TokenPreflight              (* 204 to OPTIONS /oauth/token *)
| OAuthToken                  (* handleOAuthToken *)
| Unauthorized                (* 401 with WWW-Authenticate *)
| NotFound                    (* 404 *)
| McpPreflight                (* 204 to OPTIONS *)
| ToTransport.                (* the [try] of lines 741-770, see [deliver] *)

(** The listener of [http.createServer] in [main], lines 522-739: the
    routes, the guards and the writes to the two stores.  A request that
    gets past them enters the [try] of lines 741-770, which reads its body
    and calls the transport; [requestListener] below goes on from there. *)
Definition listener (req : request) (st : state) : disposition * state :=
  let rawPath := pathname req in
  let path := stripMcpPrefix rawPath in
  let m := method req in
  if String.eqb path "/oauth/authorize" && String.eqb m "GET"
  then (OAuthAuthorize, st)
  else if String.eqb path "/oauth/callback" && String.eqb m "POST"
  then (OAuthCallback, st)
  else if startsWith path "/.well-known/oauth-authorization-server"
          && String.eqb m "GET"
  then (AuthorizationServerMetadata, st)
  else if startsWith path "/.well-known/openid-configuration"
          && String.eqb m "GET"
  then (OpenIdConfiguration, st)
  else if startsWith path "/.well-known/oauth-protected-resource"
          && String.eqb m "GET"
  then (ProtectedResourceMetadata, st)
  else if String.eqb path "/mcp/oauth/metadata" && String.eqb m "GET"
  then (LegacyMetadata, st)
  else if String.eqb path "/oauth/token" && String.eqb m "OPTIONS"
  then (TokenPreflight, st)
  else if String.eqb path "/oauth/token" && String.eqb m "POST"
  then (OAuthToken, st)
  else if startsWith rawPath "/mcp"
          && negb (JS.truthy_opt (headers req !! "authorization"))
  then (Unauthorized, st)
  else if negb (startsWith rawPath "/mcp")
  then (NotFound, st)
  else if String.eqb m "OPTIONS"
  then (McpPreflight, st)
  else
    let authHeader := headers req !! "authorization" in
    let sessionId := headers req !! "mcp-session-id" in
    (ToTransport, bind_credentials authHeader sessionId st).

(** The [extra] of a tool call that arrived in request [req]: the transport
    passes the request's headers, and its own session id if it has one. *)
Definition extra_of (transportSession : option string) (req : request) : extra :=
  mkExtra transportSession (Some (HString <$> headers req)).

Section RequestListener.

(** [JSON.parse(rawBody)]: the value, or [None] when it throws. *)
Variable JSON : Type.
Variable JSON_parse : string -> option JSON.

(** How the listener has dealt with a request: it answered before the
    [try] (lines 531-711); or it called
    [transport.handleRequest(req, res, parsedBody)] (line 752), which
    answers, the [catch] answering for it if it throws; or the [catch]
    answered 500 before the transport was called. *)
Inductive served :=
| Answered (d : disposition)
| Delivered (parsedBody : option JSON)
| InternalError.

(** The [try] of lines 741-752, up to the call of the transport.
    [rawBody] is the text read from the request, [None] when reading it
    threw. *)
Definition deliver (req : request) (rawBody : option string) : served :=
  if String.eqb (method req) "POST" then
    match rawBody with
    | None => InternalError
    | Some rawBody =>
        if Nat.ltb 0 (String.length rawBody) then
          match JSON_parse rawBody with
          | Some parsedBody => Delivered (Some parsedBody)
          | None => InternalError
          end
        else Delivered None
    end
  else Delivered None.

(** The whole listener (lines 522-771): the stores are written (lines
    727-739) before the body is read. *)
Definition requestListener (req : request) (rawBody : option string)
    (st : state) : served * state :=
  match listener req st with
  | (ToTransport, st') => (deliver req rawBody, st')
  | (d, st') => (Answered d, st')
  end.

End RequestListener.

Arguments Answered {JSON} d.
Arguments Delivered {JSON} parsedBody.
Arguments InternalError {JSON}.
Arguments deliver {JSON} JSON_parse req rawBody.
Arguments requestListener {JSON} JSON_parse req rawBody st.

(** The first entry of an array that parses to a non-empty bearer token. *)
Fixpoint first_bearer (vs : list string) : option string :=
  match vs with
  | [] => None
  | entry :: vs' =>
      match parseBearerToken (Some entry) with
      | Some token => if JS.truthy token then Some token else first_bearer vs'
      | None => first_bearer vs'
      end
  end.

Fixpoint bearer_among (keys : list string)
    (headers : gmap string header_value) : option string :=
  match keys with
  | [] => None
  | key :: keys' =>
      match headers !! key with
      | Some (HArray vs) =>
          match first_bearer vs with
          | Some token => Some token
          | None => bearer_among keys' headers
          end
      | Some (HString raw) =>
          match parseBearerToken (Some raw) with
          | Some token =>
              if JS.truthy token then Some token else bearer_among keys' headers
          | None => bearer_among keys' headers
          end
      | None => bearer_among keys' headers
      end
  end.

Definition bearer_candidates : list string :=
  ["authorization"; "Authorization"; "x-mcp-proxy-auth"; "X-MCP-Proxy-Auth";
   "x-mcp-auth"; "X-MCP-Auth"; "mcp-authorization"; "MCP-Authorization"].

(** [getBearerFromHeaders(headers?)] *)
Definition getBearerFromHeaders (headers : option (gmap string header_value))
  : option string :=
  match headers with
  | None => None
  | Some hs => bearer_among bearer_candidates hs
  end.

(** The [getUserToken] option [client.ts] gives to [AppleMusicAPI] (lines
    42-47); [musicUserToken] is the module variable of [appleMusicAuth]. *)
Definition api_getUserToken (musicUserToken : option string) : option string :=
  let memToken := AppleMusicAuth.getMusicUserToken musicUserToken in
  if JS.truthy_opt memToken then memToken else None.




End Client.

(** ** src/appleMusic/api.ts *)

Module AppleMusicAPI.

Definition baseUrl : string := "https://api.music.apple.com".

(** [request] from the developer token to [fetch] (lines 32-46): it throws,
    or calls [fetch] with a URL and headers. *)
Inductive prepared :=
| Throws (msg : string)
| Fetch (url : string) (headers : gmap string string).

(** [userToken] is what [this.getUserToken()] answers, [devToken] what
    [await this.getDeveloperToken()] gave, [init_headers] is
    [init.headers]. *)
Definition request_prepare (userToken : option string) (devToken path : string)
    (init_headers : option (gmap string string)) (requiresUserToken : bool)
    (userTokenOverride : option string) : prepared :=
  let headers := default ∅ init_headers in
  let headers := <["Authorization" := "Bearer " +:+ devToken]> headers in
  let headers :=
    <["Content-Type" := default "application/json" (headers !! "Content-Type")]>
      headers in
  if requiresUserToken then
    let userToken :=
      if JS.truthy_opt userTokenOverride then userTokenOverride else userToken in
    if negb (JS.truthy_opt userToken)
    then Throws "This operation requires a Music User Token. Authenticate via OAuth or set it with the auth tool."
    else
      match userToken with
      | Some u => Fetch (baseUrl +:+ path) (<["Music-User-Token" := u]> headers)
      | None => Throws "This operation requires a Music User Token. Authenticate via OAuth or set it with the auth tool."
      end
  else Fetch (baseUrl +:+ path) headers.

(** What a library tool of [client.ts] makes of a call: the handler
    resolves the user token of the session and passes it to a method of the
    API, which calls [request(path, { method }, true, userToken)]. *)
Definition library_call (musicUserToken : option string) (devToken path : string)
    (e : option Client.extra) (st : Client.state) : prepared :=
  request_prepare (Client.api_getUserToken musicUserToken) devToken path None
                  true (Client.handler_userToken e st).

(** A catalog method calls [request(path)]. *)
Definition catalog_call (musicUserToken : option string) (devToken path : string)
  : prepared :=
  request_prepare (Client.api_getUserToken musicUserToken) devToken path None
                  false None.

End AppleMusicAPI.

(** ** Vocabulary of the statements *)

Module Spec.

(** The character occurs in the string. *)
Fixpoint has_char (c : ascii) (s : string) : bool :=
  match s with
  | EmptyString => false
  | String d s' => Ascii.eqb d c || has_char c s'
  end.


(** The event is an invocation of [getToken]. *)
Definition is_call (e : AppleMusicAuth.event) : bool :=
  match e with
  | AppleMusicAuth.Call _ _ => true
  | _ => false
  end.

(** No mint is in flight, no arrow is suspended, and every activation of
    [getToken] so far has returned. *)
Definition quiescent (s : AppleMusicAuth.provider) : Prop :=
  AppleMusicAuth.inFlight s = None
  /\ AppleMusicAuth.frames s = ∅
  /\ forall c act, AppleMusicAuth.calls s !! c = Some act ->
                   exists r, act = AppleMusicAuth.Returned r.

(** The provider once [a], then [b], have invoked [getToken] with no valid
    cached credential, from a state with no mint in flight: [a] has started
    the arrow and awaits its promise, [b] follows that promise. *)
Definition after_two_calls (s0 : AppleMusicAuth.provider) (a b : nat) (now1 : Z)
  : AppleMusicAuth.provider :=
  let p := length (AppleMusicAuth.promises s0) in
  AppleMusicAuth.set_call b (AppleMusicAuth.Follows p)
    (AppleMusicAuth.set_call a (AppleMusicAuth.Awaits p)
       (AppleMusicAuth.set_inFlight (Some p)
          (AppleMusicAuth.arrow_start p now1 s0))).

(** The listener applied to a sequence of requests, in order. *)
Fixpoint listen_all (rs : list Client.request) (st : Client.state) : Client.state :=
  match rs with
  | [] => st
  | r :: rs' => listen_all rs' (Client.listener r st).2
  end.

(** The request does not carry a bearer credential together with the
    session id [sid]. *)
Definition keeps_binding (sid : string) (r : Client.request) : Prop :=
  Client.headers r !! "mcp-session-id" <> Some sid
  \/ Client.parseBearerToken (Client.headers r !! "authorization") = None.

(** The dispositions of the OAuth and discovery routes. *)
Definition oauth_route (d : Client.disposition) : bool :=
  match d with
  | Client.OAuthAuthorize | Client.OAuthCallback
  | Client.AuthorizationServerMetadata | Client.OpenIdConfiguration
  | Client.ProtectedResourceMetadata | Client.LegacyMetadata
  | Client.TokenPreflight | Client.OAuthToken => true
  | _ => false
  end.

(** A credential as the listener stores it: not empty, without a space,
    and with no white space around it. *)
Definition clean_token (t : string) : Prop :=
  t <> "" /\ has_char " " t = false /\ JS.trim t = t.

(** Every session id bound is not empty and every credential held, bound
    or pending, is clean. *)
Definition clean_state (st : Client.state) : Prop :=
  (forall sid tok, Client.sessionTokens st !! sid = Some tok ->
                   sid <> "" /\ clean_token tok)
  /\ (forall tok, Client.pendingToken st = Some tok -> clean_token tok).


(** The number is a lifetime within the bounds of [clampTTL]. *)
Definition lifetime_in_range (n : JS.number) : Prop :=
  exists c, n = JS.Num c /\ 60 <= c <= 15552000.

(** Every character of the string is white space. *)
Fixpoint all_white (s : string) : bool :=
  match s with
  | EmptyString => true
  | String c s' => JS.is_white c && all_white s'
  end.

(** What happens to the stores of the OAuth server between two steps of a
    handshake. *)
Inductive server_op :=
| Sweep (now : Z)
| Authorize (searchParams : list (string * string)) (now : Z)
| Callback (params : list (string * string)) (uuid : string) (now : Z)
| TokenExchange (params : list (string * string)) (uuid : string) (now : Z)
| Lookup (sessionId : option string) (now : Z).

Definition apply_op (URL_new : string -> option JS.URL) (op : server_op)
    (st : OAuthServer.store) : OAuthServer.store :=
  match op with
  | Sweep now => OAuthServer.sweep now st
  | Authorize ps now => default st (OAuthServer.authorize_record ps now st)
  | Callback ps uuid now => (OAuthServer.handleOAuthCallback URL_new ps uuid now st).2
  | TokenExchange ps uuid now => (OAuthToken.handleOAuthToken ps uuid now st).2
  | Lookup sid now => (OAuthServer.getStoredUserToken sid now st).2
  end.

Definition apply_ops (URL_new : string -> option JS.URL) (ops : list server_op)
    (st : OAuthServer.store) : OAuthServer.store :=
  fold_left (fun st op => apply_op URL_new op st) ops st.

(** The operation leaves alone the pending entry of [state] whose expiry
    is [expiry]: a sweep is not after the expiry, an authorize or a
    callback names another state. *)
Definition spares_state (state : string) (expiry : Z) (op : server_op) : Prop :=
  match op with
  | Sweep now => now <= expiry
  | Authorize ps _ => JS.params_get "state" ps <> Some state
  | Callback ps _ _ => JS.params_get "state" ps <> Some state
  | TokenExchange _ _ _ => True
  | Lookup _ _ => True
  end.

(** The operation leaves alone the record of the session id [sid] whose
    expiry is [exp]: a callback or a token exchange draws another
    identifier, a lookup of [sid] is not after the expiry. *)
Definition keeps_record (sid : string) (exp : option Z) (op : server_op) : Prop :=
  match op with
  | Callback _ uuid _ => uuid <> sid
  | TokenExchange _ uuid _ => uuid <> sid
  | Lookup s now =>
      s = Some sid -> match exp with Some e => now <= e | None => True end
  | _ => True
  end.

(** The headers hold the string [v] under [key], alone or in an array. *)
Definition header_has (hs : gmap string Client.header_value) (key v : string)
  : Prop :=
  hs !! key = Some (Client.HString v)
  \/ exists vs, hs !! key = Some (Client.HArray vs) /\ In v vs.

(** The header names [getSessionIdFromHeaders] looks under, in order. *)
Definition session_keys : list string :=
  ["mcp-session-id"; "Mcp-Session-Id"; "x-mcp-session-id"; "X-MCP-Session-Id"].

(** The number of invocations of [getToken] in a trace. *)
Definition count_calls (tr : list AppleMusicAuth.event) : nat :=
  length (filter (fun e => is_call e = true) tr).

(** The event is the settling of a mint with a token. *)
Definition is_mint_ok (e : AppleMusicAuth.event) : bool :=
  match e with
  | AppleMusicAuth.MintSettles _ (AppleMusicAuth.MintOk _ _) => true
  | _ => false
  end.

End Spec.

(** Case analysis on the tests of a dispatcher. *)
Ltac listener_cases :=
  repeat (match goal with
          | |- context [if ?b then _ else _] => destruct b eqn:?
          end; simpl in *; try congruence; try discriminate; auto).

(** * Properties *)

(** ** The embedding on concrete inputs *)

Section Examples.

Example split_examples :
  JS.split " " "Bearer abc" = ["Bearer"; "abc"]
  /\ JS.split " " "Bearer  abc" = ["Bearer"; ""; "abc"]
  /\ JS.split " " " abc " = [""; "abc"; ""]
  /\ JS.split " " "" = [""].
Proof. repeat split. Qed.

Example toLowerCase_examples :
  JS.toLowerCase "BeArEr" = "bearer" /\ JS.toLowerCase "Basic-1" = "basic-1".
Proof. repeat split. Qed.

Example trim_examples :
  JS.trim (String "009" "ab c " +:+ String "010" "") = "ab c"
  /\ JS.trim "   " = "" /\ JS.trim "abc" = "abc".
Proof. repeat split. Qed.

Example params_set_examples :
  JS.params_set "code" "T" [("a", "1"); ("code", "x"); ("b", "2"); ("code", "y")]
  = [("a", "1"); ("code", "T"); ("b", "2")]
  /\ JS.params_set "code" "T" [("a", "1")] = [("a", "1"); ("code", "T")].
Proof. repeat split. Qed.

Example stripMcpPrefix_examples :
  Client.stripMcpPrefix "/mcp/oauth/token" = "/oauth/token"
  /\ Client.stripMcpPrefix "/mcp" = "/mcp"
  /\ Client.stripMcpPrefix "/oauth/token" = "/oauth/token".
Proof. repeat split. Qed.

Example listener_routes :
  let st := Client.mkState ∅ None in
  (Client.listener (Client.mkRequest "POST" "/mcp/oauth/token" ∅) st).1
  = Client.OAuthToken
  /\ (Client.listener (Client.mkRequest "GET" "/mcp" ∅) st).1
     = Client.Unauthorized
  /\ (Client.listener (Client.mkRequest "GET" "/other" ∅) st).1
     = Client.NotFound
  /\ (Client.listener
        (Client.mkRequest "OPTIONS" "/mcp" {[ "authorization" := "x" ]}) st).1
     = Client.McpPreflight
  /\ (Client.listener
        (Client.mkRequest "POST" "/mcp" {[ "authorization" := "x" ]}) st).1
     = Client.ToTransport.
Proof. vm_compute. repeat split. Qed.

End Examples.

(** ** The lifetime clamp *)

Section ClampTTL.
Import AppleMusicAuth.

Lemma SIX_MONTHS_SECONDS_value : SIX_MONTHS_SECONDS = 15552000.
Proof. reflexivity. Qed.

Lemma clampTTL_bounds (L : Z) : 60 <= clampTTL L <= 15552000.
Proof. unfold clampTTL. rewrite SIX_MONTHS_SECONDS_value. lia. Qed.

Lemma clampTTL_below (L : Z) : L < 60 -> clampTTL L = 60.
Proof. unfold clampTTL. rewrite SIX_MONTHS_SECONDS_value. lia. Qed.

Lemma clampTTL_above (L : Z) : 15552000 < L -> clampTTL L = 15552000.
Proof. unfold clampTTL. rewrite SIX_MONTHS_SECONDS_value. lia. Qed.

Lemma clampTTL_number_int (l : Z) :
  clampTTL_number (JS.Num l) = JS.Num (clampTTL l).
Proof.
  unfold clampTTL_number, clampTTL, JS.Math_max, JS.Math_min, JS.num_leb.
  rewrite SIX_MONTHS_SECONDS_value.
  destruct (Z.leb_spec l 15552000) as [H1|H1].
  - destruct (Z.leb_spec 60 l) as [H2|H2]; f_equal; lia.
  - destruct (Z.leb_spec 60 15552000) as [H2|H2]; f_equal; lia.
Qed.

(** C6, as amended.  For every requested lifetime [L] that is a number,
    an integer or an infinity, and not [NaN]: [clampTTL L] lies in
    [[60, 15552000]]; it is [L] itself whenever [L] is already in that
    interval; and a lifetime below the floor is answered by the floor and
    one above the ceiling by the ceiling, none is rejected. *)
Theorem clampTTL_spec (L : JS.number) :
  L <> JS.NaN ->
  Spec.lifetime_in_range (clampTTL_number L)
  /\ (Spec.lifetime_in_range L -> clampTTL_number L = L)
  /\ (forall l, L = JS.Num l ->
        (l < 60 -> clampTTL_number L = JS.Num 60)
        /\ (15552000 < l -> clampTTL_number L = JS.Num 15552000))
  /\ (L = JS.NegInf -> clampTTL_number L = JS.Num 60)
  /\ (L = JS.PosInf -> clampTTL_number L = JS.Num 15552000).
Proof.
  intros HL. destruct L as [l| | |]; [| | |contradiction].
  - rewrite clampTTL_number_int.
    split; [exists (clampTTL l); split; [reflexivity|apply clampTTL_bounds]|].
    split.
    { intros (c & [= <-] & Hc). f_equal.
      unfold clampTTL. rewrite SIX_MONTHS_SECONDS_value. lia. }
    split; [|split; discriminate].
    intros l' [= <-].
    split; intros H; f_equal; [apply clampTTL_below|apply clampTTL_above]; exact H.
  - split; [exists 15552000; split; [reflexivity|lia]|].
    split; [intros (c & Hc & _); discriminate|].
    split; [discriminate|]. split; [discriminate|reflexivity].
  - split; [exists 60; split; [reflexivity|lia]|].
    split; [intros (c & Hc & _); discriminate|].
    split; [discriminate|]. split; [reflexivity|discriminate].
Qed.

Lemma clampTTL_spec_witness :
  clampTTL_number (JS.Num 86400) = JS.Num 86400
  /\ clampTTL_number (JS.Num 5) = JS.Num 60
  /\ clampTTL_number JS.PosInf = JS.Num 15552000.
Proof.
  split; [|split].
  - apply (clampTTL_spec (JS.Num 86400)); [discriminate|].
    exists 86400. split; [reflexivity|lia].
  - apply (proj1 (proj2 (proj2 (clampTTL_spec (JS.Num 5) ltac:(discriminate))))
             5 eq_refl).
    lia.
  - apply (clampTTL_spec JS.PosInf); [discriminate|reflexivity].
Defined.

(** C6 as stated fails at [NaN], which [Number.parseInt] answers for a
    value of [APPLE_MUSIC_DEV_TOKEN_TTL_SECONDS] that does not start with
    a number: [Math.min] and [Math.max] hand it on, and the result lies in
    no interval. *)
Lemma clampTTL_NaN_not_clamped :
  clampTTL_number JS.NaN = JS.NaN
  /\ ~ (forall L, Spec.lifetime_in_range (clampTTL_number L)).
Proof.
  split; [reflexivity|].
  intros H. destruct (H JS.NaN) as (c & Hc & _). discriminate.
Qed.

End ClampTTL.

(** ** Parsing of the Authorization header *)

Section ParseBearer.
Import Client.

Lemma truthy_true (s : string) : JS.truthy s = true <-> s <> "".
Proof. destruct s; simpl; split; congruence. Qed.

Lemma truthy_false (s : string) : JS.truthy s = false <-> s = "".
Proof. destruct s; simpl; split; congruence. Qed.

Lemma split_nonempty (sep : ascii) (s : string) : JS.split sep s <> [].
Proof.
  destruct s as [|c s]; simpl; [discriminate|].
  destruct (Ascii.eqb c sep); [discriminate|].
  destruct (JS.split sep s); discriminate.
Qed.

(** The shape of [split]: the first piece holds no separator, and either it
    is the whole string or a separator follows it and the other pieces are
    those of the remainder. *)
Lemma split_shape (sep : ascii) (s : string) :
  exists p ps,
    JS.split sep s = p :: ps
    /\ Spec.has_char sep p = false
    /\ ((ps = [] /\ s = p)
        \/ exists s', s = String.append p (String sep s') /\ JS.split sep s' = ps).
Proof.
  induction s as [|c s IH]; simpl.
  - exists "", []. auto.
  - destruct (Ascii.eqb_spec c sep) as [->|Hne].
    + exists "", (JS.split sep s). repeat split; auto.
      right. exists s. auto.
    + destruct IH as (p & ps & Hs & Hp & Hrest). rewrite Hs.
      exists (String c p), ps. split; [reflexivity|]. split.
      * simpl. rewrite Hp. apply orb_false_iff. split; [|reflexivity].
        apply Ascii.eqb_neq, Hne.
      * destruct Hrest as [[-> ->]|(s' & -> & Hs')]; [left; auto|].
        right. exists s'. auto.
Qed.

Lemma append_nil (t : string) : String.append "" t = t.
Proof. reflexivity. Qed.

Lemma append_cons (c : ascii) (s t : string) :
  String.append (String c s) t = String c (String.append s t).
Proof. reflexivity. Qed.

Lemma append_empty_r (s : string) : String.append s "" = s.
Proof.
  induction s as [|c s IH]; [reflexivity|].
  rewrite append_cons, IH. reflexivity.
Qed.

Lemma split_piece (sep : ascii) (p s' : string) :
  Spec.has_char sep p = false ->
  JS.split sep (String.append p (String sep s')) = p :: JS.split sep s'.
Proof.
  induction p as [|c p IH]; intros H.
  - rewrite append_nil. simpl. rewrite Ascii.eqb_refl. reflexivity.
  - apply orb_false_iff in H as [Hc Hp].
    rewrite append_cons. simpl. rewrite Hc, (IH Hp). reflexivity.
Qed.

Lemma split_whole (sep : ascii) (p : string) :
  Spec.has_char sep p = false -> JS.split sep p = [p].
Proof.
  induction p as [|c p IH]; simpl; intros H; [reflexivity|].
  apply orb_false_iff in H as [Hc Hp]. rewrite Hc, (IH Hp). reflexivity.
Qed.

(** The first two pieces of a string, read off its text. *)
Lemma split_two (sep : ascii) (h a b : string) :
  (exists ps, JS.split sep h = a :: b :: ps)
  <-> exists rest,
        h = String.append a (String sep (String.append b rest))
        /\ Spec.has_char sep a = false
        /\ Spec.has_char sep b = false
        /\ (rest = "" \/ exists r, rest = String sep r).
Proof.
  split.
  - intros (ps & H).
    destruct (split_shape sep h) as (p & ps0 & Hs & Hp & Hrest).
    rewrite Hs in H. injection H as -> ->.
    destruct Hrest as [[? ?]|(s' & -> & Hs')]; [discriminate|].
    destruct (split_shape sep s') as (q & qs & Hq & Hqf & Hqrest).
    rewrite Hq in Hs'. injection Hs' as -> ->.
    destruct Hqrest as [[-> ->]|(s'' & -> & _)].
    + exists "". rewrite append_empty_r. repeat split; auto.
    + exists (String sep s''). repeat split; eauto.
  - intros (rest & -> & Ha & Hb & Hrest).
    rewrite (split_piece _ _ _ Ha).
    destruct Hrest as [->|(r & ->)].
    + exists []. f_equal. rewrite append_empty_r. apply split_whole, Hb.
    + exists (JS.split sep r). f_equal. apply split_piece, Hb.
Qed.







(** [parseBearerToken] in terms of the first two pieces of the header. *)
Lemma parseBearerToken_pieces (h c : string) :
  parseBearerToken (Some h) = Some c
  <-> exists scheme value ps,
        JS.split " " h = scheme :: value :: ps
        /\ scheme <> "" /\ value <> ""
        /\ JS.toLowerCase scheme = "bearer"
        /\ c = JS.trim value.
Proof.
  unfold parseBearerToken. split.
  - destruct (JS.truthy h); simpl; [|discriminate].
    destruct (JS.split " " h) as [|scheme [|value ps]]; simpl; try discriminate.
    destruct (JS.truthy scheme) eqn:Hs; simpl; [|discriminate].
    destruct (JS.truthy value) eqn:Hv; simpl; [|discriminate].
    destruct (String.eqb_spec (JS.toLowerCase scheme) "bearer") as [Hl|Hl];
      simpl; [|discriminate].
    intros [= <-]. exists scheme, value, ps.
    rewrite <- !truthy_true. auto.
  - intros (scheme & value & ps & Hsplit & Hs & Hv & Hl & ->).
    assert (Hh : JS.truthy h = true).
    { destruct h; [|reflexivity]. simpl in Hsplit. discriminate. }
    rewrite Hh, Hsplit. simpl.
    apply truthy_true in Hs, Hv. rewrite Hs, Hv, Hl. reflexivity.
Qed.



(** Headers that carry no credential. *)
Example parseBearerToken_rejects :
  parseBearerToken (Some "") = None
  /\ parseBearerToken (Some "Bearer") = None
  /\ parseBearerToken (Some "Bearer ") = None
  /\ parseBearerToken (Some " abc") = None
  /\ parseBearerToken (Some "Bearer  abc") = None
  /\ parseBearerToken (Some "Basic abc") = None.
Proof. repeat split. Qed.

End ParseBearer.

(** ** The developer-token provider *)

Section Provider.
Import AppleMusicAuth.

Lemma cache_hit_Some (now : Z) (s : provider) (tok : string) :
  cache_hit now s = Some tok
  <-> exists ct, cached s = Some ct /\ expiresAtEpoch ct > now + 300
                 /\ tok = token ct.
Proof.
  unfold cache_hit. split.
  - destruct (cached s) as [ct|]; [|discriminate].
    destruct (Z.gtb_spec (expiresAtEpoch ct - 300) now); [|discriminate].
    intros [= <-]. exists ct. repeat split. lia.
  - intros (ct & -> & He & ->).
    destruct (Z.gtb_spec (expiresAtEpoch ct - 300) now); [reflexivity|lia].
Qed.

Lemma cache_hit_None (now : Z) (s : provider) :
  cache_hit now s = None
  <-> cached s = None
      \/ exists ct, cached s = Some ct /\ expiresAtEpoch ct <= now + 300.
Proof.
  unfold cache_hit. split.
  - destruct (cached s) as [ct|]; [|auto].
    destruct (Z.gtb_spec (expiresAtEpoch ct - 300) now); [discriminate|].
    intros _. right. exists ct. split; [reflexivity|lia].
  - intros [-> | (ct & -> & He)]; [reflexivity|].
    destruct (Z.gtb_spec (expiresAtEpoch ct - 300) now); [lia|reflexivity].
Qed.

(** A cache that is stale stays stale as the clock advances. *)
Lemma cache_hit_None_later (now now' : Z) (s s' : provider) :
  cached s' = cached s -> now <= now' ->
  cache_hit now s = None -> cache_hit now' s' = None.
Proof.
  rewrite !cache_hit_None. intros -> Hle [H | (ct & H & He)]; [auto|].
  right. exists ct. split; [exact H|lia].
Qed.

(** The three ways through [getToken] up to its first suspension. *)
Lemma getToken_call_hit (c : nat) (now : Z) (s : provider) (tok : string) :
  cache_hit now s = Some tok ->
  getToken_call c now s = set_call c (Returned (Fulfilled tok)) s.
Proof. unfold getToken_call. intros ->. reflexivity. Qed.

Lemma getToken_call_join (c : nat) (now : Z) (s : provider) (p : nat) :
  cache_hit now s = None -> inFlight s = Some p ->
  getToken_call c now s = set_call c (Follows p) s.
Proof. unfold getToken_call. intros -> ->. reflexivity. Qed.

Lemma getToken_call_start (c : nat) (now : Z) (s : provider) :
  cache_hit now s = None -> inFlight s = None ->
  getToken_call c now s
  = set_call c (Awaits (length (promises s)))
      (set_inFlight (Some (length (promises s)))
         (arrow_start (length (promises s)) now s)).
Proof. unfold getToken_call. intros -> ->. reflexivity. Qed.

Lemma arrow_start_config (p : nat) (now : Z) (s : provider)
    (cfg : AppleMusicAuthConfig) :
  config s = Some cfg ->
  arrow_start p now s
  = count_mint (set_frames (<[p := (now, cfg)]> (frames s))
                  (set_promises (promises s ++ [Pending]) s)).
Proof. unfold arrow_start. intros ->. reflexivity. Qed.

Lemma arrow_start_no_config (p : nat) (now : Z) (s : provider) :
  config s = None ->
  arrow_start p now s
  = set_promises (promises s ++ [Settled (Rejected ConfigError)]) s.
Proof. unfold arrow_start. intros ->. reflexivity. Qed.

Lemma lookup_last (l : list promise) (x : promise) :
  (l ++ [x]) !! length l = Some x.
Proof. apply list_lookup_middle. reflexivity. Qed.

Lemma insert_last (l : list promise) (x y : promise) :
  <[length l := y]> (l ++ [x]) = l ++ [y].
Proof.
  rewrite insert_app_r_alt by lia. rewrite Nat.sub_diag. reflexivity.
Qed.

(** A call that finds neither a valid cached credential nor a mint in
    flight starts a mint of its own. *)
Lemma getToken_call_starts_mint (c : nat) (now : Z) (s : provider)
    (cfg : AppleMusicAuthConfig) :
  cache_hit now s = None -> inFlight s = None -> config s = Some cfg ->
  let s' := getToken_call c now s in
  let p := length (promises s) in
  mints s' = S (mints s) /\ inFlight s' = Some p
  /\ promises s' !! p = Some Pending /\ calls s' !! c = Some (Awaits p).
Proof.
  intros Hstale Hidle Hcfg s' p. subst s' p.
  rewrite getToken_call_start, (arrow_start_config _ _ _ cfg) by assumption.
  simpl. rewrite lookup_insert_eq, lookup_last. auto.
Qed.

(** The amended C3, for one invocation of [getToken] at time [now] in any
    state [s] of the provider.
    - A cached credential whose expiry is more than 300 seconds after [now]
      is returned, and neither the count of mints nor the cache, the
      in-flight slot or the promises change.
    - Otherwise (nothing cached, or an expiry at most 300 seconds ahead):
      when no mint is in flight the call starts one, which calls
      [generateDeveloperToken] once if the configuration is there and not
      at all if reading it throws; when a mint is in flight the call joins
      it and starts none. *)
Theorem getToken_cache_decision (s : provider) (c : nat) (now : Z) :
  (forall ct,
      cached s = Some ct -> expiresAtEpoch ct > now + 300 ->
      let s' := getToken_call c now s in
      result s' c = Some (Fulfilled (token ct))
      /\ mints s' = mints s /\ cached s' = cached s
      /\ inFlight s' = inFlight s /\ promises s' = promises s)
  /\ (cached s = None
      \/ (exists ct, cached s = Some ct /\ expiresAtEpoch ct <= now + 300) ->
      let s' := getToken_call c now s in
      let p := length (promises s) in
      (inFlight s = None -> is_Some (config s) ->
         mints s' = S (mints s) /\ inFlight s' = Some p
         /\ promises s' !! p = Some Pending /\ calls s' !! c = Some (Awaits p))
      /\ (inFlight s = None -> config s = None ->
         mints s' = mints s /\ inFlight s' = Some p
         /\ promises s' !! p = Some (Settled (Rejected ConfigError))
         /\ calls s' !! c = Some (Awaits p))
      /\ (forall q, inFlight s = Some q ->
         mints s' = mints s /\ inFlight s' = Some q
         /\ promises s' = promises s /\ calls s' !! c = Some (Follows q))).
Proof.
  split.
  - intros ct Hc He s'. subst s'.
    rewrite (getToken_call_hit c now s (token ct))
      by (apply cache_hit_Some; eauto).
    unfold result. simpl. rewrite lookup_insert_eq. auto.
  - intros Hstale s' p. apply cache_hit_None in Hstale. subst s' p.
    split; [|split].
    + intros Hidle [cfg Hcfg].
      apply (getToken_call_starts_mint c now s cfg); assumption.
    + intros Hidle Hcfg.
      rewrite getToken_call_start, arrow_start_no_config by assumption.
      simpl. rewrite lookup_insert_eq, lookup_last. auto.
    + intros q Hq. rewrite (getToken_call_join c now s q) by assumption.
      simpl. rewrite lookup_insert_eq. auto.
Qed.

Lemma run_cons (e : event) (tr : list event) (s s' : provider) :
  step e s = Some s' -> run (e :: tr) s = run tr s'.
Proof. simpl. intros ->. reflexivity. Qed.

Lemma step_Call (c : nat) (now : Z) (s : provider) :
  calls s !! c = None -> step (Call c now) s = Some (getToken_call c now s).
Proof. simpl. intros ->. reflexivity. Qed.

Lemma step_MintSettles (p : nat) (o : mint_outcome) (s : provider) now cfg :
  frames s !! p = Some (now, cfg) ->
  step (MintSettles p o) s = Some (arrow_resume p now cfg o s).
Proof. simpl. intros ->. reflexivity. Qed.

Lemma step_Resume (c p : nat) (r : settlement) (s : provider) :
  calls s !! c = Some (Awaits p) -> promises s !! p = Some (Settled r) ->
  step (Resume c) s = Some (getToken_resume c r s).
Proof. simpl. intros -> ->. reflexivity. Qed.

Lemma arrow_resume_promises p now cfg o s :
  promises (arrow_resume p now cfg o s)
  = <[p := Settled (settlement_of o)]> (promises s).
Proof. destruct o; reflexivity. Qed.

Lemma arrow_resume_calls p now cfg o s :
  calls (arrow_resume p now cfg o s) = calls s.
Proof. destruct o; reflexivity. Qed.

Lemma arrow_resume_mints p now cfg o s :
  mints (arrow_resume p now cfg o s) = mints s.
Proof. destruct o; reflexivity. Qed.

Lemma arrow_start_calls (p : nat) (now : Z) (s : provider) :
  calls (arrow_start p now s) = calls s.
Proof. unfold arrow_start. destruct (config s); reflexivity. Qed.

Lemma arrow_start_cached (p : nat) (now : Z) (s : provider) :
  cached (arrow_start p now s) = cached s.
Proof. unfold arrow_start. destruct (config s); reflexivity. Qed.

Lemma run_two_calls (s0 : provider) (a b : nat) (now1 now2 : Z)
    (tr : list event) :
  a <> b -> calls s0 !! a = None -> calls s0 !! b = None ->
  inFlight s0 = None ->
  cache_hit now1 s0 = None -> cache_hit now2 s0 = None ->
  run (Call a now1 :: Call b now2 :: tr) s0
  = run tr (Spec.after_two_calls s0 a b now1).
Proof.
  intros Hab Ha Hb Hidle Hc1 Hc2.
  rewrite (run_cons _ _ _ _ (step_Call a now1 s0 Ha)).
  rewrite getToken_call_start by assumption.
  erewrite run_cons; cycle 1.
  { apply step_Call. simpl. rewrite lookup_insert_ne by done.
    rewrite arrow_start_calls. exact Hb. }
  rewrite (getToken_call_join b now2 _ (length (promises s0))); [reflexivity| |].
  - eapply cache_hit_None_later; [| |exact Hc2]; [|lia].
    simpl. apply arrow_start_cached.
  - reflexivity.
Qed.

Lemma run_nil_inv (s s' : provider) : run [] s = Some s' -> s' = s.
Proof. simpl. congruence. Qed.

Lemma run_cons_inv (e : event) (tr : list event) (s s' : provider) :
  run (e :: tr) s = Some s' ->
  exists s1, step e s = Some s1 /\ run tr s1 = Some s'.
Proof. simpl. destruct (step e s) as [s1|]; [eauto|discriminate]. Qed.

(** With the configuration at hand, all that can happen after the two
    invocations, short of further invocations, is that the mint settles and
    then that [a] runs on. *)
Lemma schedule_with_config (s0 : provider) (a b : nat) (now1 : Z)
    (cfg : AppleMusicAuthConfig) (tr : list event) (s : provider) :
  a <> b -> Spec.quiescent s0 -> config s0 = Some cfg ->
  forallb (fun e => negb (Spec.is_call e)) tr = true ->
  run tr (Spec.after_two_calls s0 a b now1) = Some s ->
  let p := length (promises s0) in
  let s2 := Spec.after_two_calls s0 a b now1 in
  (tr = [] /\ s = s2)
  \/ (exists o, tr = [MintSettles p o] /\ s = arrow_resume p now1 cfg o s2)
  \/ (exists o, tr = [MintSettles p o; Resume a]
                /\ s = getToken_resume a (settlement_of o)
                        (arrow_resume p now1 cfg o s2)).
Proof.
  intros Hab (Hidle & Hfr & Hcl) Hcfg Hnc Hrun p s2.
  assert (Hs2 : s2 = set_call b (Follows p)
                       (set_call a (Awaits p)
                          (set_inFlight (Some p)
                             (count_mint
                                (set_frames (<[p := (now1, cfg)]> (frames s0))
                                   (set_promises (promises s0 ++ [Pending]) s0)))))).
  { unfold s2, Spec.after_two_calls. fold p.
    rewrite (arrow_start_config _ _ _ cfg Hcfg). reflexivity. }
  fold s2 in Hrun. clearbody s2. subst s2.
  destruct tr as [|e1 tr]; [left; split; [reflexivity|apply run_nil_inv, Hrun]|].
  right.
  apply run_cons_inv in Hrun as (s3 & Hstep & Hrun).
  simpl in Hnc. apply andb_true_iff in Hnc as [Hn1 Hnc].
  destruct e1 as [c now | q o | c]; [discriminate| |].
  2:{ exfalso. revert Hstep. simpl.
      destruct (decide (c = b)) as [->|?].
      { rewrite lookup_insert_eq. discriminate. }
      rewrite lookup_insert_ne by done.
      destruct (decide (c = a)) as [->|?].
      { rewrite lookup_insert_eq. unfold p. rewrite lookup_last. discriminate. }
      rewrite lookup_insert_ne by done.
      destruct (calls s0 !! c) as [act|] eqn:Hact; [|discriminate].
      destruct (Hcl c act Hact) as [r ->]. discriminate. }
  revert Hstep. simpl. rewrite Hfr.
  destruct (decide (q = p)) as [->|Hqp];
    [|rewrite lookup_insert_ne by done; rewrite lookup_empty; discriminate].
  rewrite lookup_insert_eq. intros [= <-].
  destruct tr as [|e2 tr].
  { left. exists o. split; [reflexivity|]. apply run_nil_inv, Hrun. }
  right. exists o.
  apply run_cons_inv in Hrun as (s4 & Hstep & Hrun).
  simpl in Hnc. apply andb_true_iff in Hnc as [Hn2 Hnc].
  destruct e2 as [c now | q o' | c]; [discriminate| |].
  { exfalso. revert Hstep. destruct o; simpl;
      rewrite delete_insert_eq, delete_empty, lookup_empty; discriminate. }
  revert Hstep. simpl. rewrite arrow_resume_calls, arrow_resume_promises. simpl.
  destruct (decide (c = b)) as [->|?].
  { rewrite lookup_insert_eq. discriminate. }
  rewrite lookup_insert_ne by done.
  destruct (decide (c = a)) as [->|?]; cycle 1.
  { rewrite lookup_insert_ne by done.
    destruct (calls s0 !! c) as [act|] eqn:Hact; [|discriminate].
    destruct (Hcl c act Hact) as [r ->]. discriminate. }
  rewrite lookup_insert_eq. unfold p at 1 2. rewrite insert_last, lookup_last.
  intros [= <-].
  destruct tr as [|e3 tr].
  { split; [reflexivity|]. apply run_nil_inv, Hrun. }
  exfalso.
  apply run_cons_inv in Hrun as (s5 & Hstep & _).
  simpl in Hnc. apply andb_true_iff in Hnc as [Hn3 _].
  destruct e3 as [c now | q o' | c]; [discriminate| |]; revert Hstep; simpl.
  - destruct o; simpl;
      rewrite delete_insert_eq, delete_empty, lookup_empty; discriminate.
  - rewrite arrow_resume_calls. simpl.
    destruct (decide (c = a)) as [->|?].
    { rewrite lookup_insert_eq. discriminate. }
    rewrite lookup_insert_ne by done.
    destruct (decide (c = b)) as [->|?].
    { rewrite lookup_insert_eq. discriminate. }
    rewrite lookup_insert_ne by done. rewrite lookup_insert_ne by done.
    destruct (calls s0 !! c) as [act|] eqn:Hact; [|discriminate].
    destruct (Hcl c act Hact) as [r ->]. discriminate.
Qed.

(** The executions of two concurrent callers that run to the end. *)
Lemma single_flight_delivers (s0 : provider) (a b : nat) (now1 now2 : Z)
    (o : mint_outcome) :
  a <> b -> calls s0 !! a = None -> calls s0 !! b = None ->
  inFlight s0 = None ->
  cache_hit now1 s0 = None -> cache_hit now2 s0 = None ->
  let p := length (promises s0) in
  (forall cfg, config s0 = Some cfg ->
     exists s,
       run [Call a now1; Call b now2; MintSettles p o; Resume a] s0 = Some s
       /\ mints s = S (mints s0)
       /\ result s a = Some (settlement_of o)
       /\ result s b = Some (settlement_of o))
  /\ (config s0 = None ->
     exists s,
       run [Call a now1; Call b now2; Resume a] s0 = Some s
       /\ mints s = mints s0
       /\ result s a = Some (Rejected ConfigError)
       /\ result s b = Some (Rejected ConfigError)).
Proof.
  intros Hab Ha Hb Hidle Hc1 Hc2 p. split.
  - intros cfg Hcfg.
    rewrite (run_cons _ _ _ _ (step_Call a now1 s0 Ha)).
    rewrite getToken_call_start, (arrow_start_config _ _ _ cfg) by assumption.
    fold p.
    erewrite run_cons; cycle 1.
    { apply step_Call. simpl. rewrite lookup_insert_ne by done. exact Hb. }
    rewrite (getToken_call_join b now2 _ p); cycle 1.
    { eapply cache_hit_None_later; [| |exact Hc2]; [reflexivity|lia]. }
    { reflexivity. }
    erewrite run_cons; cycle 1.
    { apply step_MintSettles. simpl. apply lookup_insert_eq. }
    erewrite run_cons; cycle 1.
    { apply step_Resume with (p := p).
      - rewrite arrow_resume_calls. simpl.
        rewrite lookup_insert_ne by done. apply lookup_insert_eq.
      - rewrite arrow_resume_promises. simpl.
        unfold p. rewrite insert_last. apply lookup_last. }
    eexists. split; [reflexivity|].
    unfold result. simpl.
    rewrite arrow_resume_mints, arrow_resume_calls, arrow_resume_promises.
    simpl. rewrite lookup_insert_eq, lookup_insert_ne by done.
    rewrite lookup_insert_eq. unfold p. rewrite insert_last, lookup_last. auto.
  - intros Hcfg.
    rewrite (run_cons _ _ _ _ (step_Call a now1 s0 Ha)).
    rewrite getToken_call_start, arrow_start_no_config by assumption.
    fold p.
    erewrite run_cons; cycle 1.
    { apply step_Call. simpl. rewrite lookup_insert_ne by done. exact Hb. }
    rewrite (getToken_call_join b now2 _ p); cycle 1.
    { eapply cache_hit_None_later; [| |exact Hc2]; [reflexivity|lia]. }
    { reflexivity. }
    erewrite run_cons; cycle 1.
    { apply step_Resume with (p := p); simpl.
      - rewrite lookup_insert_ne by done. apply lookup_insert_eq.
      - apply lookup_last. }
    eexists. split; [reflexivity|].
    unfold result. simpl.
    rewrite lookup_insert_eq, lookup_insert_ne by done.
    rewrite lookup_insert_eq. unfold p. rewrite lookup_last. auto.
Qed.

(** When reading the configuration throws, all that can happen after the
    two invocations, short of further invocations, is that [a] runs on. *)
Lemma schedule_without_config (s0 : provider) (a b : nat) (now1 : Z)
    (tr : list event) (s : provider) :
  a <> b -> Spec.quiescent s0 -> config s0 = None ->
  forallb (fun e => negb (Spec.is_call e)) tr = true ->
  run tr (Spec.after_two_calls s0 a b now1) = Some s ->
  let s2 := Spec.after_two_calls s0 a b now1 in
  (tr = [] /\ s = s2)
  \/ (tr = [Resume a] /\ s = getToken_resume a (Rejected ConfigError) s2).
Proof.
  intros Hab (Hidle & Hfr & Hcl) Hcfg Hnc Hrun s2.
  set (p := length (promises s0)).
  assert (Hs2 : s2 = set_call b (Follows p)
                       (set_call a (Awaits p)
                          (set_inFlight (Some p)
                             (set_promises
                                (promises s0 ++ [Settled (Rejected ConfigError)])
                                s0)))).
  { unfold s2, Spec.after_two_calls. fold p.
    rewrite (arrow_start_no_config _ _ _ Hcfg). reflexivity. }
  fold s2 in Hrun. clearbody s2. subst s2.
  destruct tr as [|e1 tr]; [left; split; [reflexivity|apply run_nil_inv, Hrun]|].
  right.
  apply run_cons_inv in Hrun as (s3 & Hstep & Hrun).
  simpl in Hnc. apply andb_true_iff in Hnc as [Hn1 Hnc].
  destruct e1 as [c now | q o | c]; [discriminate| |].
  { exfalso. revert Hstep. simpl. rewrite Hfr, lookup_empty. discriminate. }
  revert Hstep. simpl.
  destruct (decide (c = b)) as [->|?].
  { rewrite lookup_insert_eq. discriminate. }
  rewrite lookup_insert_ne by done.
  destruct (decide (c = a)) as [->|?]; cycle 1.
  { rewrite lookup_insert_ne by done.
    destruct (calls s0 !! c) as [act|] eqn:Hact; [|discriminate].
    destruct (Hcl c act Hact) as [r ->]. discriminate. }
  rewrite lookup_insert_eq. unfold p at 1. rewrite lookup_last.
  intros [= <-].
  destruct tr as [|e2 tr].
  { split; [reflexivity|]. apply run_nil_inv, Hrun. }
  exfalso.
  apply run_cons_inv in Hrun as (s4 & Hstep & _).
  simpl in Hnc. apply andb_true_iff in Hnc as [Hn2 _].
  destruct e2 as [c now | q o | c]; [discriminate| |]; revert Hstep; simpl.
  - rewrite Hfr, lookup_empty. discriminate.
  - destruct (decide (c = a)) as [->|?].
    { rewrite lookup_insert_eq. discriminate. }
    rewrite lookup_insert_ne by done.
    destruct (decide (c = b)) as [->|?].
    { rewrite lookup_insert_eq. discriminate. }
    rewrite lookup_insert_ne by done. rewrite lookup_insert_ne by done.
    destruct (calls s0 !! c) as [act|] eqn:Hact; [|discriminate].
    destruct (Hcl c act Hact) as [r ->]. discriminate.
Qed.

(** The amended C1.  Two callers [a] and [b] invoke [getToken], at times
    [now1] and [now2], on a quiescent provider with no cached credential
    valid at either time, [b] before anything else happens.
    - In every execution that continues from there without further
      invocations, [generateDeveloperToken] has been called exactly once
      if the configuration is at hand and not at all if reading it throws,
      and as soon as [a] has its result, [b] has the same result.
    - With the configuration at hand, for every outcome [o] of the mint
      the execution in which the mint settles and [a] runs on delivers to
      both callers the settlement of [o]: the one token when the mint
      succeeds, the one error when it fails.
    - When reading the configuration throws, both callers receive that
      error. *)
Theorem getToken_single_flight (s0 : provider) (a b : nat) (now1 now2 : Z) :
  a <> b -> calls s0 !! a = None -> calls s0 !! b = None ->
  Spec.quiescent s0 ->
  cache_hit now1 s0 = None -> cache_hit now2 s0 = None ->
  let p := length (promises s0) in
  (forall (tr : list event) (s : provider),
     forallb (fun e => negb (Spec.is_call e)) tr = true ->
     run (Call a now1 :: Call b now2 :: tr) s0 = Some s ->
     mints s = match config s0 with
               | Some _ => S (mints s0)
               | None => mints s0
               end
     /\ forall ra, result s a = Some ra -> result s b = Some ra)
  /\ (forall cfg o, config s0 = Some cfg ->
     exists s,
       run [Call a now1; Call b now2; MintSettles p o; Resume a] s0 = Some s
       /\ mints s = S (mints s0)
       /\ result s a = Some (settlement_of o)
       /\ result s b = Some (settlement_of o))
  /\ (config s0 = None ->
     exists s,
       run [Call a now1; Call b now2; Resume a] s0 = Some s
       /\ mints s = mints s0
       /\ result s a = Some (Rejected ConfigError)
       /\ result s b = Some (Rejected ConfigError)).
Proof.
  intros Hab Ha Hb Hq Hc1 Hc2 p.
  assert (Hidle : inFlight s0 = None) by apply Hq.
  split.
  - intros tr s Hnc Hrun.
    rewrite run_two_calls in Hrun by assumption.
    destruct (config s0) as [cfg|] eqn:Hcfg.
    + destruct (schedule_with_config s0 a b now1 cfg tr s Hab Hq Hcfg Hnc Hrun)
        as [[_ ->] | [(o & _ & ->) | (o & _ & ->)]];
        unfold Spec.after_two_calls;
        rewrite (arrow_start_config _ _ _ cfg Hcfg); fold p.
      * split; [reflexivity|]. unfold result. simpl.
        rewrite lookup_insert_ne by done. rewrite lookup_insert_eq. discriminate.
      * split; [apply arrow_resume_mints|]. unfold result.
        rewrite arrow_resume_calls. simpl.
        rewrite lookup_insert_ne by done. rewrite lookup_insert_eq. discriminate.
      * split; [simpl; apply arrow_resume_mints|]. unfold result. simpl.
        rewrite arrow_resume_calls, arrow_resume_promises. simpl.
        rewrite lookup_insert_eq, lookup_insert_ne by done.
        rewrite lookup_insert_eq. unfold p. rewrite insert_last, lookup_last.
        auto.
    + destruct (schedule_without_config s0 a b now1 tr s Hab Hq Hcfg Hnc Hrun)
        as [[_ ->] | [_ ->]];
        unfold Spec.after_two_calls;
        rewrite (arrow_start_no_config _ _ _ Hcfg); fold p.
      * split; [reflexivity|]. unfold result. simpl.
        rewrite lookup_insert_ne by done. rewrite lookup_insert_eq. discriminate.
      * split; [reflexivity|]. unfold result. simpl.
        rewrite lookup_insert_eq, lookup_insert_ne by done.
        rewrite lookup_insert_eq. unfold p. rewrite lookup_last. auto.
  - split.
    + intros cfg o Hcfg.
      apply (proj1 (single_flight_delivers s0 a b now1 now2 o
                      Hab Ha Hb Hidle Hc1 Hc2) cfg Hcfg).
    + apply (proj2 (single_flight_delivers s0 a b now1 now2 (MintFail "")
                      Hab Ha Hb Hidle Hc1 Hc2)).
Qed.

Lemma getToken_single_flight_witness :
  exists s,
    run [Call 0 1000; Call 1 1001; MintSettles 0 (MintOk "jwt" (Some 87400));
         Resume 0]
        (createDeveloperTokenProvider (Some (mkConfig "T1" "K1" "pem" None)))
    = Some s
    /\ mints s = 1%nat
    /\ result s 0%nat = Some (Fulfilled "jwt")
    /\ result s 1%nat = Some (Fulfilled "jwt").
Proof.
  assert (Hq : Spec.quiescent
                 (createDeveloperTokenProvider
                    (Some (mkConfig "T1" "K1" "pem" None)))).
  { split; [reflexivity|]. split; [reflexivity|].
    intros c act H. simpl in H. rewrite lookup_empty in H. discriminate. }
  refine (proj1 (proj2 (getToken_single_flight
                          (createDeveloperTokenProvider
                             (Some (mkConfig "T1" "K1" "pem" None)))
                          0 1 1000 1001 _ _ _ Hq _ _))
                (mkConfig "T1" "K1" "pem" None)
                (MintOk "jwt" (Some 87400)) eq_refl);
    [lia | reflexivity | reflexivity | reflexivity | reflexivity].
Defined.

(** C1 as stated fails when no token can be minted.  Without a
    configuration two concurrent callers cause no call of
    [generateDeveloperToken] and receive an error; with a configuration and
    a failing mint they cause one call and both receive its error. *)
Lemma getToken_concurrent_callers_without_token :
  (exists s,
     run [Call 0 1000; Call 1 1000; Resume 0] (createDeveloperTokenProvider None)
     = Some s
     /\ mints s = 0%nat
     /\ result s 0%nat = Some (Rejected ConfigError)
     /\ result s 1%nat = Some (Rejected ConfigError))
  /\ (exists s,
     run [Call 0 1000; Call 1 1000; MintSettles 0 (MintFail "bad key"); Resume 0]
         (createDeveloperTokenProvider (Some (mkConfig "T1" "K1" "pem" None)))
     = Some s
     /\ mints s = 1%nat
     /\ result s 0%nat = Some (Rejected (MintError "bad key"))
     /\ result s 1%nat = Some (Rejected (MintError "bad key"))).
Proof. split; eexists; vm_compute; repeat split. Qed.

Lemma getToken_cache_decision_witness :
  (let s := set_cached (Some (mkCached "jwt" 87400))
              (createDeveloperTokenProvider None) in
   result (getToken_call 0 1000 s) 0%nat = Some (Fulfilled "jwt")
   /\ mints (getToken_call 0 1000 s) = 0%nat)
  /\ (let s := createDeveloperTokenProvider (Some (mkConfig "T1" "K1" "pem" None)) in
      mints (getToken_call 0 1000 s) = 1%nat).
Proof.
  split.
  - pose proof (proj1 (getToken_cache_decision
                         (set_cached (Some (mkCached "jwt" 87400))
                                     (createDeveloperTokenProvider None))
                         0 1000) (mkCached "jwt" 87400) eq_refl) as H.
    simpl in H. split; apply H; lia.
  - pose proof (proj2 (getToken_cache_decision
                         (createDeveloperTokenProvider
                            (Some (mkConfig "T1" "K1" "pem" None)))
                         0 1000) (or_introl eq_refl)) as H.
    apply H; [reflexivity | eexists; reflexivity].
Defined.

(** C3 as stated fails while a mint is in flight: with nothing cached, the
    second of two calls starts no mint. *)
Lemma getToken_joins_without_minting :
  let s1 := getToken_call 0 1000
              (createDeveloperTokenProvider (Some (mkConfig "T1" "K1" "pem" None))) in
  cached s1 = None
  /\ mints s1 = 1%nat
  /\ mints (getToken_call 1 1000 s1) = 1%nat
  /\ calls (getToken_call 1 1000 s1) !! 1%nat = Some (Follows 0).
Proof. vm_compute. repeat split. Qed.

(** The failure of [generateDeveloperToken]. *)
Lemma getToken_generate_failure (s0 : provider) (a : nat) (now : Z)
    (msg : string) (cfg : AppleMusicAuthConfig) :
  calls s0 !! a = None -> inFlight s0 = None ->
  cache_hit now s0 = None -> config s0 = Some cfg ->
  let p := length (promises s0) in
  exists s,
    run [Call a now; MintSettles p (MintFail msg); Resume a] s0 = Some s
    /\ result s a = Some (Rejected (MintError msg))
    /\ cached s = cached s0
    /\ inFlight s = None
    /\ forall (c : nat) (now' : Z),
         now <= now' ->
         let s' := getToken_call c now' s in
         let p' := length (promises s) in
         p' <> p
         /\ mints s' = S (mints s)
         /\ inFlight s' = Some p'
         /\ promises s' !! p' = Some Pending
         /\ calls s' !! c = Some (Awaits p').
Proof.
  intros Ha Hidle Hc Hcfg p.
  rewrite (run_cons _ _ _ _ (step_Call a now s0 Ha)).
  rewrite getToken_call_start, (arrow_start_config _ _ _ cfg) by assumption.
  fold p.
  erewrite run_cons; cycle 1.
  { apply step_MintSettles. simpl. apply lookup_insert_eq. }
  erewrite run_cons; cycle 1.
  { apply step_Resume with (p := p); simpl.
    - apply lookup_insert_eq.
    - unfold p. rewrite insert_last. apply lookup_last. }
  eexists. split; [reflexivity|].
  split; [unfold result; simpl; rewrite lookup_insert_eq; reflexivity|].
  do 2 (split; [reflexivity|]).
  intros c now' Hle.
  match goal with |- context [getToken_call c now' ?s] => set (s2 := s) in * end.
  intros s' p'.
  assert (Hstale : cache_hit now' s2 = None).
  { eapply cache_hit_None_later; [| exact Hle | exact Hc]. reflexivity. }
  assert (Hlen : p' = S p).
  { unfold p', s2. simpl. rewrite length_insert, length_app. simpl. lia. }
  destruct (getToken_call_starts_mint c now' s2 cfg Hstale eq_refl Hcfg)
    as (Hm & Hi & Hp & Hcl).
  split; [lia|]. auto.
Qed.

(** The failure of reading the configuration. *)
Lemma getToken_config_failure (s0 : provider) (a : nat) (now : Z) :
  calls s0 !! a = None -> inFlight s0 = None ->
  cache_hit now s0 = None -> config s0 = None ->
  let p := length (promises s0) in
  exists s,
    run [Call a now; Resume a] s0 = Some s
    /\ result s a = Some (Rejected ConfigError)
    /\ cached s = cached s0
    /\ inFlight s = None
    /\ mints s = mints s0
    /\ forall (c : nat) (now' : Z),
         now <= now' ->
         let s' := getToken_call c now' s in
         let p' := length (promises s) in
         p' <> p
         /\ inFlight s' = Some p'
         /\ calls s' !! c = Some (Awaits p').
Proof.
  intros Ha Hidle Hc Hcfg p.
  rewrite (run_cons _ _ _ _ (step_Call a now s0 Ha)).
  rewrite getToken_call_start, arrow_start_no_config by assumption.
  fold p.
  erewrite run_cons; cycle 1.
  { apply step_Resume with (p := p); simpl.
    - apply lookup_insert_eq.
    - apply lookup_last. }
  eexists. split; [reflexivity|].
  split; [unfold result; simpl; rewrite lookup_insert_eq; reflexivity|].
  do 3 (split; [reflexivity|]).
  intros c now' Hle.
  match goal with |- context [getToken_call c now' ?s] => set (s2 := s) in * end.
  intros s' p'.
  assert (Hstale : cache_hit now' s2 = None).
  { eapply cache_hit_None_later; [| exact Hle | exact Hc]. reflexivity. }
  assert (Hlen : p' = S p).
  { unfold p', s2. simpl. rewrite length_app. simpl. lia. }
  unfold s'. rewrite getToken_call_start by (exact Hstale || reflexivity).
  fold p'. simpl. rewrite lookup_insert_eq.
  split; [lia|]. auto.
Qed.

(** C4.  A caller [a] invokes [getToken] at time [now] on a provider with
    no mint in flight and no cached credential valid at [now], and the
    mint it starts fails: [generateDeveloperToken] rejects with [msg], or
    reading the configuration throws.  Then the call runs to its end, the
    caller receives that error, the cache is what it was before the call,
    and the in-flight slot is empty when the call returns.  Any later
    call, at a time [now'] not before [now], starts an attempt of its own
    behind a new promise [p'], which the slot holds and the caller awaits;
    with the configuration at hand that is a new call of
    [generateDeveloperToken] and the promise is pending. *)
Theorem getToken_mint_failure (s0 : provider) (a : nat) (now : Z) :
  calls s0 !! a = None -> inFlight s0 = None -> cache_hit now s0 = None ->
  let p := length (promises s0) in
  (forall cfg msg,
     config s0 = Some cfg ->
     exists s,
       run [Call a now; MintSettles p (MintFail msg); Resume a] s0 = Some s
       /\ result s a = Some (Rejected (MintError msg))
       /\ cached s = cached s0
       /\ inFlight s = None
       /\ forall (c : nat) (now' : Z),
            now <= now' ->
            let s' := getToken_call c now' s in
            let p' := length (promises s) in
            p' <> p
            /\ mints s' = S (mints s)
            /\ inFlight s' = Some p'
            /\ promises s' !! p' = Some Pending
            /\ calls s' !! c = Some (Awaits p'))
  /\ (config s0 = None ->
      exists s,
        run [Call a now; Resume a] s0 = Some s
        /\ result s a = Some (Rejected ConfigError)
        /\ cached s = cached s0
        /\ inFlight s = None
        /\ mints s = mints s0
        /\ forall (c : nat) (now' : Z),
             now <= now' ->
             let s' := getToken_call c now' s in
             let p' := length (promises s) in
             p' <> p
             /\ inFlight s' = Some p'
             /\ calls s' !! c = Some (Awaits p')).
Proof.
  intros Ha Hidle Hc p. split.
  - intros cfg msg Hcfg.
    apply (getToken_generate_failure s0 a now msg cfg); assumption.
  - intros Hcfg. apply getToken_config_failure; assumption.
Qed.

Lemma getToken_mint_failure_witness :
  exists s,
    run [Call 0 1000; MintSettles 0 (MintFail "bad key"); Resume 0]
        (createDeveloperTokenProvider (Some (mkConfig "T1" "K1" "pem" None)))
    = Some s
    /\ result s 0%nat = Some (Rejected (MintError "bad key"))
    /\ cached s = None
    /\ inFlight s = None
    /\ mints (getToken_call 1 1002 s) = S (mints s).
Proof.
  destruct (proj1 (getToken_mint_failure
                     (createDeveloperTokenProvider
                        (Some (mkConfig "T1" "K1" "pem" None)))
                     0 1000 eq_refl eq_refl eq_refl)
                  (mkConfig "T1" "K1" "pem" None) "bad key" eq_refl)
    as (s & Hrun & Hres & Hcache & Hidle & Hnext).
  exists s. repeat split; try assumption.
  apply (Hnext 1%nat 1002). lia.
Defined.

End Provider.

(** ** The user-credential store of the OAuth server *)

Section UserTokens.
Import OAuthServer.

(** The expiry [storeUserToken] records for a lifetime [ttl] at [now]. *)
Lemma storeUserToken_lookup (s t : string) (ttl : option Z) (now : Z) (st : store) :
  userTokens (storeUserToken s t ttl now st) !! s
  = Some (mkStored t
            match ttl with
            | Some n => if Z.eqb n 0 then None else Some (now + n * 1000)
            | None => None
            end).
Proof.
  unfold storeUserToken. simpl. rewrite lookup_insert_eq.
  destruct ttl as [n|]; [|reflexivity].
  unfold JS.truthy_num. destruct (Z.eqb n 0); reflexivity.
Qed.

Lemma storeUserToken_frame (s t : string) (ttl : option Z) (now : Z) (st : store) :
  (forall s', s' <> s ->
     userTokens (storeUserToken s t ttl now st) !! s' = userTokens st !! s')
  /\ pendingStates (storeUserToken s t ttl now st) = pendingStates st.
Proof.
  split; [|reflexivity]. intros s' Hne. unfold storeUserToken. simpl.
  apply lookup_insert_ne. congruence.
Qed.

(** A record without expiry, or whose expiry has not passed, is served and
    the store is left as it is. *)
Lemma getStoredUserToken_live (s t : string) (e : option Z) (now : Z) (st : store) :
  s <> "" -> userTokens st !! s = Some (mkStored t e) ->
  (e = None \/ exists x, e = Some x /\ now <= x) ->
  getStoredUserToken (Some s) now st = (Some t, st).
Proof.
  intros Hs Hrec He. unfold getStoredUserToken. simpl.
  apply truthy_true in Hs. rewrite Hs, Hrec. simpl.
  destruct He as [-> | (x & -> & Hx)]; [reflexivity|].
  destruct (Z.ltb_spec x now); [lia|]. rewrite andb_false_r. reflexivity.
Qed.

(** A record whose expiry, not zero, has passed is evicted and not served. *)
Lemma getStoredUserToken_expired (s t : string) (x now : Z) (st : store) :
  s <> "" -> userTokens st !! s = Some (mkStored t (Some x)) ->
  x <> 0 -> x < now ->
  getStoredUserToken (Some s) now st
  = (None, mkStore (pendingStates st) (delete s (userTokens st))).
Proof.
  intros Hs Hrec Hx0 Hx. unfold getStoredUserToken. simpl.
  apply truthy_true in Hs. rewrite Hs, Hrec. simpl.
  unfold JS.truthy_num. destruct (Z.eqb_spec x 0); [contradiction|].
  destruct (Z.ltb_spec x now); [reflexivity|lia].
Qed.

Lemma getStoredUserToken_absent (sid : option string) (now : Z) (st : store) :
  (forall s, sid = Some s -> s <> "" -> userTokens st !! s = None) ->
  getStoredUserToken sid now st = (None, st).
Proof.
  intros H. unfold getStoredUserToken.
  destruct sid as [s|]; [|reflexivity]. simpl.
  destruct (JS.truthy s) eqn:Hs; [|reflexivity]. simpl.
  rewrite (H s eq_refl) by (apply truthy_true; exact Hs). reflexivity.
Qed.

(** The amended C7.  For a session id [s], a token [t] and an optional
    lifetime [ttl], [storeUserToken] at time [now] replaces whatever the
    store held for [s] by the record of [t], with expiry
    [now + 1000 * ttl] (milliseconds) when [ttl] is given and is not [0],
    and without expiry when [ttl] is absent or [0]; no other record
    changes.  For a non-empty [s] whose record is present,
    [getStoredUserToken] serves the token while the expiry is absent or not
    before the clock, leaving the store as it is; once an expiry other than
    [0] is before the clock it answers absent and deletes the record, and a
    second lookup answers absent again, with no further change.  For the
    empty session id, and for none, it answers absent whatever the store
    holds. *)
Theorem user_token_store_spec (s t : string) (ttl : option Z) (now : Z)
    (st : store) :
  let e := match ttl with
           | Some n => if Z.eqb n 0 then None else Some (now + n * 1000)
           | None => None
           end in
  let st1 := storeUserToken s t ttl now st in
  userTokens st1 = <[s := mkStored t e]> (userTokens st)
  /\ pendingStates st1 = pendingStates st
  /\ (s <> "" ->
      forall later : Z,
        ((e = None \/ exists x, e = Some x /\ later <= x) ->
           getStoredUserToken (Some s) later st1 = (Some t, st1))
        /\ (forall x, e = Some x -> x <> 0 -> x < later ->
              exists st2,
                getStoredUserToken (Some s) later st1 = (None, st2)
                /\ userTokens st2 = delete s (userTokens st1)
                /\ pendingStates st2 = pendingStates st1
                /\ forall later', getStoredUserToken (Some s) later' st2
                                  = (None, st2)))
  /\ (forall (later : Z) (st0 : store),
        getStoredUserToken (Some "") later st0 = (None, st0)
        /\ getStoredUserToken None later st0 = (None, st0)).
Proof.
  intros e st1.
  assert (Hrec : userTokens st1 !! s = Some (mkStored t e))
    by apply storeUserToken_lookup.
  split; [|split; [reflexivity|split; [|split; reflexivity]]].
  - unfold st1, storeUserToken. simpl. f_equal. f_equal. unfold e.
    destruct ttl as [n|]; [|reflexivity].
    unfold JS.truthy_num. destruct (Z.eqb n 0); reflexivity.
  - intros Hs later. split.
    + intros He. apply (getStoredUserToken_live s t e); assumption.
    + intros x He Hx0 Hx. rewrite He in Hrec.
      eexists. split; [apply (getStoredUserToken_expired s t x); assumption|].
      split; [reflexivity|]. split; [reflexivity|].
      intros later'. apply getStoredUserToken_absent.
      intros s0 [= <-] _. simpl. apply lookup_delete_eq.
Qed.

Lemma user_token_store_spec_witness :
  let st1 := storeUserToken "sess" "tok" (Some 1) 5000 (mkStore ∅ ∅) in
  getStoredUserToken (Some "sess") 5500 st1 = (Some "tok", st1)
  /\ exists st2,
       getStoredUserToken (Some "sess") 6001 st1 = (None, st2)
       /\ userTokens st2 = delete "sess" (userTokens st1)
       /\ getStoredUserToken (Some "sess") 6002 st2 = (None, st2).
Proof.
  pose proof (user_token_store_spec "sess" "tok" (Some 1) 5000 (mkStore ∅ ∅))
    as (_ & _ & H & _).
  assert (Hs : "sess" <> "") by discriminate.
  split.
  - apply (H Hs 5500). right. exists 6000. split; [reflexivity|lia].
  - destruct (proj2 (H Hs 6001) 6000 eq_refl) as (st2 & H1 & H2 & _ & H3);
      [lia | lia |].
    exists st2. auto.
Defined.

(** C7 as stated fails at a lifetime of [0], which is given and yet
    records no expiry, so that the record is served at any later time; and
    at the empty session id, whose record is stored but never served. *)
Lemma storeUserToken_zero_ttl_never_expires :
  let st1 := storeUserToken "sess" "tok" (Some 0) 5000 (mkStore ∅ ∅) in
  let st2 := storeUserToken "" "tok" None 5000 (mkStore ∅ ∅) in
  userTokens st1 !! "sess" = Some (mkStored "tok" None)
  /\ getStoredUserToken (Some "sess") 999999999 st1 = (Some "tok", st1)
  /\ userTokens st2 !! "" = Some (mkStored "tok" None)
  /\ getStoredUserToken (Some "") 5000 st2 = (None, st2).
Proof. vm_compute. repeat split. Qed.

End UserTokens.

(** ** The token exchange *)

Section TokenExchange.
Import Http.

(** C8.  A token-exchange request whose [grant_type] is absent or is any
    string but [authorization_code] is answered with status 400 and the
    error [invalid_request], by the handler of [oauthToken.js], which then
    returns the stores exactly as it found them, and by the stateless
    handler of [client.ts], which has no store to write. *)
Theorem token_exchange_rejects_other_grants (params : list (string * string))
    (uuid : string) (now : Z) (st : OAuthServer.store) :
  JS.params_get "grant_type" params <> Some "authorization_code" ->
  OAuthToken.handleOAuthToken params uuid now st
  = (TokenError 400 "invalid_request", st)
  /\ Client.handleOAuthToken params = TokenError 400 "invalid_request".
Proof.
  intros Hg. unfold OAuthToken.handleOAuthToken, Client.handleOAuthToken.
  destruct (JS.params_get "grant_type" params) as [g|]; [|auto].
  destruct (JS.params_get "code" params) as [code|]; [|auto].
  destruct (String.eqb_spec g "authorization_code") as [->|Hne];
    [congruence|]. auto.
Qed.

Lemma token_exchange_rejects_other_grants_witness :
  let st := OAuthServer.storeUserToken "sess" "tok" None 0
              (OAuthServer.mkStore ∅ ∅) in
  OAuthToken.handleOAuthToken
    [("grant_type", "client_credentials"); ("code", "abc")] "uuid" 7 st
  = (TokenError 400 "invalid_request", st)
  /\ Client.handleOAuthToken
       [("grant_type", "client_credentials"); ("code", "abc")]
     = TokenError 400 "invalid_request".
Proof.
  apply (token_exchange_rejects_other_grants
           [("grant_type", "client_credentials"); ("code", "abc")]).
  simpl. discriminate.
Defined.

(** With the right grant type and a code the session-tracking handler does
    write the store: the rejection above is what keeps it unchanged. *)
Example token_exchange_grant_writes :
  OAuthServer.userTokens
    (OAuthToken.handleOAuthToken
       [("grant_type", "authorization_code"); ("code", "abc")] "uuid" 7
       (OAuthServer.mkStore ∅ ∅)).2 !! "uuid"
  = Some (OAuthServer.mkStored "abc" (Some 7776000007)).
Proof. vm_compute. reflexivity. Qed.

End TokenExchange.

(** ** The OAuth callback *)

Section Callback.
Import Http.
Variable URL_new : string -> option JS.URL.

Lemma params_get_remove_ne (k k' : string) (ps : list (string * string)) :
  k' <> k -> JS.params_get k' (JS.params_remove k ps) = JS.params_get k' ps.
Proof.
  intros Hne. induction ps as [|[a v] ps IH]; simpl; [reflexivity|].
  destruct (String.eqb_spec a k) as [->|Ha]; simpl.
  - destruct (String.eqb_spec k k'); [congruence|exact IH].
  - destruct (String.eqb_spec a k'); [reflexivity|exact IH].
Qed.

Lemma params_get_set_eq (k v : string) (ps : list (string * string)) :
  JS.params_get k (JS.params_set k v ps) = Some v.
Proof.
  induction ps as [|[a w] ps IH]; simpl.
  - rewrite String.eqb_refl. reflexivity.
  - destruct (String.eqb_spec a k) as [->|Ha]; simpl.
    + rewrite String.eqb_refl. reflexivity.
    + destruct (String.eqb_spec a k); [contradiction|exact IH].
Qed.

Lemma params_get_set_ne (k k' v : string) (ps : list (string * string)) :
  k' <> k -> JS.params_get k' (JS.params_set k v ps) = JS.params_get k' ps.
Proof.
  intros Hne. induction ps as [|[a w] ps IH]; simpl.
  - destruct (String.eqb_spec k k'); [congruence|reflexivity].
  - destruct (String.eqb_spec a k) as [->|Ha]; simpl.
    + destruct (String.eqb_spec k k'); [congruence|].
      apply params_get_remove_ne, Hne.
    + destruct (String.eqb_spec a k'); [reflexivity|exact IH].
Qed.

(** The redirect both handlers build: the parsed target with [code] and
    [state] set in its query. *)
Lemma redirect_query (u : JS.URL) (code state : string) :
  let loc := JS.url_set "state" state (JS.url_set "code" code u) in
  JS.url_base loc = JS.url_base u
  /\ JS.params_get "code" (JS.searchParams loc) = Some code
  /\ JS.params_get "state" (JS.searchParams loc) = Some state.
Proof.
  simpl. split; [reflexivity|]. split.
  - rewrite params_get_set_ne by discriminate. apply params_get_set_eq.
  - apply params_get_set_eq.
Qed.

(** The periodic sweep keeps exactly the entries whose expiry is not before
    the time of the sweep. *)
Lemma sweep_lookup (now : Z) (st : OAuthServer.store) (state : string)
    (d : OAuthServer.PendingState) :
  OAuthServer.pendingStates (OAuthServer.sweep now st) !! state = Some d
  <-> OAuthServer.pendingStates st !! state = Some d
      /\ now <= OAuthServer.ps_expiresAt d.
Proof.
  unfold OAuthServer.sweep. simpl. rewrite map_lookup_filter_Some. simpl.
  split; intros [H1 H2]; (split; [exact H1|lia]).
Qed.

(** What a redirect of the session-tracking callback presupposes. *)
Lemma callback_redirect_inv (params : list (string * string)) (uuid : string)
    (now : Z) (st st' : OAuthServer.store) (loc : JS.URL) :
  OAuthServer.handleOAuthCallback URL_new params uuid now st = (Redirect loc, st') ->
  exists tok state d u,
    JS.params_get "music_user_token" params = Some tok /\ tok <> ""
    /\ JS.params_get "state" params = Some state /\ state <> ""
    /\ OAuthServer.pendingStates st !! state = Some d
    /\ URL_new (OAuthServer.redirectUri d) = Some u
    /\ loc = JS.url_set "state" state (JS.url_set "code" tok u)
    /\ st' = OAuthServer.storeUserToken uuid tok None now
               (OAuthServer.mkStore
                  (delete state (OAuthServer.pendingStates st))
                  (OAuthServer.userTokens st)).
Proof.
  unfold OAuthServer.handleOAuthCallback.
  destruct (JS.params_get "music_user_token" params) as [tok|]; [|discriminate].
  destruct (JS.params_get "state" params) as [state|]; [|discriminate].
  destruct (JS.truthy tok) eqn:Ht; simpl; [|discriminate].
  destruct (JS.truthy state) eqn:Hs; simpl; [|discriminate].
  destruct (OAuthServer.pendingStates st !! state) as [d|] eqn:Hd; [|discriminate].
  destruct (URL_new (OAuthServer.redirectUri d)) as [u|] eqn:Hu; [|discriminate].
  intros [= <- <-]. exists tok, state, d, u.
  rewrite <- !truthy_true. auto 10.
Qed.

(** A callback whose state is not in the store is answered 400 and leaves
    the stores as they are. *)
Lemma callback_unknown_state (params : list (string * string)) (uuid : string)
    (now : Z) (st : OAuthServer.store) (state : string) :
  JS.params_get "state" params = Some state ->
  OAuthServer.pendingStates st !! state = None ->
  exists msg,
    OAuthServer.handleOAuthCallback URL_new params uuid now st
    = (PlainText 400 msg, st).
Proof.
  intros Hs Hd. unfold OAuthServer.handleOAuthCallback. rewrite Hs.
  destruct (JS.params_get "music_user_token" params) as [tok|]; [|eauto].
  destruct (negb (JS.truthy tok) || negb (JS.truthy state)); [eauto|].
  rewrite Hd. eauto.
Qed.

(** What a redirect of the stateless callback presupposes, and conversely. *)
Lemma stateless_callback_redirect (params : list (string * string)) (loc : JS.URL) :
  Client.handleOAuthCallback URL_new params = Redirect loc
  <-> exists tok state r u,
        JS.params_get "music_user_token" params = Some tok /\ tok <> ""
        /\ JS.params_get "state" params = Some state /\ state <> ""
        /\ JS.params_get "redirect_uri" params = Some r /\ r <> ""
        /\ URL_new r = Some u
        /\ loc = JS.url_set "state" state (JS.url_set "code" tok u).
Proof.
  unfold Client.handleOAuthCallback. split.
  - destruct (JS.params_get "music_user_token" params) as [tok|]; [|discriminate].
    destruct (JS.params_get "state" params) as [state|]; [|discriminate].
    destruct (JS.params_get "redirect_uri" params) as [r|]; [|discriminate].
    destruct (JS.truthy tok) eqn:Ht; simpl; [|discriminate].
    destruct (JS.truthy state) eqn:Hs; simpl; [|discriminate].
    destruct (JS.truthy r) eqn:Hr; simpl; [|discriminate].
    destruct (URL_new r) as [u|] eqn:Hu; [|discriminate].
    intros [= <-]. exists tok, state, r, u. rewrite <- !truthy_true. auto 10.
  - intros (tok & state & r & u & -> & Ht & -> & Hs & -> & Hr & Hu & ->).
    apply truthy_true in Ht, Hs, Hr. rewrite Ht, Hs, Hr, Hu. reflexivity.
Qed.

(** The amended C2.
    - The callback of [oauthServer.ts] issues its redirect only if the
      presented state is in the pending-state store; the redirect then goes
      to the recorded target with [code], the presented user token, and
      [state], the presented state, in its query; the entry is deleted, and
      any further callback presenting that state is answered 400 and
      changes nothing.  Whether the entry's expiry has passed is not looked
      at by the callback.
    - Entries leave the store otherwise only by the periodic sweep, which
      keeps exactly those whose expiry is not before the time of the sweep.
    - The stateless callback of [client.ts] keeps no pending-state store:
      it redirects exactly when user token, state and redirect target are
      all present and non-empty in the request (and the target parses), to
      the target the request itself names. *)
Theorem oauth_callback_spec (params : list (string * string)) (uuid : string)
    (now : Z) (st st' : OAuthServer.store) (loc : JS.URL) :
  (OAuthServer.handleOAuthCallback URL_new params uuid now st = (Redirect loc, st') ->
   exists tok state d u,
     JS.params_get "music_user_token" params = Some tok
     /\ JS.params_get "state" params = Some state
     /\ OAuthServer.pendingStates st !! state = Some d
     /\ URL_new (OAuthServer.redirectUri d) = Some u
     /\ JS.url_base loc = JS.url_base u
     /\ JS.params_get "code" (JS.searchParams loc) = Some tok
     /\ JS.params_get "state" (JS.searchParams loc) = Some state
     /\ OAuthServer.pendingStates st' = delete state (OAuthServer.pendingStates st)
     /\ forall params' uuid' now',
          JS.params_get "state" params' = Some state ->
          exists msg,
            OAuthServer.handleOAuthCallback URL_new params' uuid' now' st'
            = (PlainText 400 msg, st'))
  /\ (forall t state d,
        OAuthServer.pendingStates (OAuthServer.sweep t st) !! state = Some d
        <-> OAuthServer.pendingStates st !! state = Some d
            /\ t <= OAuthServer.ps_expiresAt d)
  /\ (Client.handleOAuthCallback URL_new params = Redirect loc
      <-> exists tok state r u,
            JS.params_get "music_user_token" params = Some tok /\ tok <> ""
            /\ JS.params_get "state" params = Some state /\ state <> ""
            /\ JS.params_get "redirect_uri" params = Some r /\ r <> ""
            /\ URL_new r = Some u
            /\ loc = JS.url_set "state" state (JS.url_set "code" tok u)).
Proof.
  split; [|split].
  - intros H. apply callback_redirect_inv in H
      as (tok & state & d & u & Ht & _ & Hs & _ & Hd & Hu & -> & ->).
    exists tok, state, d, u.
    destruct (redirect_query u tok state) as (Hb & Hc & Hq).
    do 7 (split; [assumption || reflexivity|]).
    split; [reflexivity|].
    intros params' uuid' now' Hs'.
    apply (callback_unknown_state params' uuid' now' _ state Hs').
    simpl. apply lookup_delete_eq.
  - intros t state d. apply sweep_lookup.
  - apply stateless_callback_redirect.
Qed.

End Callback.

Lemma oauth_callback_spec_witness :
  let url := fun s => Some (JS.mkURL s []) in
  let st := OAuthServer.mkStore
              {[ "S" := OAuthServer.mkPending "https://c.example/cb" 600000 ]} ∅ in
  let params := [("music_user_token", "T"); ("state", "S")] in
  exists loc st',
    OAuthServer.handleOAuthCallback url params "uuid" 1000 st
    = (Http.Redirect loc, st')
    /\ JS.url_base loc = "https://c.example/cb"
    /\ JS.params_get "code" (JS.searchParams loc) = Some "T"
    /\ JS.params_get "state" (JS.searchParams loc) = Some "S"
    /\ OAuthServer.pendingStates st' !! "S" = None
    /\ exists msg,
         OAuthServer.handleOAuthCallback url params "uuid2" 2000 st'
         = (Http.PlainText 400 msg, st').
Proof.
  intros url st params.
  destruct (OAuthServer.handleOAuthCallback url params "uuid" 1000 st)
    as [o st'] eqn:E.
  vm_compute in E. injection E as <- <-. do 2 eexists.
  split; [reflexivity|].
  destruct (proj1 (oauth_callback_spec url params "uuid" 1000 st _ _) eq_refl)
    as (tok & state & d & u & Ht & Hs & Hd & Hu & Hb & Hc & Hq & Hdel & Hrep).
  injection Ht as <-. injection Hs as <-.
  vm_compute in Hd. injection Hd as <-. injection Hu as <-.
  split; [exact Hb|]. split; [exact Hc|]. split; [exact Hq|].
  split; [reflexivity|].
  apply (Hrep params "uuid2" 2000). reflexivity.
Defined.

(** C2 as stated fails in two ways.  The callback of [oauthServer.ts] does
    not look at the expiry: an entry recorded at time 0, which expires at
    600000 and survives the sweep of that instant, is honoured at 600001.
    The stateless callback of [client.ts], a function of the request alone,
    answers the same callback with the same redirect however often it is
    presented. *)
Lemma oauth_callback_expired_or_replayed :
  let url := fun s => Some (JS.mkURL s []) in
  (exists st1,
     OAuthServer.authorize_record
       [("redirect_uri", "https://c.example/cb"); ("state", "S")] 0
       (OAuthServer.mkStore ∅ ∅) = Some st1
     /\ OAuthServer.pendingStates (OAuthServer.sweep 600000 st1) !! "S"
        = Some (OAuthServer.mkPending "https://c.example/cb" 600000)
     /\ (OAuthServer.handleOAuthCallback url
           [("music_user_token", "T"); ("state", "S")] "uuid" 600001
           (OAuthServer.sweep 600000 st1)).1
        = Http.Redirect
            (JS.mkURL "https://c.example/cb" [("code", "T"); ("state", "S")]))
  /\ Client.handleOAuthCallback url
       [("music_user_token", "T"); ("state", "S");
        ("redirect_uri", "https://c.example/cb")]
     = Http.Redirect
         (JS.mkURL "https://c.example/cb" [("code", "T"); ("state", "S")]).
Proof.
  split; [|reflexivity].
  eexists. split; [reflexivity|]. split; vm_compute; reflexivity.
Qed.

(** ** Binding of user credentials to sessions *)

Section SessionBinding.
Import Client.

(** The listener changes the stores only on its way to the transport, and
    gets there only with a non-empty Authorization header. *)
Lemma listener_state (req : request) (st : state) :
  ((listener req st).1 <> ToTransport /\ (listener req st).2 = st)
  \/ ((listener req st).1 = ToTransport
      /\ JS.truthy_opt (headers req !! "authorization") = true
      /\ (listener req st).2
         = bind_credentials (headers req !! "authorization")
                            (headers req !! "mcp-session-id") st).
Proof.
  unfold listener.
  repeat (match goal with
          | |- context [if ?b then _ else _] => destruct b eqn:?
          end; simpl; try (left; split; [discriminate|reflexivity])).
  right. repeat split.
  destruct (JS.truthy_opt (headers req !! "authorization")) eqn:Ht; [reflexivity|].
  exfalso.
  repeat match goal with
         | H : negb _ = false |- _ => apply negb_false_iff in H
         | H : _ && _ = false |- _ => apply andb_false_iff in H
         end.
  simpl in *. intuition congruence.
Qed.

(** A request for the MCP endpoint without Authorization header is answered
    401 and leaves the stores alone. *)
Lemma listener_unauthorized (req : request) (st : state) :
  pathname req = "/mcp" ->
  JS.truthy_opt (headers req !! "authorization") = false ->
  listener req st = (Unauthorized, st).
Proof.
  intros Hp Ha. unfold listener. rewrite Hp, Ha. reflexivity.
Qed.

(** The block of lines 716-739, case by case. *)
Lemma bind_credentials_bearer (h tok : string) (sid : option string) (st : state) :
  parseBearerToken (Some h) = Some tok -> tok <> "" ->
  bind_credentials (Some h) sid st
  = match sid with
    | Some s => if JS.truthy s
                then mkState (<[s := tok]> (sessionTokens st)) (Some tok)
                else mkState (sessionTokens st) (Some tok)
    | None => mkState (sessionTokens st) (Some tok)
    end.
Proof.
  intros Hp Ht. unfold bind_credentials.
  assert (Hh : JS.truthy_opt (Some h) = true).
  { simpl. destruct h; [discriminate|reflexivity]. }
  rewrite Hh, Hp. apply truthy_true in Ht. rewrite Ht.
  destruct sid as [s|]; reflexivity.
Qed.

Lemma bind_credentials_no_bearer (auth sid : option string) (st : state) :
  JS.truthy_opt auth = true ->
  parseBearerToken auth = None \/ parseBearerToken auth = Some "" ->
  bind_credentials auth sid st = st.
Proof.
  intros Ha Hp. unfold bind_credentials. rewrite Ha.
  destruct Hp as [-> | ->]; reflexivity.
Qed.

Lemma bind_credentials_pending (auth : option string) (sid pending : string)
    (st : state) :
  JS.truthy_opt auth = false -> sid <> "" -> pending <> "" ->
  pendingToken st = Some pending ->
  bind_credentials auth (Some sid) st
  = mkState (<[sid := pending]> (sessionTokens st)) (Some pending).
Proof.
  intros Ha Hs Hp Hpend. unfold bind_credentials. rewrite Ha, Hpend.
  apply truthy_true in Hs, Hp. rewrite Hs, Hp. reflexivity.
Qed.

(** What the block does to the pending slot. *)
Lemma bind_credentials_pendingToken (auth sid : option string) (st : state) :
  pendingToken (bind_credentials auth sid st) = pendingToken st
  \/ exists tok, parseBearerToken auth = Some tok /\ tok <> ""
                 /\ pendingToken (bind_credentials auth sid st) = Some tok.
Proof.
  unfold bind_credentials.
  destruct (JS.truthy_opt auth).
  - destruct (parseBearerToken auth) as [tok|]; [|auto].
    destruct (JS.truthy tok) eqn:Ht; [|auto].
    right. exists tok. apply truthy_true in Ht.
    destruct sid as [s|]; [destruct (JS.truthy s)|]; auto.
  - left. destruct sid as [s|]; [|reflexivity].
    destruct (pendingToken st) as [p|] eqn:Hp; [|simpl; congruence].
    destruct (JS.truthy s && JS.truthy p); simpl; congruence.
Qed.

(** What the block does to the session store: a new binding is that of the
    request's session id, to what the pending slot holds afterwards. *)
Lemma bind_credentials_sessionTokens (auth sid : option string) (st : state) :
  sessionTokens (bind_credentials auth sid st) = sessionTokens st
  \/ exists s tok,
       sid = Some s /\ s <> ""
       /\ pendingToken (bind_credentials auth sid st) = Some tok
       /\ sessionTokens (bind_credentials auth sid st)
          = <[s := tok]> (sessionTokens st).
Proof.
  unfold bind_credentials.
  destruct (JS.truthy_opt auth).
  - destruct (parseBearerToken auth) as [tok|]; [|auto].
    destruct (JS.truthy tok); [|auto].
    destruct sid as [s|]; [|auto].
    destruct (JS.truthy s) eqn:Hs; [|auto].
    right. exists s, tok. apply truthy_true in Hs. auto.
  - destruct sid as [s|]; [|auto].
    destruct (pendingToken st) as [p|] eqn:Hp; [|auto].
    destruct (JS.truthy s) eqn:Hs; simpl; [|auto].
    destruct (JS.truthy p); [|auto].
    right. exists s, p. apply truthy_true in Hs. auto.
Qed.

Lemma listener_pendingToken (req : request) (st : state) :
  pendingToken (listener req st).2 = pendingToken st
  \/ exists tok,
       parseBearerToken (headers req !! "authorization") = Some tok
       /\ tok <> "" /\ pendingToken (listener req st).2 = Some tok.
Proof.
  destruct (listener_state req st) as [[_ ->] | (_ & _ & ->)]; [auto|].
  apply bind_credentials_pendingToken.
Qed.

(** C9.  For the block that reads the credentials of a request (any
    Authorization header [auth], any session id [sid], any state [st]):
    - if it stores a credential under a session id, that is the session id
      of the request and the pending slot holds that same credential
      afterwards;
    - in particular, when it binds the pending credential to the session
      id, the slot keeps the credential;
    - the slot is either left as it was or overwritten by the bearer
      credential of this very request;
    - a slot that held a credential holds one afterwards.
    The last two hold likewise for the listener as a whole, on every
    request. *)
Theorem pending_token_copied_not_moved (auth sid : option string) (st : state) :
  let st' := bind_credentials auth sid st in
  (sessionTokens st' = sessionTokens st
   \/ exists s tok,
        sid = Some s /\ s <> ""
        /\ pendingToken st' = Some tok
        /\ sessionTokens st' = <[s := tok]> (sessionTokens st))
  /\ (forall s pending,
        JS.truthy_opt auth = false -> sid = Some s -> s <> "" ->
        pendingToken st = Some pending -> pending <> "" ->
        sessionTokens st' !! s = Some pending
        /\ pendingToken st' = Some pending)
  /\ (pendingToken st' = pendingToken st
      \/ exists tok, parseBearerToken auth = Some tok /\ tok <> ""
                     /\ pendingToken st' = Some tok)
  /\ (forall tok, pendingToken st = Some tok ->
                  exists tok', pendingToken st' = Some tok')
  /\ (forall req : request,
        let st'' := (listener req st).2 in
        (pendingToken st'' = pendingToken st
         \/ exists tok,
              parseBearerToken (headers req !! "authorization") = Some tok
              /\ tok <> "" /\ pendingToken st'' = Some tok)
        /\ (forall tok, pendingToken st = Some tok ->
                        exists tok', pendingToken st'' = Some tok')).
Proof.
  intros st'. split; [apply bind_credentials_sessionTokens|].
  split.
  { intros s pending Ha -> Hs Hp Hpn. unfold st'.
    rewrite (bind_credentials_pending auth s pending st) by assumption.
    simpl. rewrite lookup_insert_eq. auto. }
  split; [apply bind_credentials_pendingToken|].
  split.
  { intros tok Htok.
    destruct (bind_credentials_pendingToken auth sid st) as [H | (t & _ & _ & H)];
      fold st' in H; rewrite H; eauto. }
  intros req st''. split; [apply listener_pendingToken|].
  intros tok Htok.
  destruct (listener_pendingToken req st) as [H | (t & _ & _ & H)];
    fold st'' in H; rewrite H; eauto.
Qed.

Lemma pending_token_copied_not_moved_witness :
  let st := mkState ∅ (Some "U1") in
  let st' := bind_credentials None (Some "S1") st in
  sessionTokens st' !! "S1" = Some "U1" /\ pendingToken st' = Some "U1".
Proof.
  intros st st'.
  apply (proj1 (proj2 (pending_token_copied_not_moved None (Some "S1") st)));
    [reflexivity | reflexivity | discriminate | reflexivity | discriminate].
Defined.

(** A request that does not carry a bearer credential together with the
    session id [sid] leaves the binding of [sid] as it is. *)
Lemma listener_keeps_binding (sid : string) (r : request) (st : state) :
  Spec.keeps_binding sid r ->
  sessionTokens (listener r st).2 !! sid = sessionTokens st !! sid.
Proof.
  intros Hk.
  destruct (listener_state r st) as [[_ ->] | (_ & Ha & ->)]; [reflexivity|].
  unfold bind_credentials. rewrite Ha.
  destruct (parseBearerToken (headers r !! "authorization")) as [tok|] eqn:Hp;
    [|reflexivity].
  destruct (JS.truthy tok); [|reflexivity].
  destruct (headers r !! "mcp-session-id") as [s|] eqn:Hs; [|reflexivity].
  destruct (JS.truthy s); [|reflexivity]. simpl.
  destruct Hk as [Hk | Hk]; [|congruence].
  apply lookup_insert_ne. congruence.
Qed.

Lemma listen_all_keeps_binding (sid : string) (rs : list request) (st : state) :
  Forall (Spec.keeps_binding sid) rs ->
  sessionTokens (Spec.listen_all rs st) !! sid = sessionTokens st !! sid.
Proof.
  intros H. revert st. induction H as [|r rs Hr _ IH]; intros st; simpl.
  - reflexivity.
  - rewrite IH. apply listener_keeps_binding, Hr.
Qed.

(** The session id a tool handler resolves for a call that arrived in a
    request with the header [mcp-session-id]. *)
Lemma handler_userToken_session (ts : option string) (r : request) (sid : string)
    (st : state) :
  headers r !! "mcp-session-id" = Some sid -> sid <> "" ->
  ts = None \/ ts = Some sid ->
  handler_userToken (Some (extra_of ts r)) st = sessionTokens st !! sid.
Proof.
  intros Hh Hs Hts. apply truthy_true in Hs.
  assert (Hres : resolveSessionId (Some (extra_of ts r)) = Some sid).
  { unfold resolveSessionId, extra_of. simpl.
    destruct Hts as [-> | ->]; simpl; [|rewrite Hs; reflexivity].
    rewrite lookup_fmap, Hh. simpl. rewrite Hs. reflexivity. }
  unfold handler_userToken. rewrite Hres, Hs. reflexivity.
Qed.

Lemma listener_not_transport (r : request) (st : state) :
  JS.truthy_opt (headers r !! "authorization") = false ->
  (listener r st).1 <> ToTransport /\ (listener r st).2 = st.
Proof.
  intros Ha.
  destruct (listener_state r st) as [H | (_ & Ht & _)]; [exact H|congruence].
Qed.

(** The amended C5.  A request [r1] that reaches the transport with a
    bearer credential [U1] in its Authorization header and the session id
    [S1] binds [U1] under [S1] in the session-token store, and holds it in
    the pending slot.  After any further requests that do not carry a
    bearer credential together with [S1], a request [r2] with session id
    [S1]
    - is not passed to the transport when it has no Authorization header,
      and leaves the stores alone: on the path [/mcp] it is answered 401;
    - when it is passed to the transport with an Authorization header that
      holds no bearer credential, leaves the stores alone, and the tool
      handlers resolve its user credential to [U1]. *)
Theorem session_binding_spec (r1 : request) (st : state) (h U1 S1 : string) :
  (listener r1 st).1 = ToTransport ->
  headers r1 !! "authorization" = Some h ->
  parseBearerToken (Some h) = Some U1 -> U1 <> "" ->
  headers r1 !! "mcp-session-id" = Some S1 -> S1 <> "" ->
  let st1 := (listener r1 st).2 in
  sessionTokens st1 !! S1 = Some U1
  /\ pendingToken st1 = Some U1
  /\ forall (rs : list request) (r2 : request) (ts : option string),
       Forall (Spec.keeps_binding S1) rs ->
       headers r2 !! "mcp-session-id" = Some S1 ->
       ts = None \/ ts = Some S1 ->
       let st2 := Spec.listen_all rs st1 in
       (JS.truthy_opt (headers r2 !! "authorization") = false ->
          (listener r2 st2).1 <> ToTransport
          /\ (listener r2 st2).2 = st2
          /\ (pathname r2 = "/mcp" -> (listener r2 st2).1 = Unauthorized))
       /\ ((listener r2 st2).1 = ToTransport ->
           parseBearerToken (headers r2 !! "authorization") = None ->
           (listener r2 st2).2 = st2
           /\ handler_userToken (Some (extra_of ts r2)) (listener r2 st2).2
              = Some U1).
Proof.
  intros Ht Hh Hp HU Hs HS st1.
  assert (Hst1 : st1 = mkState (<[S1 := U1]> (sessionTokens st)) (Some U1)).
  { unfold st1.
    destruct (listener_state r1 st) as [[H _] | (_ & _ & ->)]; [contradiction|].
    rewrite Hh, Hs, (bind_credentials_bearer h U1 (Some S1) st Hp HU).
    apply truthy_true in HS. rewrite HS. reflexivity. }
  clearbody st1. subst st1.
  split; [simpl; apply lookup_insert_eq|]. split; [reflexivity|].
  intros rs r2 ts Hrs Hs2 Hts st2.
  assert (Hb : sessionTokens st2 !! S1 = Some U1).
  { unfold st2. rewrite (listen_all_keeps_binding S1 rs _ Hrs). simpl.
    apply lookup_insert_eq. }
  split.
  - intros Ha. destruct (listener_not_transport r2 st2 Ha) as [Hn He].
    split; [exact Hn|]. split; [exact He|].
    intros Hpath. rewrite (listener_unauthorized r2 st2 Hpath Ha). reflexivity.
  - intros Ht2 Hp2.
    destruct (listener_state r2 st2) as [[H _] | (_ & Ha & He)]; [contradiction|].
    rewrite He, (bind_credentials_no_bearer _ _ _ Ha (or_introl Hp2)).
    split; [reflexivity|].
    rewrite (handler_userToken_session ts r2 S1 st2 Hs2 HS Hts). exact Hb.
Qed.

Lemma session_binding_spec_witness :
  let r1 := mkRequest "POST" "/mcp"
              {[ "authorization" := "Bearer U1"; "mcp-session-id" := "S1" ]} in
  let r2 := mkRequest "POST" "/mcp"
              {[ "authorization" := "Basic abc"; "mcp-session-id" := "S1" ]} in
  let r3 := mkRequest "POST" "/mcp" {[ "mcp-session-id" := "S1" ]} in
  let st1 := (listener r1 (mkState ∅ None)).2 in
  sessionTokens st1 !! "S1" = Some "U1"
  /\ handler_userToken (Some (extra_of None r2)) (listener r2 st1).2 = Some "U1"
  /\ (listener r3 st1).1 = Unauthorized.
Proof.
  intros r1 r2 r3 st1.
  assert (H1 : (listener r1 (mkState ∅ None)).1 = ToTransport)
    by (vm_compute; reflexivity).
  assert (H2 : headers r1 !! "authorization" = Some "Bearer U1")
    by (vm_compute; reflexivity).
  assert (H3 : headers r1 !! "mcp-session-id" = Some "S1")
    by (vm_compute; reflexivity).
  destruct (session_binding_spec r1 (mkState ∅ None) "Bearer U1" "U1" "S1"
              H1 H2 eq_refl ltac:(discriminate) H3 ltac:(discriminate))
    as (Hb & _ & Hnext).
  pose proof (Hnext [] r2 None ltac:(constructor)
                ltac:(vm_compute; reflexivity) (or_introl eq_refl)) as [_ Hr2].
  pose proof (Hnext [] r3 None ltac:(constructor)
                ltac:(vm_compute; reflexivity) (or_introl eq_refl)) as [Hr3 _].
  split; [exact Hb|]. split.
  - apply Hr2; vm_compute; reflexivity.
  - apply Hr3; vm_compute; reflexivity.
Defined.

(** C5 as stated fails at the 401 guard of the listener: after the binding of
    [U1] under [S1], a request with the session id [S1] and no
    Authorization header is answered 401 and never resolved. *)
Lemma session_only_request_unauthorized :
  let r1 := mkRequest "POST" "/mcp"
              {[ "authorization" := "Bearer U1"; "mcp-session-id" := "S1" ]} in
  let r2 := mkRequest "POST" "/mcp" {[ "mcp-session-id" := "S1" ]} in
  let st1 := (listener r1 (mkState ∅ None)).2 in
  (listener r1 (mkState ∅ None)).1 = ToTransport
  /\ sessionTokens st1 !! "S1" = Some "U1"
  /\ listener r2 st1 = (Unauthorized, st1).
Proof. vm_compute. repeat split. Qed.

(** Were such a request let through, the block would bind the pending
    credential to its session id and the handlers would resolve to it. *)
Example session_only_block :
  let st1 := bind_credentials (Some "Bearer U1") (Some "S1") (mkState ∅ None) in
  let st2 := bind_credentials None (Some "S1") st1 in
  sessionTokens st2 !! "S1" = Some "U1" /\ pendingToken st2 = Some "U1".
Proof. vm_compute. repeat split. Qed.

End SessionBinding.

(** * Further properties of the sources *)

(** ** Trimming *)

Section Trim.

Lemma trimStart_has_char (c : ascii) (s : string) :
  Spec.has_char c s = false -> Spec.has_char c (JS.trimStart s) = false.
Proof.
  induction s as [|d s IH]; simpl; [auto|].
  intros H. apply orb_false_iff in H as [Hd Hs].
  destruct (JS.is_white d); [auto|]. simpl. rewrite Hd, Hs. reflexivity.
Qed.

Lemma trimEnd_has_char (c : ascii) (s : string) :
  Spec.has_char c s = false -> Spec.has_char c (JS.trimEnd s) = false.
Proof.
  induction s as [|d s IH]; simpl; [auto|].
  intros H. apply orb_false_iff in H as [Hd Hs]. specialize (IH Hs).
  destruct (JS.trimEnd s) as [|e r].
  - destruct (JS.is_white d); simpl; [reflexivity|]. rewrite Hd. reflexivity.
  - simpl in *. rewrite Hd, IH. reflexivity.
Qed.

Lemma trim_has_char (c : ascii) (s : string) :
  Spec.has_char c s = false -> Spec.has_char c (JS.trim s) = false.
Proof. intros H. apply trimEnd_has_char, trimStart_has_char, H. Qed.

(** What [trimStart] leaves does not start with white space. *)
Lemma trimStart_head (s : string) :
  JS.trimStart s = ""
  \/ exists c r, JS.trimStart s = String c r /\ JS.is_white c = false.
Proof.
  induction s as [|d s IH]; simpl; [auto|].
  destruct (JS.is_white d) eqn:Hd; [exact IH|]. right. eauto.
Qed.

Lemma trimEnd_head (c : ascii) (r : string) :
  JS.is_white c = false -> exists r', JS.trimEnd (String c r) = String c r'.
Proof.
  intros Hc. simpl. destruct (JS.trimEnd r); [rewrite Hc|]; eauto.
Qed.

Lemma trimEnd_idempotent (s : string) :
  JS.trimEnd (JS.trimEnd s) = JS.trimEnd s.
Proof.
  induction s as [|c s IH]; simpl; [reflexivity|].
  destruct (JS.trimEnd s) as [|e r] eqn:He.
  - destruct (JS.is_white c) eqn:Hc; simpl; [reflexivity|].
    rewrite Hc. reflexivity.
  - change (JS.trimEnd (String c (String e r))) with
      (match JS.trimEnd (String e r) with
       | EmptyString => if JS.is_white c then EmptyString else String c EmptyString
       | r0 => String c r0
       end).
    rewrite IH. reflexivity.
Qed.

Lemma trimStart_fixed (s : string) :
  (s = "" \/ exists c r, s = String c r /\ JS.is_white c = false) ->
  JS.trimStart s = s.
Proof.
  intros [-> | (c & r & -> & Hc)]; simpl; [reflexivity|]. rewrite Hc. reflexivity.
Qed.

Lemma trim_idempotent (s : string) : JS.trim (JS.trim s) = JS.trim s.
Proof.
  unfold JS.trim.
  assert (H : JS.trimStart (JS.trimEnd (JS.trimStart s))
              = JS.trimEnd (JS.trimStart s)).
  { apply trimStart_fixed.
    destruct (trimStart_head s) as [-> | (c & r & -> & Hc)]; [left; reflexivity|].
    right. destruct (trimEnd_head c r Hc) as [r' ->]. eauto. }
  rewrite H. apply trimEnd_idempotent.
Qed.

Lemma trimStart_empty (s : string) :
  JS.trimStart s = "" <-> Spec.all_white s = true.
Proof.
  induction s as [|c s IH]; simpl; [tauto|].
  destruct (JS.is_white c); simpl; [exact IH|]. split; discriminate.
Qed.

Lemma trim_empty (s : string) : JS.trim s = "" <-> Spec.all_white s = true.
Proof.
  rewrite <- trimStart_empty. unfold JS.trim. split.
  - destruct (trimStart_head s) as [-> | (c & r & -> & Hc)]; [reflexivity|].
    destruct (trimEnd_head c r Hc) as [r' ->]. discriminate.
  - intros ->. reflexivity.
Qed.

End Trim.

(** ** The manual user token, and the claims of a developer token *)

Section AuthModule.
Import AppleMusicAuth.

(** X11.  [setMusicUserToken] stores the token trimmed, whatever was stored
    before, and storing what is stored changes nothing.  A token with a
    character that is not white space is then returned by
    [requireMusicUserToken] and by the getter the API client uses; a token
    of white space only is stored as the empty string and counts as
    missing: [requireMusicUserToken] throws and the getter answers
    nothing. *)
Theorem musicUserToken_round_trip (token : string) (m : option string) :
  let m' := setMusicUserToken token m in
  getMusicUserToken m' = Some (JS.trim token)
  /\ setMusicUserToken (JS.trim token) m' = m'
  /\ (Spec.all_white token = false ->
      JS.trim token <> ""
      /\ requireMusicUserToken m' = inl (JS.trim token)
      /\ Client.api_getUserToken m' = Some (JS.trim token))
  /\ (Spec.all_white token = true ->
      getMusicUserToken m' = Some ""
      /\ (exists msg, requireMusicUserToken m' = inr msg)
      /\ Client.api_getUserToken m' = None).
Proof.
  intros m'. unfold m', setMusicUserToken, getMusicUserToken.
  split; [reflexivity|]. split; [rewrite trim_idempotent; reflexivity|].
  unfold requireMusicUserToken, Client.api_getUserToken, getMusicUserToken.
  split.
  - intros Hw.
    assert (Hne : JS.trim token <> "").
    { intros He. apply trim_empty in He. congruence. }
    split; [exact Hne|]. apply truthy_true in Hne. simpl. rewrite Hne. auto.
  - intros Hw. apply trim_empty in Hw. rewrite Hw. simpl. eauto.
Qed.

Lemma musicUserToken_round_trip_witness :
  requireMusicUserToken (setMusicUserToken "  Au.token-123 " None)
  = inl "Au.token-123"
  /\ Client.api_getUserToken (setMusicUserToken "    " (Some "old")) = None.
Proof.
  split.
  - apply (musicUserToken_round_trip "  Au.token-123 " None). reflexivity.
  - apply (musicUserToken_round_trip "    " (Some "old")). reflexivity.
Defined.

Lemma clampTTL_monotone (x y : Z) : x <= y -> clampTTL x <= clampTTL y.
Proof. unfold clampTTL, SIX_MONTHS_SECONDS. lia. Qed.

(** X12.  The token [generateDeveloperToken] has signed is issued at the
    time the function read, by the team of the configuration, under the
    key id of the configuration, and expires between 60 seconds and 180
    days later: one day later when no lifetime is configured, the
    configured lifetime later when that lies between the bounds. *)
Theorem developer_token_lifetime (cfg : AppleMusicAuthConfig) (now : Z) :
  let j := generateDeveloperToken_claims cfg now in
  jwt_iat j = now
  /\ jwt_iss j = teamId cfg /\ jwt_kid j = keyId cfg /\ jwt_alg j = "ES256"
  /\ 60 <= jwt_exp j - jwt_iat j <= 15552000
  /\ (tokenTTLSeconds cfg = None -> jwt_exp j = now + 86400)
  /\ (forall ttl, tokenTTLSeconds cfg = Some ttl ->
                  60 <= ttl <= 15552000 -> jwt_exp j = now + ttl).
Proof.
  intros j. subst j. unfold generateDeveloperToken_claims. simpl.
  pose proof (clampTTL_bounds (default (60 * 60 * 24) (tokenTTLSeconds cfg)))
    as Hb.
  do 4 (split; [reflexivity|]). split; [lia|]. split.
  - intros ->. reflexivity.
  - intros ttl -> Hr. simpl. unfold clampTTL, SIX_MONTHS_SECONDS. lia.
Qed.

Lemma developer_token_lifetime_witness :
  jwt_exp (generateDeveloperToken_claims (mkConfig "T1" "K1" "pem" (Some 3600)) 1000)
  = 4600
  /\ jwt_exp (generateDeveloperToken_claims (mkConfig "T1" "K1" "pem" None) 1000)
     = 87400.
Proof.
  split.
  - apply (developer_token_lifetime (mkConfig "T1" "K1" "pem" (Some 3600)) 1000
             ) with (ttl := 3600); [reflexivity|lia].
  - apply (developer_token_lifetime (mkConfig "T1" "K1" "pem" None) 1000).
    reflexivity.
Defined.

End AuthModule.

(** ** The provider over whole executions *)

Section ProviderRuns.
Import AppleMusicAuth.

Lemma getToken_call_frame (c : nat) (now : Z) (s : provider) :
  cached (getToken_call c now s) = cached s
  /\ (mints s <= mints (getToken_call c now s) <= S (mints s))%nat.
Proof.
  unfold getToken_call.
  destruct (cache_hit now s); [simpl; split; [reflexivity|lia]|].
  destruct (inFlight s); [simpl; split; [reflexivity|lia]|].
  simpl. unfold arrow_start. destruct (config s); simpl; split;
    (reflexivity || lia).
Qed.

Lemma step_frame (e : event) (s s' : provider) :
  step e s = Some s' ->
  (Spec.is_mint_ok e = false -> cached s' = cached s)
  /\ (is_Some (cached s) -> is_Some (cached s'))
  /\ (mints s <= mints s'
      <= mints s + (if Spec.is_call e then 1 else 0))%nat.
Proof.
  destruct e as [c now | p o | c]; simpl.
  - destruct (calls s !! c); [discriminate|]. intros [= <-].
    destruct (getToken_call_frame c now s) as [Hc Hm]. rewrite Hc.
    split; [auto|]. split; [auto|]. lia.
  - destruct (frames s !! p) as [[now cfg]|]; [|discriminate]. intros [= <-].
    destruct o as [tok claim | msg]; simpl.
    + split; [discriminate|]. split; [eauto|]. lia.
    + split; [auto|]. split; [auto|]. lia.
  - destruct (calls s !! c) as [[r|q|q]|]; try discriminate.
    destruct (promises s !! q) as [[|r]|]; try discriminate.
    intros [= <-]. simpl. split; [auto|]. split; [auto|]. lia.
Qed.

(** X14.  Along any execution of the provider, from any state: the cache
    is what it was unless a mint has settled with a token in between; a
    cache that held a credential holds one afterwards (nothing ever empties
    it); and [generateDeveloperToken] has been called at most once for each
    invocation of [getToken]. *)
Theorem provider_run_frame (tr : list event) (s s' : provider) :
  run tr s = Some s' ->
  (forallb (fun e => negb (Spec.is_mint_ok e)) tr = true -> cached s' = cached s)
  /\ (is_Some (cached s) -> is_Some (cached s'))
  /\ (mints s <= mints s' <= mints s + Spec.count_calls tr)%nat.
Proof.
  revert s. induction tr as [|e tr IH]; intros s Hrun.
  - apply run_nil_inv in Hrun as ->. unfold Spec.count_calls. simpl.
    split; [auto|]. split; [auto|]. lia.
  - apply run_cons_inv in Hrun as (s1 & Hstep & Hrun).
    destruct (step_frame e s s1 Hstep) as (Hc1 & Hs1 & Hm1).
    destruct (IH s1 Hrun) as (Hc2 & Hs2 & Hm2).
    split; [|split].
    + simpl. intros H. apply andb_true_iff in H as [He Htr].
      apply negb_true_iff in He. rewrite (Hc2 Htr). apply Hc1, He.
    + auto.
    + unfold Spec.count_calls in *. rewrite filter_cons.
      destruct (Spec.is_call e) eqn:He.
      * rewrite decide_True by reflexivity. simpl. lia.
      * rewrite decide_False by discriminate. lia.
Qed.

Lemma provider_run_frame_witness :
  let s0 := set_cached (Some (mkCached "old" 100))
              (createDeveloperTokenProvider (Some (mkConfig "T1" "K1" "pem" None))) in
  exists s',
    run [Call 0 1000; Call 1 1001; MintSettles 0 (MintFail "bad key"); Resume 0] s0
    = Some s'
    /\ cached s' = Some (mkCached "old" 100) /\ (mints s' <= 2)%nat.
Proof.
  intros s0.
  destruct (run [Call 0 1000; Call 1 1001; MintSettles 0 (MintFail "bad key");
                 Resume 0] s0) as [s'|] eqn:Hrun;
    [|vm_compute in Hrun; discriminate].
  exists s'. split; [reflexivity|].
  destruct (provider_run_frame _ s0 s' Hrun) as (Hc & _ & Hm).
  split; [apply Hc; reflexivity|]. apply Hm.
Defined.

(** A successful mint, from the invocation to the return. *)
Lemma getToken_mint_success (s0 : provider) (a : nat) (now : Z) (tok : string)
    (claim : option Z) (cfg : AppleMusicAuthConfig) :
  calls s0 !! a = None -> inFlight s0 = None ->
  cache_hit now s0 = None -> config s0 = Some cfg ->
  let p := length (promises s0) in
  let e := match claim with
           | Some e => e
           | None => now + clampTTL (default 3600 (tokenTTLSeconds cfg))
           end in
  exists s,
    run [Call a now; MintSettles p (MintOk tok claim); Resume a] s0 = Some s
    /\ result s a = Some (Fulfilled tok)
    /\ cached s = Some (mkCached tok e)
    /\ inFlight s = None
    /\ config s = Some cfg
    /\ mints s = S (mints s0).
Proof.
  intros Ha Hidle Hc Hcfg p e.
  rewrite (run_cons _ _ _ _ (step_Call a now s0 Ha)).
  rewrite getToken_call_start, (arrow_start_config _ _ _ cfg) by assumption.
  fold p.
  erewrite run_cons; cycle 1.
  { apply step_MintSettles. simpl. apply lookup_insert_eq. }
  erewrite run_cons; cycle 1.
  { apply step_Resume with (p := p); simpl.
    - apply lookup_insert_eq.
    - unfold p. rewrite insert_last. apply lookup_last. }
  eexists. split; [reflexivity|].
  split; [unfold result; simpl; rewrite lookup_insert_eq; reflexivity|].
  split; [reflexivity|]. split; [reflexivity|]. split; [exact Hcfg|reflexivity].
Qed.

(** X13.  A call that mints a token (no mint in flight, nothing valid in
    the cache, configuration at hand) returns it and leaves it in the cache
    with the expiry read from the token or, when the token shows none, the
    expiry [now + clampTTL (ttl ?? 3600)].  A later call is served that
    token without any call of [generateDeveloperToken] as long as the
    recorded expiry is more than 300 seconds ahead, and mints anew from
    then on.  So with the computed expiry and a lifetime clamped to at most
    300 seconds, every later call mints anew. *)
Theorem getToken_reuses_minted_token (s0 : provider) (a b : nat) (now : Z)
    (tok : string) (claim : option Z) (cfg : AppleMusicAuthConfig) :
  calls s0 !! a = None -> inFlight s0 = None ->
  cache_hit now s0 = None -> config s0 = Some cfg ->
  let p := length (promises s0) in
  let e := match claim with
           | Some e => e
           | None => now + clampTTL (default 3600 (tokenTTLSeconds cfg))
           end in
  exists s,
    run [Call a now; MintSettles p (MintOk tok claim); Resume a] s0 = Some s
    /\ result s a = Some (Fulfilled tok)
    /\ mints s = S (mints s0)
    /\ (forall now', now' + 300 < e ->
          result (getToken_call b now' s) b = Some (Fulfilled tok)
          /\ mints (getToken_call b now' s) = mints s
          /\ inFlight (getToken_call b now' s) = None)
    /\ (forall now', e <= now' + 300 ->
          mints (getToken_call b now' s) = S (mints s)
          /\ calls (getToken_call b now' s) !! b
             = Some (Awaits (length (promises s))))
    /\ (claim = None ->
        clampTTL (default 3600 (tokenTTLSeconds cfg)) <= 300 ->
        forall now', now <= now' ->
          mints (getToken_call b now' s) = S (mints s)).
Proof.
  intros Ha Hidle Hc Hcfg p e.
  destruct (getToken_mint_success s0 a now tok claim cfg Ha Hidle Hc Hcfg)
    as (s & Hrun & Hres & Hcache & Hin & Hcf & Hm).
  fold p in Hrun. fold e in Hcache.
  exists s. do 3 (split; [assumption|]).
  assert (Hfresh : forall now', e <= now' + 300 ->
            mints (getToken_call b now' s) = S (mints s)
            /\ calls (getToken_call b now' s) !! b
               = Some (Awaits (length (promises s)))).
  { intros now' He.
    assert (Hstale : cache_hit now' s = None).
    { apply cache_hit_None. right. eexists. split; [exact Hcache|simpl; lia]. }
    destruct (getToken_call_starts_mint b now' s cfg Hstale Hin Hcf)
      as (H1 & _ & _ & H4). auto. }
  split; [|split; [exact Hfresh|]].
  - intros now' He.
    assert (Hhit : cache_hit now' s = Some tok).
    { apply cache_hit_Some. eexists. split; [exact Hcache|]. simpl.
      split; [lia|reflexivity]. }
    rewrite (getToken_call_hit b now' s tok Hhit). unfold result. simpl.
    rewrite lookup_insert_eq. auto.
  - intros -> Hsmall now' Hle. apply Hfresh. unfold e. lia.
Qed.

Lemma getToken_reuses_minted_token_witness :
  exists s,
    run [Call 0 1000; MintSettles 0 (MintOk "jwt" (Some 87400)); Resume 0]
        (createDeveloperTokenProvider (Some (mkConfig "T1" "K1" "pem" None)))
    = Some s
    /\ result (getToken_call 1 5000 s) 1%nat = Some (Fulfilled "jwt")
    /\ mints (getToken_call 1 5000 s) = 1%nat
    /\ mints (getToken_call 1 87100 s) = 2%nat.
Proof.
  destruct (getToken_reuses_minted_token
              (createDeveloperTokenProvider (Some (mkConfig "T1" "K1" "pem" None)))
              0 1 1000 "jwt" (Some 87400) (mkConfig "T1" "K1" "pem" None)
              eq_refl eq_refl eq_refl eq_refl)
    as (s & Hrun & _ & Hm & Hhit & Hstale & _).
  exists s. split; [exact Hrun|].
  destruct (Hhit 5000) as (H1 & H2 & _); [lia|].
  destruct (Hstale 87100) as (H3 & _); [lia|].
  rewrite H2, H3, Hm. auto.
Defined.

(** X19.  However the provider settles the expiry of a token that
    [generateDeveloperToken] minted at [now_mint] for a call that read the
    clock at [now_call], not after: by the [exp] claim of the token or, if
    it shows none, by its own computation with the default of 3600
    seconds, the expiry it records is not after the token's own.  A token
    served from the cache therefore has more than 300 seconds to live. *)
Theorem cached_expiry_within_token (cfg : AppleMusicAuthConfig)
    (now_call now_mint : Z) (claim : option Z) (p : nat) (tok : string)
    (s : provider) :
  now_call <= now_mint ->
  let token_exp := jwt_exp (generateDeveloperToken_claims cfg now_mint) in
  claim = None \/ claim = Some token_exp ->
  let s' := arrow_resume p now_call cfg (MintOk tok claim) s in
  (exists e, cached s' = Some (mkCached tok e) /\ e <= token_exp)
  /\ forall now' tok', cache_hit now' s' = Some tok' ->
                       tok' = tok /\ now' + 300 < token_exp.
Proof.
  intros Hle token_exp Hclaim s'.
  assert (Hbound : now_call + clampTTL (default 3600 (tokenTTLSeconds cfg))
                   <= token_exp).
  { unfold token_exp, generateDeveloperToken_claims. simpl.
    assert (clampTTL (default 3600 (tokenTTLSeconds cfg))
            <= clampTTL (default (60 * 60 * 24) (tokenTTLSeconds cfg))).
    { apply clampTTL_monotone. destruct (tokenTTLSeconds cfg); simpl; lia. }
    lia. }
  assert (Hc : exists e, cached s' = Some (mkCached tok e) /\ e <= token_exp).
  { unfold s'. simpl. eexists. split; [reflexivity|].
    destruct Hclaim as [-> | ->]; [exact Hbound|lia]. }
  split; [exact Hc|].
  intros now' tok' Hhit. apply cache_hit_Some in Hhit as (ct & Hct & He & ->).
  destruct Hc as (e & Hce & Hee). rewrite Hce in Hct. injection Hct as <-.
  simpl in *. split; [reflexivity|lia].
Qed.

Lemma cached_expiry_within_token_witness :
  let cfg := mkConfig "T1" "K1" "pem" None in
  let s' := arrow_resume 0 1000 cfg (MintOk "jwt" None)
              (createDeveloperTokenProvider (Some cfg)) in
  cached s' = Some (mkCached "jwt" 4600)
  /\ cache_hit 4000 s' = Some "jwt"
  /\ 4000 + 300 < jwt_exp (generateDeveloperToken_claims cfg 1002).
Proof.
  intros cfg s'. split; [reflexivity|]. split; [reflexivity|].
  assert (Hle : 1000 <= 1002) by lia.
  exact (proj2 (proj2 (cached_expiry_within_token cfg 1000 1002 None 0 "jwt"
                         (createDeveloperTokenProvider (Some cfg))
                         Hle (or_introl eq_refl))
                      4000 "jwt" eq_refl)).
Defined.

End ProviderRuns.

(** ** Reading credentials and session ids from headers *)

Section HeaderReaders.
Import Client.

Lemma first_truthy_Some (vs : list string) (s : string) :
  first_truthy vs = Some s -> s <> "" /\ In s vs.
Proof.
  induction vs as [|v vs IH]; simpl; [discriminate|].
  destruct (JS.truthy v) eqn:Hv.
  - intros [= Heq]; subst. apply truthy_true in Hv. auto.
  - intros H. destruct (IH H). auto.
Qed.

Lemma first_truthy_None (vs : list string) :
  first_truthy vs = None <-> forall s, In s vs -> s = "".
Proof.
  induction vs as [|v vs IH]; simpl; [split; [tauto|reflexivity]|].
  destruct (JS.truthy v) eqn:Hv.
  - split; [discriminate|]. intros H. apply truthy_true in Hv.
    exfalso. apply Hv, H. auto.
  - apply truthy_false in Hv. rewrite IH. split.
    + intros H s [<-|Hs]; auto.
    + intros H s Hs. auto.
Qed.

Lemma session_id_among_Some (keys : list string)
    (hs : gmap string header_value) (s : string) :
  session_id_among keys hs = Some s ->
  s <> "" /\ exists key, In key keys /\ Spec.header_has hs key s.
Proof.
  induction keys as [|key keys IH]; simpl; [discriminate|].
  destruct (hs !! key) as [[raw|vs]|] eqn:Hk.
  - destruct (JS.truthy raw) eqn:Hr.
    + intros [= Heq]; subst. apply truthy_true in Hr. split; [exact Hr|].
      exists key. split; [auto|]. left. exact Hk.
    + intros H. destruct (IH H) as (? & k & ? & ?). eauto.
  - destruct (first_truthy vs) as [entry|] eqn:Hf.
    + intros [= Heq]; subst. apply first_truthy_Some in Hf as [? ?]. split; [assumption|].
      exists key. split; [auto|]. right. eauto.
    + intros H. destruct (IH H) as (? & k & ? & ?). eauto.
  - intros H. destruct (IH H) as (? & k & ? & ?). eauto.
Qed.

Lemma session_id_among_None (keys : list string)
    (hs : gmap string header_value) :
  session_id_among keys hs = None
  <-> forall key s, In key keys -> Spec.header_has hs key s -> s = "".
Proof.
  induction keys as [|key keys IH]; simpl; [split; [tauto|reflexivity]|].
  destruct (hs !! key) as [[raw|vs]|] eqn:Hk.
  - destruct (JS.truthy raw) eqn:Hr.
    + split; [discriminate|]. intros H. apply truthy_true in Hr.
      exfalso. apply Hr, (H key raw); [auto|]. left. exact Hk.
    + apply truthy_false in Hr. rewrite IH. split.
      * intros H k s [<-|Hin] Hh; [|eauto].
        destruct Hh as [Hh | (vs & Hh & _)]; congruence.
      * intros H k s Hin. apply H. auto.
  - destruct (first_truthy vs) as [entry|] eqn:Hf.
    + split; [discriminate|]. intros H.
      apply first_truthy_Some in Hf as [Hne Hin].
      exfalso. apply Hne, (H key entry); [auto|]. right. eauto.
    + rewrite IH. split.
      * intros H k s [<-|Hin] Hh; [|eauto].
        destruct Hh as [Hh | (vs' & Hh & Hin)]; [congruence|].
        rewrite Hk in Hh. injection Hh as <-.
        apply (proj1 (first_truthy_None vs) Hf), Hin.
      * intros H k s Hin. apply H. auto.
  - rewrite IH. split.
    + intros H k s [<-|Hin] Hh; [|eauto].
      destruct Hh as [Hh | (vs & Hh & _)]; congruence.
    + intros H k s Hin. apply H. auto.
Qed.

(** X2.  [resolveSessionId] never answers the empty string.  A non-empty
    session id of the transport is the answer, whatever the headers say.
    Otherwise the answer is a non-empty value found under one of the four
    header names, and there is none exactly when every value under these
    names is empty or missing. *)
Theorem resolveSessionId_spec (e : extra) :
  resolveSessionId None = None
  /\ (forall s, sessionId e = Some s -> s <> "" ->
                resolveSessionId (Some e) = Some s)
  /\ (forall s, resolveSessionId (Some e) = Some s ->
        s <> ""
        /\ (sessionId e = Some s
            \/ (JS.truthy_opt (sessionId e) = false
                /\ exists hs key,
                     requestInfo_headers e = Some hs
                     /\ In key Spec.session_keys
                     /\ Spec.header_has hs key s)))
  /\ (resolveSessionId (Some e) = None
      <-> JS.truthy_opt (sessionId e) = false
          /\ forall hs key s,
               requestInfo_headers e = Some hs ->
               In key Spec.session_keys -> Spec.header_has hs key s -> s = "").
Proof.
  split; [reflexivity|]. unfold resolveSessionId, getSessionIdFromHeaders.
  fold Spec.session_keys.
  split; [|split].
  - intros s Hs Hne. rewrite Hs. simpl. apply truthy_true in Hne.
    rewrite Hne. reflexivity.
  - intros s. destruct (JS.truthy_opt (sessionId e)) eqn:Ht.
    + intros Hs. rewrite Hs in Ht. simpl in Ht. apply truthy_true in Ht. auto.
    + destruct (requestInfo_headers e) as [hs|]; [|discriminate].
      intros H. apply session_id_among_Some in H as (Hne & key & Hin & Hh).
      split; [exact Hne|]. right. split; [reflexivity|]. eauto.
  - destruct (JS.truthy_opt (sessionId e)) eqn:Ht.
    + split; [|intros [? _]; discriminate].
      intros H. rewrite H in Ht. discriminate.
    + destruct (requestInfo_headers e) as [hs|].
      * rewrite session_id_among_None. split.
        -- intros H. split; [reflexivity|]. intros hs' key s [= <-]. apply H.
        -- intros [_ H] key s. apply (H hs). reflexivity.
      * split; [|reflexivity]. intros _. split; [reflexivity|]. discriminate.
Qed.

Lemma resolveSessionId_spec_witness :
  resolveSessionId
    (Some (mkExtra (Some "T-1") (Some {[ "mcp-session-id" := HString "H-1" ]})))
  = Some "T-1".
Proof.
  apply (resolveSessionId_spec
           (mkExtra (Some "T-1") (Some {[ "mcp-session-id" := HString "H-1" ]}))).
  - reflexivity.
  - discriminate.
Defined.

Lemma first_bearer_Some (vs : list string) (t : string) :
  first_bearer vs = Some t ->
  t <> "" /\ exists v, In v vs /\ parseBearerToken (Some v) = Some t.
Proof.
  induction vs as [|v vs IH]; cbn [first_bearer]; [discriminate|].
  destruct (parseBearerToken (Some v)) as [tok|] eqn:Hp.
  - destruct (JS.truthy tok) eqn:Ht.
    + intros [= Heq]; subst. apply truthy_true in Ht. split; [exact Ht|].
      exists v. split; [left; reflexivity|exact Hp].
    + intros H. destruct (IH H) as (? & w & ? & ?). split; [assumption|].
      exists w. split; [right; assumption|assumption].
  - intros H. destruct (IH H) as (? & w & ? & ?). split; [assumption|].
    exists w. split; [right; assumption|assumption].
Qed.

Lemma first_bearer_is_Some (vs : list string) (v t : string) :
  In v vs -> parseBearerToken (Some v) = Some t -> t <> "" ->
  is_Some (first_bearer vs).
Proof.
  intros Hin Hp Ht. apply truthy_true in Ht.
  induction vs as [|w vs IH]; cbn [first_bearer]; [destruct Hin|].
  destruct Hin as [->|Hin].
  - rewrite Hp, Ht. eauto.
  - destruct (parseBearerToken (Some w)) as [tok|]; [|auto].
    destruct (JS.truthy tok); [eauto|auto].
Qed.

Lemma bearer_among_Some (keys : list string) (hs : gmap string header_value)
    (t : string) :
  bearer_among keys hs = Some t ->
  t <> "" /\ exists key v, In key keys /\ Spec.header_has hs key v
                           /\ parseBearerToken (Some v) = Some t.
Proof.
  induction keys as [|key keys IH]; cbn [bearer_among]; [discriminate|].
  assert (Hrest : bearer_among keys hs = Some t ->
                  t <> "" /\ exists key0 v, (key = key0 \/ In key0 keys)
                                            /\ Spec.header_has hs key0 v
                                            /\ parseBearerToken (Some v) = Some t).
  { intros H. destruct (IH H) as (? & k & v & ? & ? & ?). eauto 10. }
  destruct (hs !! key) as [[raw|vs]|] eqn:Hk; [| |exact Hrest].
  - destruct (parseBearerToken (Some raw)) as [tok|] eqn:Hp; [|exact Hrest].
    destruct (JS.truthy tok) eqn:Ht; [|exact Hrest].
    intros [= Heq]; subst. apply truthy_true in Ht. split; [exact Ht|].
    exists key, raw. split; [left; reflexivity|]. split; [left; exact Hk|exact Hp].
  - destruct (first_bearer vs) as [tok|] eqn:Hf; [|exact Hrest].
    intros [= Heq]; subst. apply first_bearer_Some in Hf as (Hne & v & Hin & Hp).
    split; [exact Hne|]. exists key, v. split; [left; reflexivity|].
    split; [right; eauto|exact Hp].
Qed.

Lemma bearer_among_is_Some (keys : list string) (hs : gmap string header_value)
    (key v t : string) :
  In key keys -> Spec.header_has hs key v ->
  parseBearerToken (Some v) = Some t -> t <> "" ->
  is_Some (bearer_among keys hs).
Proof.
  intros Hin Hh Hp Ht.
  induction keys as [|k keys IH]; cbn [bearer_among]; [destruct Hin|].
  destruct Hin as [->|Hin].
  - destruct Hh as [Hh | (vs & Hh & Hv)]; rewrite Hh.
    + rewrite Hp. apply truthy_true in Ht. rewrite Ht. eauto.
    + destruct (first_bearer_is_Some vs v t Hv Hp Ht) as [tok ->]. eauto.
  - specialize (IH Hin).
    destruct (hs !! k) as [[raw|vs]|]; [| |exact IH].
    + destruct (parseBearerToken (Some raw)) as [tok|]; [|exact IH].
      destruct (JS.truthy tok); [eauto|exact IH].
    + destruct (first_bearer vs); [eauto|exact IH].
Qed.

(** X1.  [getBearerFromHeaders] answers nothing without headers.  What it
    answers is never empty and is what [parseBearerToken] reads in a value
    held under one of the eight header names; it answers a token as soon
    as one of these values holds a non-empty one; and a non-empty token in
    a string under [authorization], the first name, is the answer whatever
    the other headers hold. *)
Theorem getBearerFromHeaders_spec (hs : gmap string header_value) :
  getBearerFromHeaders None = None
  /\ (forall t, getBearerFromHeaders (Some hs) = Some t ->
        t <> ""
        /\ exists key v, In key bearer_candidates /\ Spec.header_has hs key v
                         /\ parseBearerToken (Some v) = Some t)
  /\ (forall key v t,
        In key bearer_candidates -> Spec.header_has hs key v ->
        parseBearerToken (Some v) = Some t -> t <> "" ->
        is_Some (getBearerFromHeaders (Some hs)))
  /\ (forall v t,
        hs !! "authorization" = Some (HString v) ->
        parseBearerToken (Some v) = Some t -> t <> "" ->
        getBearerFromHeaders (Some hs) = Some t).
Proof.
  split; [reflexivity|]. unfold getBearerFromHeaders.
  split; [intros t; apply bearer_among_Some|].
  split; [intros key v t; apply bearer_among_is_Some|].
  intros v t Hh Hp Ht. unfold bearer_candidates. cbn [bearer_among].
  rewrite Hh, Hp. apply truthy_true in Ht. rewrite Ht. reflexivity.
Qed.

Lemma getBearerFromHeaders_spec_witness :
  getBearerFromHeaders
    (Some {[ "authorization" := HString "Bearer abc";
             "x-mcp-auth" := HArray ["Bearer other"] ]})
  = Some "abc".
Proof.
  apply (getBearerFromHeaders_spec
           {[ "authorization" := HString "Bearer abc";
              "x-mcp-auth" := HArray ["Bearer other"] ]}) with (v := "Bearer abc").
  - vm_compute. reflexivity.
  - reflexivity.
  - discriminate.
Defined.

End HeaderReaders.

(** ** Routing *)

Section Routing.
Import Client.

Lemma prefix_app (p s : string) :
  String.prefix p s = true <-> exists r, s = p +:+ r.
Proof.
  revert s. induction p as [|a p IH]; intros s.
  - split; [intros _; exists s; reflexivity|intros _; destruct s; reflexivity].
  - destruct s as [|b s]; simpl;
      [split; [discriminate|intros [r Hr]; discriminate]|].
    destruct (ascii_dec a b) as [->|Hab].
    + rewrite IH. split; intros [r Hr]; exists r.
      * rewrite Hr. reflexivity.
      * rewrite append_cons in Hr. congruence.
    + split; [discriminate|]. intros [r Hr].
      rewrite append_cons in Hr. congruence.
Qed.

Lemma slice_app (p r : string) : slice (String.length p) (p +:+ r) = r.
Proof. induction p as [|a p IH]; simpl; [destruct r; reflexivity|exact IH]. Qed.

Lemma stripMcpPrefix_prefixed (q : string) :
  startsWith q "/" = true -> stripMcpPrefix ("/mcp" +:+ q) = q.
Proof.
  intros Hq. apply prefix_app in Hq as [r ->].
  unfold stripMcpPrefix, startsWith.
  assert (H : String.prefix "/mcp/" ("/mcp" +:+ "/" +:+ r) = true)
    by (apply prefix_app; exists r; reflexivity).
  rewrite H. reflexivity.
Qed.

Lemma stripMcpPrefix_other (p : string) :
  startsWith p "/mcp/" = false -> stripMcpPrefix p = p.
Proof. intros Hp. unfold stripMcpPrefix. rewrite Hp. reflexivity. Qed.

(** X3.  [stripMcpPrefix] undoes the prefixing of a path with [/mcp]: it
    takes [/mcp] off a path that goes on with a slash, so that what is
    left starts with that slash, and it leaves every other path, [/mcp]
    itself included, as it is. *)
Theorem stripMcpPrefix_spec (p : string) :
  (forall q, startsWith q "/" = true -> stripMcpPrefix ("/mcp" +:+ q) = q)
  /\ (startsWith p "/mcp/" = true ->
      "/mcp" +:+ stripMcpPrefix p = p
      /\ startsWith (stripMcpPrefix p) "/" = true)
  /\ (startsWith p "/mcp/" = false -> stripMcpPrefix p = p)
  /\ stripMcpPrefix "/mcp" = "/mcp".
Proof.
  split; [|split; [|split; [|reflexivity]]].
  - apply stripMcpPrefix_prefixed.
  - intros Hp. unfold stripMcpPrefix. rewrite Hp.
    apply prefix_app in Hp as [r ->]. split; [reflexivity|].
    apply prefix_app. exists r. reflexivity.
  - apply stripMcpPrefix_other.
Qed.

Lemma stripMcpPrefix_spec_witness :
  stripMcpPrefix "/mcp/oauth/token" = "/oauth/token"
  /\ "/mcp" +:+ stripMcpPrefix "/mcp/.well-known/x" = "/mcp/.well-known/x"
  /\ stripMcpPrefix "/mcpx/y" = "/mcpx/y".
Proof.
  split; [|split].
  - apply (proj1 (stripMcpPrefix_spec "") "/oauth/token"). reflexivity.
  - apply (stripMcpPrefix_spec "/mcp/.well-known/x"). reflexivity.
  - apply (stripMcpPrefix_spec "/mcpx/y"). reflexivity.
Defined.

(** X4.  Every OAuth and discovery route is served under the prefix
    [/mcp] as at the root: if a request for the path [q], which starts
    with a slash and not with [/mcp/], is answered by one of these routes,
    the same request for [/mcp] followed by [q] is answered alike. *)
Theorem oauth_routes_under_mcp_prefix (m q : string) (hs : gmap string string)
    (st : state) :
  startsWith q "/" = true -> startsWith q "/mcp/" = false ->
  Spec.oauth_route (listener (mkRequest m q hs) st).1 = true ->
  listener (mkRequest m ("/mcp" +:+ q) hs) st = listener (mkRequest m q hs) st.
Proof.
  intros Hq Hn.
  unfold listener. simpl.
  rewrite (stripMcpPrefix_prefixed q Hq), (stripMcpPrefix_other q Hn).
  listener_cases.
Qed.

Lemma oauth_routes_under_mcp_prefix_witness :
  listener (mkRequest "POST" "/mcp/oauth/callback" ∅) (mkState ∅ None)
  = (OAuthCallback, mkState ∅ None).
Proof.
  rewrite (oauth_routes_under_mcp_prefix "POST" "/oauth/callback" ∅
             (mkState ∅ None)); reflexivity.
Defined.

(** The answers of the routes and guards. *)
Lemma listener_guards (req : request) (st : state) :
  let d := (listener req st).1 in
  let auth := JS.truthy_opt (headers req !! "authorization") in
  let under := startsWith (pathname req) "/mcp" in
  (d = ToTransport -> under = true /\ auth = true /\ method req <> "OPTIONS")
  /\ (d = McpPreflight -> under = true /\ auth = true /\ method req = "OPTIONS")
  /\ (Spec.oauth_route d = false -> under = true -> auth = false ->
      d = Unauthorized)
  /\ (Spec.oauth_route d = false -> under = false -> d = NotFound)
  /\ (d <> ToTransport -> (listener req st).2 = st).
Proof.
  unfold listener.
  destruct (JS.truthy_opt (headers req !! "authorization")) eqn:Ha;
    destruct (startsWith (pathname req) "/mcp") eqn:Hu;
    destruct (String.eqb_spec (method req) "OPTIONS") as [Hm|Hm];
    listener_cases; repeat split; intros; try congruence; try discriminate; auto.
Qed.

End Routing.

(** ** What the listener lets through *)

Section Gate.
Import Client.
Variable JSON : Type.
Variable JSON_parse : string -> option JSON.

Lemma length_zero (s : string) : Nat.ltb 0 (String.length s) = false <-> s = "".
Proof.
  destruct s; [split; reflexivity|].
  split; [cbn; discriminate|discriminate].
Qed.

Lemma length_pos (s : string) : Nat.ltb 0 (String.length s) = true <-> s <> "".
Proof.
  destruct s; [split; [cbn; discriminate|congruence]|].
  split; [discriminate|reflexivity].
Qed.

(** The outcomes of the [try] of lines 741-752. *)
Lemma deliver_Delivered (req : request) (rawBody : option string)
    (b : option JSON) :
  deliver JSON_parse req rawBody = Delivered b
  <-> (method req <> "POST" /\ b = None)
      \/ (method req = "POST"
          /\ exists raw, rawBody = Some raw
               /\ ((raw = "" /\ b = None)
                   \/ (raw <> "" /\ b <> None /\ JSON_parse raw = b))).
Proof.
  unfold deliver. destruct (String.eqb_spec (method req) "POST") as [Hm|Hm].
  - destruct rawBody as [raw|].
    + destruct (Nat.ltb 0 (String.length raw)) eqn:Hl.
      * assert (Hne : raw <> "") by (apply length_pos; exact Hl).
        destruct (JSON_parse raw) as [v|] eqn:Hv; split.
        -- intros [= <-]. right. split; [exact Hm|]. exists raw.
           split; [reflexivity|]. right. rewrite Hv. repeat split; congruence.
        -- intros [[H _] | (_ & raw' & [= <-] & [[H _] | (_ & _ & H)])];
             congruence.
        -- discriminate.
        -- intros [[H _] | (_ & raw' & [= <-] & [[H _] | (_ & Hb & H)])];
             congruence.
      * apply length_zero in Hl as ->. split.
        -- intros [= <-]. right. split; [exact Hm|]. exists "". auto.
        -- intros [[H _] | (_ & raw' & [= <-] & [[_ ->] | (H & _)])];
             congruence.
    + split; [discriminate|].
      intros [[H _] | (_ & raw' & H & _)]; [contradiction|discriminate].
  - split.
    + intros [= <-]. left. auto.
    + intros [[_ ->] | (H & _)]; [reflexivity|contradiction].
Qed.

Lemma deliver_InternalError (req : request) (rawBody : option string) :
  deliver JSON_parse req rawBody = InternalError
  <-> method req = "POST"
      /\ (rawBody = None
          \/ exists raw, rawBody = Some raw /\ raw <> ""
                         /\ JSON_parse raw = None).
Proof.
  unfold deliver. destruct (String.eqb_spec (method req) "POST") as [Hm|Hm].
  - destruct rawBody as [raw|].
    + destruct (Nat.ltb 0 (String.length raw)) eqn:Hl.
      * assert (Hne : raw <> "") by (apply length_pos; exact Hl).
        destruct (JSON_parse raw) as [v|] eqn:Hv; split.
        -- discriminate.
        -- intros (_ & [H | (raw' & [= <-] & _ & H)]); congruence.
        -- intros _. split; [exact Hm|]. right. exists raw. auto.
        -- reflexivity.
      * apply length_zero in Hl as ->. split; [discriminate|].
        intros (_ & [H | (raw' & [= <-] & H & _)]); congruence.
    + split; [auto|reflexivity].
  - split; [discriminate|]. intros [H _]. contradiction.
Qed.

Lemma deliver_not_Answered (req : request) (rawBody : option string)
    (d : disposition) :
  deliver JSON_parse req rawBody <> Answered d.
Proof.
  unfold deliver. destruct (String.eqb (method req) "POST"); [|discriminate].
  destruct rawBody as [raw|]; [|discriminate].
  destruct (Nat.ltb 0 (String.length raw)); [|discriminate].
  destruct (JSON_parse raw); discriminate.
Qed.

(** The listener either answers by a route or a guard and leaves the
    stores alone, or writes the stores and enters the [try]. *)
Lemma requestListener_cases (req : request) (rawBody : option string)
    (st : state) :
  (exists d, d <> ToTransport /\ (listener req st).1 = d
             /\ requestListener JSON_parse req rawBody st = (Answered d, st))
  \/ ((listener req st).1 = ToTransport
      /\ requestListener JSON_parse req rawBody st
         = (deliver JSON_parse req rawBody,
            bind_credentials (headers req !! "authorization")
                             (headers req !! "mcp-session-id") st)).
Proof.
  unfold requestListener.
  destruct (listener_state req st) as [[Hd Hst] | (Hd & _ & Hst)];
    destruct (listener req st) as [d st']; simpl in *; subst.
  - left. exists d. split; [exact Hd|]. split; [reflexivity|].
    destruct d; try reflexivity. contradiction.
  - right. split; reflexivity.
Qed.

(** X5.  What the listener lets through.  The transport is called only
    for a request under [/mcp] with a non-empty Authorization header and a
    method other than OPTIONS, and for a POST only when its body could be
    read and is empty or parses as JSON; a POST that got as far and whose
    body could not be read or does not parse is answered 500 without the
    transport.  The preflight answer to OPTIONS under [/mcp] likewise
    needs the header.  A request under [/mcp] without it that no OAuth or
    discovery route takes is answered 401 whatever its method, and one
    outside [/mcp] that no such route takes is answered 404.  A request
    answered by a route or a guard leaves the stores as they are; one that
    is handed to the transport or answered 500 has written them as lines
    727-739 do, whatever its body. *)
Theorem listener_gate (req : request) (rawBody : option string) (st : state) :
  let r := requestListener JSON_parse req rawBody st in
  let auth := JS.truthy_opt (headers req !! "authorization") in
  let under := startsWith (pathname req) "/mcp" in
  (forall b, r.1 = Delivered b ->
     under = true /\ auth = true /\ method req <> "OPTIONS"
     /\ (method req <> "POST" -> b = None)
     /\ (method req = "POST" ->
         exists raw, rawBody = Some raw
                     /\ ((raw = "" /\ b = None)
                         \/ (raw <> "" /\ b <> None /\ JSON_parse raw = b))))
  /\ (r.1 = InternalError ->
      under = true /\ auth = true /\ method req = "POST"
      /\ (rawBody = None
          \/ exists raw, rawBody = Some raw /\ raw <> ""
                         /\ JSON_parse raw = None))
  /\ (r.1 = Answered McpPreflight ->
      under = true /\ auth = true /\ method req = "OPTIONS")
  /\ (forall d, r.1 = Answered d ->
        r.2 = st
        /\ (Spec.oauth_route d = false -> under = true -> auth = false ->
            d = Unauthorized)
        /\ (Spec.oauth_route d = false -> under = false -> d = NotFound))
  /\ ((forall d, r.1 <> Answered d) ->
      r.2 = bind_credentials (headers req !! "authorization")
                             (headers req !! "mcp-session-id") st).
Proof.
  intros r auth under. subst r auth under.
  pose proof (listener_guards req st) as Hg. cbv zeta in Hg.
  destruct Hg as (Ht & Hp & H401 & H404 & _).
  destruct (requestListener_cases req rawBody st)
    as [(d & Hd & Hl & ->) | (Hl & ->)]; simpl.
  - subst d.
    split; [discriminate|]. split; [discriminate|].
    split; [intros [= Heq]; apply Hp; exact Heq|].
    split.
    + intros d' [= Heq]. subst d'.
      split; [reflexivity|]. split; [exact H401|exact H404].
    + intros H. exfalso. apply (H (listener req st).1). reflexivity.
  - destruct (Ht Hl) as (Hu & Ha & Hm).
    split.
    { intros b Hb. apply deliver_Delivered in Hb.
      split; [exact Hu|]. split; [exact Ha|]. split; [exact Hm|].
      destruct Hb as [[Hnp ->] | (Hpost & Hraw)].
      - split; [reflexivity|contradiction].
      - split; [contradiction|intros _; exact Hraw]. }
    split.
    { intros He. apply deliver_InternalError in He as [Hpost Hraw]. auto. }
    split.
    { intros He. exfalso. exact (deliver_not_Answered _ _ _ He). }
    split.
    { intros d He. exfalso. exact (deliver_not_Answered _ _ _ He). }
    reflexivity.
Qed.

End Gate.

Lemma listener_gate_witness :
  let parse := fun s : string => if String.prefix "{" s then Some s else None in
  let req := Client.mkRequest "POST" "/mcp"
               {[ "authorization" := "Bearer Au.tok"; "mcp-session-id" := "S1" ]} in
  let r := Client.requestListener parse req (Some "not json")
             (Client.mkState ∅ None) in
  r.1 = Client.InternalError
  /\ Client.sessionTokens r.2 !! "S1" = Some "Au.tok".
Proof.
  intros parse req r.
  destruct (listener_gate string parse req (Some "not json")
              (Client.mkState ∅ None)) as (_ & _ & _ & _ & Hst).
  split; [reflexivity|].
  subst r. rewrite Hst; [vm_compute; reflexivity|].
  intros d. vm_compute. discriminate.
Defined.


(** ** The session store over all requests *)

Section SessionStore.
Import Client.

(** What [parseBearerToken] answers has no space and no white space
    around it. *)
Lemma parseBearerToken_clean (h t : string) :
  parseBearerToken (Some h) = Some t ->
  Spec.has_char " " t = false /\ JS.trim t = t.
Proof.
  intros H. apply parseBearerToken_pieces in H
    as (scheme & value & ps & Hsplit & _ & _ & _ & ->).
  destruct (proj1 (split_two " " h scheme value) (ex_intro _ ps Hsplit))
    as (rest & _ & _ & Hv & _).
  split; [apply trim_has_char, Hv|apply trim_idempotent].
Qed.

(** A clean credential after [Bearer] and a space is read back as it is. *)
Lemma parseBearerToken_Bearer (t : string) :
  Spec.clean_token t -> parseBearerToken (Some ("Bearer " +:+ t)) = Some t.
Proof.
  intros (Hne & Hsp & Htrim).
  apply parseBearerToken_pieces. exists "Bearer", t, [].
  split; [|repeat split; [discriminate|exact Hne|symmetry; exact Htrim]].
  change ("Bearer " +:+ t) with ("Bearer" +:+ String " " t).
  rewrite split_piece by reflexivity. rewrite (split_whole _ _ Hsp). reflexivity.
Qed.

Lemma bind_credentials_clean (auth sid : option string) (st : state) :
  Spec.clean_state st -> Spec.clean_state (bind_credentials auth sid st).
Proof.
  intros [Hs Hp]. unfold bind_credentials.
  destruct (JS.truthy_opt auth) eqn:Ha.
  - destruct auth as [h|]; [|discriminate].
    destruct (parseBearerToken (Some h)) as [tok|] eqn:Hparse; [|split; assumption].
    destruct (JS.truthy tok) eqn:Ht; [|split; assumption].
    assert (Hclean : Spec.clean_token tok).
    { apply truthy_true in Ht. destruct (parseBearerToken_clean h tok Hparse).
      repeat split; assumption. }
    destruct sid as [s|]; [destruct (JS.truthy s) eqn:Hsid|]; simpl.
    + split; simpl; [|intros t [= <-]; exact Hclean].
      intros k v. destruct (decide (s = k)) as [<-|Hne].
      * rewrite lookup_insert_eq. intros [= <-]. apply truthy_true in Hsid. auto.
      * rewrite lookup_insert_ne by done. apply Hs.
    + split; simpl; [exact Hs|intros t [= <-]; exact Hclean].
    + split; simpl; [exact Hs|intros t [= <-]; exact Hclean].
  - assert (Hst : Spec.clean_state st) by (split; assumption).
    destruct sid as [s|]; [|exact Hst].
    destruct (pendingToken st) as [p|] eqn:Hpend; [|exact Hst].
    destruct (JS.truthy s) eqn:Hsid; simpl; [|exact Hst].
    destruct (JS.truthy p); simpl; [|exact Hst].
    split; simpl.
    + intros k v. destruct (decide (s = k)) as [<-|Hne].
      * rewrite lookup_insert_eq. intros [= <-]. apply truthy_true in Hsid.
        split; [exact Hsid|]. apply (proj2 Hst). exact Hpend.
      * rewrite lookup_insert_ne by done. apply Hs.
    + intros tok Htok. apply (proj2 Hst). congruence.
Qed.

Lemma listener_clean (req : request) (st : state) :
  Spec.clean_state st -> Spec.clean_state (listener req st).2.
Proof.
  intros H. destruct (listener_state req st) as [[_ ->] | (_ & _ & ->)];
    [exact H|apply bind_credentials_clean, H].
Qed.

(** X6.  Whatever requests the listener has handled since the start, and
    from any state in which it already held: every session id bound in the
    session-token store is not empty, and every credential held, bound or
    pending, is not empty, has no space in it and no white space around
    it.  So a tool handler never resolves a session to the empty
    credential. *)
Theorem session_store_clean (rs : list request) :
  Spec.clean_state (Spec.listen_all rs (mkState ∅ None))
  /\ (forall st, Spec.clean_state st -> Spec.clean_state (Spec.listen_all rs st))
  /\ (forall e tok,
        handler_userToken e (Spec.listen_all rs (mkState ∅ None)) = Some tok ->
        tok <> "").
Proof.
  assert (Hall : forall st, Spec.clean_state st ->
                            Spec.clean_state (Spec.listen_all rs st)).
  { induction rs as [|r rs IH]; intros st H; simpl; [exact H|].
    apply IH, listener_clean, H. }
  assert (H0 : Spec.clean_state (mkState ∅ None)).
  { split; simpl; [intros sid tok H; rewrite lookup_empty in H|]; discriminate. }
  split; [apply Hall, H0|]. split; [exact Hall|].
  intros e tok. specialize (Hall _ H0). destruct Hall as [Hs Hp].
  unfold handler_userToken.
  destruct (resolveSessionId e) as [sid|]; [destruct (JS.truthy sid)|];
    intros H; (apply Hs in H || apply Hp in H); apply H.
Qed.

Lemma session_store_clean_witness :
  let st := mkState {[ "S1" := "U1" ]} (Some "U1") in
  let r := mkRequest "POST" "/mcp"
             {[ "authorization" := "Bearer  U2"; "mcp-session-id" := "S2" ]} in
  Spec.clean_state (Spec.listen_all [r] st).
Proof.
  intros st r.
  apply (proj1 (proj2 (session_store_clean [r])) st).
  split; simpl.
  - intros sid tok H. apply lookup_singleton_Some in H as [<- <-].
    repeat split; discriminate || reflexivity.
  - intros tok [= <-]. repeat split; discriminate || reflexivity.
Defined.

(** X7.  Sessions are kept apart and never dropped.  A request leaves the
    binding of every session id other than the one in its own
    [mcp-session-id] header as it is; and over any sequence of requests a
    session id that was bound stays bound, and a pending slot that was
    filled stays filled: nothing removes a credential from either store. *)
Theorem session_bindings_persist (st : state) :
  (forall (req : request) (sid : string),
     headers req !! "mcp-session-id" <> Some sid ->
     sessionTokens (listener req st).2 !! sid = sessionTokens st !! sid)
  /\ (forall (rs : list request) (sid : string),
        is_Some (sessionTokens st !! sid) ->
        is_Some (sessionTokens (Spec.listen_all rs st) !! sid))
  /\ (forall rs : list request,
        is_Some (pendingToken st) ->
        is_Some (pendingToken (Spec.listen_all rs st))).
Proof.
  split; [|split].
  - intros req sid Hne. apply listener_keeps_binding. left. exact Hne.
  - intros rs. revert st. induction rs as [|r rs IH]; intros st sid H; simpl;
      [exact H|].
    apply IH.
    destruct (bind_credentials_sessionTokens (headers r !! "authorization")
                (headers r !! "mcp-session-id") st)
      as [He | (s & tok & _ & _ & _ & He)];
      destruct (listener_state r st) as [[_ ->] | (_ & _ & ->)];
      try exact H; rewrite He; [exact H|].
    destruct (decide (s = sid)) as [->|Hne];
      [rewrite lookup_insert_eq; eauto|rewrite lookup_insert_ne by done; exact H].
  - intros rs. revert st. induction rs as [|r rs IH]; intros st H; simpl;
      [exact H|].
    apply IH. destruct H as [tok Htok].
    destruct (listener_pendingToken r st) as [-> | (t & _ & _ & ->)]; eauto.
Qed.

Lemma session_bindings_persist_witness :
  let st := mkState {[ "S1" := "U1" ]} (Some "U1") in
  let r := mkRequest "POST" "/mcp"
             {[ "authorization" := "Bearer U2"; "mcp-session-id" := "S2" ]} in
  sessionTokens (listener r st).2 !! "S1" = Some "U1"
  /\ is_Some (sessionTokens (Spec.listen_all [r; r] st) !! "S1").
Proof.
  intros st r. split.
  - rewrite (proj1 (session_bindings_persist st) r "S1"); [reflexivity|].
    vm_compute. discriminate.
  - apply (proj1 (proj2 (session_bindings_persist st))). eexists. reflexivity.
Defined.

End SessionStore.

(** ** The API client's request *)

Section ApiRequest.
Import AppleMusicAPI.








(** X21.  A catalog request never carries the credential of a user:
    whatever manual token is stored, it is sent, to the base URL followed
    by the path, with exactly the two headers Authorization, [Bearer] and
    the developer token, and Content-Type, [application/json]. *)
Theorem catalog_call_sends_no_user_token (musicUserToken : option string)
    (devToken path : string) :
  exists hs,
    catalog_call musicUserToken devToken path = Fetch (baseUrl +:+ path) hs
    /\ hs !! "Music-User-Token" = None
    /\ forall k v, hs !! k = Some v <->
                   (k = "Authorization" /\ v = "Bearer " +:+ devToken)
                   \/ (k = "Content-Type" /\ v = "application/json").
Proof.
  unfold catalog_call, request_prepare. eexists. split; [reflexivity|].
  simpl. rewrite (lookup_insert_ne _ "Authorization" "Content-Type")
    by discriminate.
  rewrite lookup_empty. simpl. split; [reflexivity|].
  intros k v. destruct (decide (k = "Content-Type")) as [->|Hct].
  - rewrite lookup_insert_eq. split.
    + intros [= <-]. right. auto.
    + intros [[H _] | [_ ->]]; [discriminate|reflexivity].
  - rewrite lookup_insert_ne by congruence.
    destruct (decide (k = "Authorization")) as [->|Ha].
    + rewrite lookup_insert_eq. split.
      * intros [= <-]. left. auto.
      * intros [[_ ->] | [H _]]; [reflexivity|discriminate].
    + rewrite lookup_insert_ne by congruence. rewrite lookup_empty. split.
      * discriminate.
      * intros [[H _] | [H _]]; contradiction.
Qed.

End ApiRequest.

(** ** The stateless handshake, end to end *)

Section StatelessHandshake.
Import Http Client.
Variable URL_new : string -> option JS.URL.
Variable JSON : Type.
Variable JSON_parse : string -> option JSON.

(** X8.  In the stateless mode the user credential goes round unchanged.
    Take a credential [T] that is not empty, has no space in it and no
    white space around it.  A callback that posts [T] with a non-empty
    state [S] and a non-empty redirect target [R] that parses as a URL is
    answered by a redirect whose [code] is [T] and whose [state] is [S].
    The token exchange of that code grants [T] itself as access token, of
    type Bearer.  A POST to [/mcp] that presents it as [Bearer T] gets
    past the guards and writes the stores whatever its body: [T] is in the
    pending slot and bound to the session id of the request if it has a
    non-empty one; the transport is then called if the body could be read
    and is empty or parses as JSON, and the request is answered 500
    otherwise.  With these stores a tool handler resolves [T] for every
    extra whose session id resolves to none or to the session id of the
    request, in particular for the extra of the request whether the
    transport adds that session id or none; and a library tool that
    resolved [T] sends [T] as Music-User-Token. *)
Theorem stateless_handshake_round_trip (T : string)
    (callback exchange : list (string * string)) (S R : string) (u : JS.URL)
    (req : request) (rawBody : option string) (st : state) :
  Spec.clean_token T ->
  JS.params_get "music_user_token" callback = Some T ->
  JS.params_get "state" callback = Some S -> S <> "" ->
  JS.params_get "redirect_uri" callback = Some R -> R <> "" ->
  URL_new R = Some u ->
  JS.params_get "grant_type" exchange = Some "authorization_code" ->
  JS.params_get "code" exchange = Some T ->
  pathname req = "/mcp" -> method req = "POST" ->
  headers req !! "authorization" = Some ("Bearer " +:+ T) ->
  let r := requestListener JSON_parse req rawBody st in
  let st' := r.2 in
  (exists loc,
     handleOAuthCallback URL_new callback = Redirect loc
     /\ JS.params_get "code" (JS.searchParams loc) = Some T
     /\ JS.params_get "state" (JS.searchParams loc) = Some S)
  /\ handleOAuthToken exchange
     = TokenGranted T "Bearer" 7776000 "music.library.read music.library.write"
  /\ r.1 = deliver JSON_parse req rawBody
  /\ (forall raw, rawBody = Some raw -> raw = "" -> r.1 = Delivered None)
  /\ (forall raw v, rawBody = Some raw -> raw <> "" -> JSON_parse raw = Some v ->
        r.1 = Delivered (Some v))
  /\ ((rawBody = None
       \/ exists raw, rawBody = Some raw /\ raw <> "" /\ JSON_parse raw = None) ->
      r.1 = InternalError)
  /\ pendingToken st' = Some T
  /\ (forall sid, headers req !! "mcp-session-id" = Some sid -> sid <> "" ->
        sessionTokens st' !! sid = Some T)
  /\ (forall e, resolveSessionId e = None -> handler_userToken e st' = Some T)
  /\ (forall e sid,
        resolveSessionId e = Some sid -> sid <> "" ->
        headers req !! "mcp-session-id" = Some sid ->
        handler_userToken e st' = Some T)
  /\ (forall ts sid,
        headers req !! "mcp-session-id" = Some sid -> sid <> "" ->
        ts = None \/ ts = Some sid ->
        handler_userToken (Some (extra_of ts req)) st' = Some T)
  /\ (forall e m devToken path,
        handler_userToken e st' = Some T ->
        exists url hs,
          AppleMusicAPI.library_call m devToken path e st'
          = AppleMusicAPI.Fetch url hs
          /\ hs !! "Music-User-Token" = Some T).
Proof.
  intros HT Hct Hcs HS Hcr HR Hu Hg Hc Hpath Hm Hauth r st'.
  assert (HTne : JS.truthy T = true) by (apply truthy_true, HT).
  assert (Hparse : parseBearerToken (Some ("Bearer " +:+ T)) = Some T)
    by apply parseBearerToken_Bearer, HT.
  assert (Hroute : listener req st
                   = (ToTransport,
                      bind_credentials (Some ("Bearer " +:+ T))
                                       (headers req !! "mcp-session-id") st)).
  { unfold listener. rewrite Hpath, Hm, Hauth. reflexivity. }
  assert (Hr : r = (deliver JSON_parse req rawBody,
                    bind_credentials (Some ("Bearer " +:+ T))
                                     (headers req !! "mcp-session-id") st)).
  { unfold r, requestListener. rewrite Hroute. reflexivity. }
  assert (Hst' : st' = bind_credentials (Some ("Bearer " +:+ T))
                         (headers req !! "mcp-session-id") st)
    by (unfold st'; rewrite Hr; reflexivity).
  rewrite (bind_credentials_bearer _ T _ st Hparse (proj1 HT)) in Hst'.
  assert (Hbound : forall sid, headers req !! "mcp-session-id" = Some sid ->
                               sid <> "" -> sessionTokens st' !! sid = Some T).
  { intros sid Hsid Hne. rewrite Hst', Hsid.
    apply truthy_true in Hne. rewrite Hne. simpl. apply lookup_insert_eq. }
  assert (Hres : forall e sid, resolveSessionId e = Some sid -> sid <> "" ->
                   headers req !! "mcp-session-id" = Some sid ->
                   handler_userToken e st' = Some T).
  { intros e sid He Hne Hsid. unfold handler_userToken. rewrite He.
    rewrite (proj2 (truthy_true sid) Hne). apply Hbound; assumption. }
  split.
  { exists (JS.url_set "state" S (JS.url_set "code" T u)).
    split; [|apply (redirect_query u T S)].
    apply stateless_callback_redirect. exists T, S, R, u.
    repeat split; try assumption. apply HT. }
  split.
  { unfold handleOAuthToken. rewrite Hg, Hc. simpl. rewrite HTne. reflexivity. }
  split; [rewrite Hr; reflexivity|].
  split.
  { intros raw -> ->. rewrite Hr. simpl. unfold deliver. rewrite Hm.
    reflexivity. }
  split.
  { intros raw v -> Hne Hv. rewrite Hr. simpl. unfold deliver. rewrite Hm.
    simpl. rewrite (proj2 (length_pos raw) Hne), Hv. reflexivity. }
  split.
  { intros Hbad. rewrite Hr. simpl. apply deliver_InternalError.
    split; [exact Hm|exact Hbad]. }
  split.
  { rewrite Hst'. destruct (headers req !! "mcp-session-id") as [s|];
      [destruct (JS.truthy s)|]; reflexivity. }
  split; [exact Hbound|].
  split.
  { intros e He. unfold handler_userToken. rewrite He, Hst'.
    destruct (headers req !! "mcp-session-id") as [s|];
      [destruct (JS.truthy s)|]; reflexivity. }
  split; [exact Hres|].
  split.
  { intros ts sid Hsid Hne Hts.
    rewrite (handler_userToken_session ts req sid st' Hsid Hne Hts).
    apply Hbound; assumption. }
  intros e m devToken path He.
  unfold AppleMusicAPI.library_call, AppleMusicAPI.request_prepare.
  rewrite He. simpl. rewrite HTne. simpl. rewrite HTne. simpl.
  do 2 eexists. split; [reflexivity|]. apply lookup_insert_eq.
Qed.

End StatelessHandshake.

Lemma stateless_handshake_round_trip_witness :
  let parse := fun s : string => if String.prefix "{" s then Some s else None in
  let req := Client.mkRequest "POST" "/mcp"
               {[ "authorization" := "Bearer Au.tok"; "mcp-session-id" := "S1" ]} in
  let r := Client.requestListener parse req (Some "{}") (Client.mkState ∅ None) in
  Client.handleOAuthToken [("grant_type", "authorization_code"); ("code", "Au.tok")]
  = Http.TokenGranted "Au.tok" "Bearer" 7776000
      "music.library.read music.library.write"
  /\ r.1 = Client.Delivered (Some "{}")
  /\ Client.handler_userToken (Some (Client.extra_of (Some "S1") req)) r.2
     = Some "Au.tok".
Proof.
  intros parse req r.
  assert (Hclean : Spec.clean_token "Au.tok")
    by (repeat split; discriminate || reflexivity).
  destruct (stateless_handshake_round_trip
              (fun s => Some (JS.mkURL s [])) string parse "Au.tok"
              [("music_user_token", "Au.tok"); ("state", "xyz");
               ("redirect_uri", "https://c.example/cb")]
              [("grant_type", "authorization_code"); ("code", "Au.tok")]
              "xyz" "https://c.example/cb" (JS.mkURL "https://c.example/cb" [])
              req (Some "{}") (Client.mkState ∅ None) Hclean eq_refl eq_refl
              ltac:(discriminate) eq_refl ltac:(discriminate) eq_refl
              eq_refl eq_refl eq_refl eq_refl eq_refl)
    as (_ & Hex & _ & _ & Hdel & _ & _ & _ & _ & _ & Hsid & _).
  split; [exact Hex|].
  split; [apply (Hdel "{}" "{}"); [reflexivity|discriminate|reflexivity]|].
  apply (Hsid (Some "S1") "S1");
    [vm_compute; reflexivity|discriminate|right; reflexivity].
Defined.

(** ** The stores of the OAuth server over a handshake *)

Section OAuthServerRuns.
Import Http OAuthServer.
Variable URL_new : string -> option JS.URL.

Lemma store_eq (a b : store) :
  pendingStates a = pendingStates b -> userTokens a = userTokens b -> a = b.
Proof. destruct a, b. simpl. intros -> ->. reflexivity. Qed.

(** X18.  Sweeps compose: a sweep after a sweep is the sweep at the later
    of the two times, so that sweeping is idempotent and the order of two
    sweeps does not matter; what survives a sweep is not expired at its
    time; a sweep of a store with nothing expired changes nothing; and no
    sweep touches the user tokens, whose expired records stay until they
    are looked up. *)
Theorem sweep_algebra (t1 t2 : Z) (st : store) :
  sweep t2 (sweep t1 st) = sweep (Z.max t1 t2) st
  /\ sweep t1 (sweep t1 st) = sweep t1 st
  /\ sweep t2 (sweep t1 st) = sweep t1 (sweep t2 st)
  /\ (forall state d, pendingStates (sweep t1 st) !! state = Some d ->
                      t1 <= ps_expiresAt d)
  /\ ((forall state d, pendingStates st !! state = Some d ->
                       t1 <= ps_expiresAt d) -> sweep t1 st = st)
  /\ userTokens (sweep t1 st) = userTokens st.
Proof.
  assert (Hcomp : forall a b, sweep b (sweep a st) = sweep (Z.max a b) st).
  { intros a b. apply store_eq; [|reflexivity].
    apply map_eq. intros k. apply option_eq. intros d.
    rewrite !sweep_lookup. intuition lia. }
  split; [apply Hcomp|].
  split; [rewrite Hcomp, Z.max_id; reflexivity|].
  split; [rewrite !Hcomp, Z.max_comm; reflexivity|].
  split; [intros state d Hd; apply sweep_lookup in Hd; apply Hd|].
  split; [|reflexivity].
  intros Hall. apply store_eq; [|reflexivity].
  apply map_eq. intros k. apply option_eq. intros d.
  rewrite sweep_lookup. split; [intros [H _]; exact H|].
  intros H. split; [exact H|apply (Hall k d H)].
Qed.

Lemma authorize_record_Some (ps : list (string * string)) (now : Z)
    (st st' : store) :
  authorize_record ps now st = Some st'
  <-> exists redirect state,
        JS.params_get "redirect_uri" ps = Some redirect /\ redirect <> ""
        /\ JS.params_get "state" ps = Some state /\ state <> ""
        /\ st' = mkStore (<[state := mkPending redirect (now + 600000)]>
                            (pendingStates st))
                         (userTokens st).
Proof.
  unfold authorize_record. split.
  - destruct (JS.params_get "redirect_uri" ps) as [r|]; [|discriminate].
    destruct (JS.params_get "state" ps) as [x|]; [|discriminate].
    destruct (JS.truthy r) eqn:Hr; simpl; [|discriminate].
    destruct (JS.truthy x) eqn:Hx; simpl; [|discriminate].
    intros [= <-]. exists r, x. rewrite <- !truthy_true. auto 10.
  - intros (r & x & -> & Hr & -> & Hx & ->).
    apply truthy_true in Hr, Hx. rewrite Hr, Hx. reflexivity.
Qed.

(** What a callback does to the stores, whatever it answers. *)
Lemma callback_store (ps : list (string * string)) (uuid : string) (now : Z)
    (st : store) :
  (handleOAuthCallback URL_new ps uuid now st).2 = st
  \/ exists tok state,
       JS.params_get "state" ps = Some state
       /\ (handleOAuthCallback URL_new ps uuid now st).2
          = mkStore (delete state (pendingStates st))
                    (<[uuid := mkStored tok None]> (userTokens st)).
Proof.
  unfold handleOAuthCallback.
  destruct (JS.params_get "music_user_token" ps) as [tok|]; [|left; reflexivity].
  destruct (JS.params_get "state" ps) as [state|]; [|left; reflexivity].
  destruct (negb (JS.truthy tok) || negb (JS.truthy state)); [left; reflexivity|].
  destruct (pendingStates st !! state) as [d|]; [|left; reflexivity].
  right. exists tok, state. split; [reflexivity|].
  simpl. destruct (URL_new (redirectUri d)); reflexivity.
Qed.

(** What a token exchange does to the stores, whatever it answers. *)
Lemma token_exchange_store (ps : list (string * string)) (uuid : string)
    (now : Z) (st : store) :
  (OAuthToken.handleOAuthToken ps uuid now st).2 = st
  \/ exists code,
       (OAuthToken.handleOAuthToken ps uuid now st).2
       = mkStore (pendingStates st)
                 (<[uuid := mkStored code (Some (now + 7776000000))]>
                    (userTokens st)).
Proof.
  unfold OAuthToken.handleOAuthToken.
  destruct (JS.params_get "grant_type" ps) as [g|]; [|left; reflexivity].
  destruct (JS.params_get "code" ps) as [code|]; [|left; reflexivity].
  destruct (negb (String.eqb g "authorization_code") || negb (JS.truthy code));
    [left; reflexivity|].
  right. exists code. reflexivity.
Qed.

(** What a lookup does to the stores, whatever it answers. *)
Lemma lookup_store (sid : option string) (now : Z) (st : store) :
  (getStoredUserToken sid now st).2 = st
  \/ exists s tok e,
       sid = Some s /\ userTokens st !! s = Some (mkStored tok (Some e))
       /\ e < now
       /\ (getStoredUserToken sid now st).2
          = mkStore (pendingStates st) (delete s (userTokens st)).
Proof.
  unfold getStoredUserToken.
  destruct (negb (JS.truthy_opt sid)); [left; reflexivity|].
  destruct sid as [s|]; [|left; reflexivity].
  destruct (userTokens st !! s) as [[tok [e|]]|] eqn:Hs; simpl;
    [|left; reflexivity|left; reflexivity].
  destruct (JS.truthy_num e && Z.ltb e now) eqn:Hc; [|left; reflexivity].
  right. exists s, tok, e. apply andb_true_iff in Hc as [_ Hlt].
  apply Z.ltb_lt in Hlt. auto.
Qed.

Lemma apply_op_keeps_pending (state : string) (d : PendingState)
    (op : Spec.server_op) (st : store) :
  Spec.spares_state state (ps_expiresAt d) op ->
  pendingStates st !! state = Some d ->
  pendingStates (Spec.apply_op URL_new op st) !! state = Some d.
Proof.
  intros Hop Hd. destruct op as [now|ps now|ps uuid now|ps uuid now|sid now];
    simpl in *.
  - apply sweep_lookup. auto.
  - destruct (authorize_record ps now st) as [st'|] eqn:Ha; simpl; [|exact Hd].
    apply authorize_record_Some in Ha as (r & x & _ & _ & Hx & _ & ->). simpl.
    rewrite lookup_insert_ne by congruence. exact Hd.
  - destruct (callback_store ps uuid now st) as [-> | (tok & x & Hx & ->)];
      [exact Hd|]. simpl.
    rewrite lookup_delete_ne by congruence. exact Hd.
  - destruct (token_exchange_store ps uuid now st) as [-> | (code & ->)];
      exact Hd.
  - destruct (lookup_store sid now st) as [-> | (s & tok & e & _ & _ & _ & ->)];
      exact Hd.
Qed.

Lemma apply_ops_keeps_pending (state : string) (d : PendingState)
    (ops : list Spec.server_op) (st : store) :
  Forall (Spec.spares_state state (ps_expiresAt d)) ops ->
  pendingStates st !! state = Some d ->
  pendingStates (Spec.apply_ops URL_new ops st) !! state = Some d.
Proof.
  intros Hops. revert st. induction Hops as [|op ops Hop _ IH]; intros st Hd.
  - exact Hd.
  - apply IH. apply apply_op_keeps_pending; assumption.
Qed.

Lemma apply_op_keeps_record (sid tok : string) (exp : option Z)
    (op : Spec.server_op) (st : store) :
  Spec.keeps_record sid exp op ->
  userTokens st !! sid = Some (mkStored tok exp) ->
  userTokens (Spec.apply_op URL_new op st) !! sid = Some (mkStored tok exp).
Proof.
  intros Hop Hd. destruct op as [now|ps now|ps uuid now|ps uuid now|s now];
    simpl in *.
  - exact Hd.
  - destruct (authorize_record ps now st) as [st'|] eqn:Ha; simpl; [|exact Hd].
    apply authorize_record_Some in Ha as (r & x & _ & _ & _ & _ & ->). exact Hd.
  - destruct (callback_store ps uuid now st) as [-> | (t & x & _ & ->)];
      [exact Hd|]. simpl.
    rewrite lookup_insert_ne by exact Hop. exact Hd.
  - destruct (token_exchange_store ps uuid now st) as [-> | (code & ->)];
      [exact Hd|]. simpl.
    rewrite lookup_insert_ne by exact Hop. exact Hd.
  - destruct (lookup_store s now st) as [-> | (k & t & e & -> & Hk & Hlt & ->)];
      [exact Hd|]. simpl.
    destruct (decide (k = sid)) as [->|Hne].
    + rewrite Hd in Hk. injection Hk as _ ->.
      specialize (Hop eq_refl). simpl in Hop. lia.
    + rewrite lookup_delete_ne by exact Hne. exact Hd.
Qed.

Lemma apply_ops_keeps_record (sid tok : string) (exp : option Z)
    (ops : list Spec.server_op) (st : store) :
  Forall (Spec.keeps_record sid exp) ops ->
  userTokens st !! sid = Some (mkStored tok exp) ->
  userTokens (Spec.apply_ops URL_new ops st) !! sid = Some (mkStored tok exp).
Proof.
  intros Hops. revert st. induction Hops as [|op ops Hop _ IH]; intros st Hd.
  - exact Hd.
  - apply IH. apply apply_op_keeps_record; assumption.
Qed.

(** X15.  The handshake of [oauthServer.ts] from authorize to callback.
    After an authorize request that recorded, at time [now], the state
    [S] with the redirect target [R], and any further sweeps, authorize
    requests, callbacks, token exchanges and lookups among which no sweep
    is later than [now] + 600000 ms and no authorize or callback names
    [S], a callback that presents [S] with a non-empty credential [T]
    consumes the state and stores [T] under the new session id without an
    expiry, the records of the other sessions being left alone.  If [R]
    parses as a URL the callback is answered by a redirect to [R] with [T]
    as [code] and [S] as [state]; if it does not, [new URL] throws, after
    the state was consumed and the credential stored. *)
Theorem authorize_then_callback (search : list (string * string)) (now : Z)
    (st st1 : store) (ops : list Spec.server_op)
    (params : list (string * string)) (uuid : string) (now' : Z)
    (S R T : string) :
  authorize_record search now st = Some st1 ->
  JS.params_get "state" search = Some S ->
  JS.params_get "redirect_uri" search = Some R ->
  Forall (Spec.spares_state S (now + 600000)) ops ->
  JS.params_get "state" params = Some S ->
  JS.params_get "music_user_token" params = Some T -> T <> "" ->
  let st2 := Spec.apply_ops URL_new ops st1 in
  exists st3,
    (handleOAuthCallback URL_new params uuid now' st2).2 = st3
    /\ pendingStates st3 !! S = None
    /\ userTokens st3 !! uuid = Some (mkStored T None)
    /\ (forall k, k <> uuid -> userTokens st3 !! k = userTokens st2 !! k)
    /\ match URL_new R with
       | Some u =>
           exists loc,
             handleOAuthCallback URL_new params uuid now' st2 = (Redirect loc, st3)
             /\ JS.url_base loc = JS.url_base u
             /\ JS.params_get "code" (JS.searchParams loc) = Some T
             /\ JS.params_get "state" (JS.searchParams loc) = Some S
       | None =>
           handleOAuthCallback URL_new params uuid now' st2 = (Threw, st3)
       end.
Proof.
  intros Ha HS HR Hops HpS HpT HT st2.
  apply authorize_record_Some in Ha as (r & x & Hr & _ & Hx & HSne & ->).
  assert (r = R) by congruence. assert (x = S) by congruence. subst r x.
  assert (Hpend : pendingStates st2 !! S = Some (mkPending R (now + 600000))).
  { apply (apply_ops_keeps_pending S (mkPending R (now + 600000)));
      [exact Hops|]. simpl. apply lookup_insert_eq. }
  apply truthy_true in HT, HSne.
  exists (storeUserToken uuid T None now'
            (mkStore (delete S (pendingStates st2)) (userTokens st2))).
  assert (Hcb : handleOAuthCallback URL_new params uuid now' st2
                = (match URL_new R with
                   | Some u =>
                       Redirect (JS.url_set "state" S (JS.url_set "code" T u))
                   | None => Threw
                   end,
                   storeUserToken uuid T None now'
                     (mkStore (delete S (pendingStates st2)) (userTokens st2)))).
  { unfold handleOAuthCallback. rewrite HpT, HpS, HT, HSne. simpl.
    rewrite Hpend. simpl. destruct (URL_new R); reflexivity. }
  split; [rewrite Hcb; reflexivity|].
  split; [simpl; apply lookup_delete_eq|].
  split; [simpl; apply lookup_insert_eq|].
  split; [intros k Hk; simpl; apply lookup_insert_ne; congruence|].
  rewrite Hcb. destruct (URL_new R) as [u|]; [|reflexivity].
  exists (JS.url_set "state" S (JS.url_set "code" T u)).
  split; [reflexivity|]. split; [reflexivity|].
  split; apply (redirect_query u T S).
Qed.

(** X16.  A credential stored by the callback never expires.  After a
    callback of [oauthServer.ts] that consumed a state, whether it then
    redirected or [new URL] threw, and any further operations that draw
    other session ids, a lookup of the session id of that callback answers
    the credential of the callback at every time, and changes nothing. *)
Theorem callback_credential_never_expires (params : list (string * string))
    (uuid : string) (now : Z) (st : store) (S T : string) (d : PendingState)
    (ops : list Spec.server_op) (t : Z) :
  JS.params_get "music_user_token" params = Some T -> T <> "" ->
  JS.params_get "state" params = Some S -> S <> "" ->
  pendingStates st !! S = Some d ->
  uuid <> "" ->
  Forall (Spec.keeps_record uuid None) ops ->
  let st2 :=
    Spec.apply_ops URL_new ops (handleOAuthCallback URL_new params uuid now st).2 in
  getStoredUserToken (Some uuid) t st2 = (Some T, st2).
Proof.
  intros HpT HT HpS HS Hd Hu Hops st2.
  apply (getStoredUserToken_live uuid T None); [exact Hu| |left; reflexivity].
  apply apply_ops_keeps_record; [exact Hops|].
  apply truthy_true in HT, HS.
  unfold handleOAuthCallback. rewrite HpT, HpS, HT, HS. simpl. rewrite Hd.
  destruct (URL_new (redirectUri d)); simpl; apply lookup_insert_eq.
Qed.

(** X17.  The token exchange of [oauthToken.js] honours the lifetime it
    advertises.  After an exchange granted at a time [now] that is not
    negative, and any further operations that draw other session ids and
    do not look the access token up after its expiry: the access token is
    not the code but the new identifier; up to [now] plus the advertised
    [expires_in] seconds a lookup of the access token answers the code and
    changes nothing; after that a lookup answers nothing and evicts the
    record, so that every later lookup, at whatever time, answers nothing
    as well. *)
Theorem token_exchange_lifetime (params : list (string * string))
    (uuid : string) (now : Z) (st st1 : store) (a ty sc : string) (ex : Z)
    (ops : list Spec.server_op) :
  OAuthToken.handleOAuthToken params uuid now st
  = (TokenGranted a ty ex sc, st1) ->
  0 <= now -> uuid <> "" ->
  Forall (Spec.keeps_record uuid (Some (now + 1000 * 7776000))) ops ->
  let st2 := Spec.apply_ops URL_new ops st1 in
  a = uuid /\ ex = 7776000
  /\ exists code,
       JS.params_get "code" params = Some code
       /\ (forall t, t <= now + 1000 * ex ->
                     getStoredUserToken (Some a) t st2 = (Some code, st2))
       /\ (forall t, now + 1000 * ex < t ->
            exists st3,
              getStoredUserToken (Some a) t st2 = (None, st3)
              /\ userTokens st3 !! a = None
              /\ (forall k, k <> a -> userTokens st3 !! k = userTokens st2 !! k)
              /\ forall t', getStoredUserToken (Some a) t' st3 = (None, st3)).
Proof.
  intros Hex Hnow Hu Hops st2.
  unfold OAuthToken.handleOAuthToken in Hex.
  destruct (JS.params_get "grant_type" params) as [g|]; [|discriminate].
  destruct (JS.params_get "code" params) as [code|]; [|discriminate].
  destruct (negb (String.eqb g "authorization_code") || negb (JS.truthy code));
    [discriminate|].
  injection Hex as <- _ <- _ <-.
  split; [reflexivity|]. split; [reflexivity|].
  exists code. split; [reflexivity|].
  assert (Hrec : userTokens st2 !! uuid
                 = Some (mkStored code (Some (now + 1000 * 7776000)))).
  { apply apply_ops_keeps_record; [exact Hops|]. simpl.
    rewrite lookup_insert_eq; repeat f_equal; lia. }
  split.
  - intros t Ht.
    apply (getStoredUserToken_live uuid code (Some (now + 1000 * 7776000)));
      [exact Hu|exact Hrec|].
    right. eexists. split; [reflexivity|]. lia.
  - intros t Ht.
    exists (mkStore (pendingStates st2) (delete uuid (userTokens st2))).
    split; [apply (getStoredUserToken_expired uuid code (now + 1000 * 7776000));
            [exact Hu|exact Hrec|lia|lia]|].
    split; [simpl; apply lookup_delete_eq|].
    split; [intros k Hk; simpl; apply lookup_delete_ne; congruence|].
    intros t'. apply getStoredUserToken_absent.
    intros s [= <-] _. simpl. apply lookup_delete_eq.
Qed.

End OAuthServerRuns.

Lemma authorize_then_callback_witness :
  let url := fun s : string =>
               if String.prefix "https://" s then Some (JS.mkURL s []) else None in
  let ops := [Spec.Sweep 600000; Spec.Lookup (Some "uuid-0") 650000] in
  let cb := [("music_user_token", "Au.tok"); ("state", "xyz")] in
  (exists loc st3,
     OAuthServer.handleOAuthCallback url cb "uuid-1" 700000
       (Spec.apply_ops url ops
          (OAuthServer.mkStore
             {[ "xyz" := OAuthServer.mkPending "https://c.example/cb" 600000 ]} ∅))
     = (Http.Redirect loc, st3)
     /\ JS.params_get "code" (JS.searchParams loc) = Some "Au.tok")
  /\ (exists st3,
        OAuthServer.handleOAuthCallback url cb "uuid-1" 700000
          (Spec.apply_ops url ops
             (OAuthServer.mkStore
                {[ "xyz" := OAuthServer.mkPending "not a url" 600000 ]} ∅))
        = (Http.Threw, st3)
        /\ OAuthServer.userTokens st3 !! "uuid-1"
           = Some (OAuthServer.mkStored "Au.tok" None)).
Proof.
  intros url ops cb. split.
  - destruct (authorize_then_callback url
                [("redirect_uri", "https://c.example/cb"); ("state", "xyz")]
                0 (OAuthServer.mkStore ∅ ∅)
                (OAuthServer.mkStore
                   {[ "xyz" := OAuthServer.mkPending "https://c.example/cb" 600000 ]} ∅)
                ops cb "uuid-1" 700000 "xyz" "https://c.example/cb" "Au.tok"
                eq_refl eq_refl eq_refl
                ltac:(repeat constructor; simpl; lia)
                eq_refl eq_refl ltac:(discriminate))
      as (st3 & _ & _ & _ & _ & Hout).
    change (url "https://c.example/cb")
      with (Some (JS.mkURL "https://c.example/cb" [])) in Hout.
    destruct Hout as (loc & H & _ & Hc & _).
    exists loc, st3. split; [exact H|exact Hc].
  - destruct (authorize_then_callback url
                [("redirect_uri", "not a url"); ("state", "xyz")]
                0 (OAuthServer.mkStore ∅ ∅)
                (OAuthServer.mkStore
                   {[ "xyz" := OAuthServer.mkPending "not a url" 600000 ]} ∅)
                ops cb "uuid-1" 700000 "xyz" "not a url" "Au.tok"
                eq_refl eq_refl eq_refl
                ltac:(repeat constructor; simpl; lia)
                eq_refl eq_refl ltac:(discriminate))
      as (st3 & _ & _ & Hst & _ & Hout).
    change (url "not a url") with (@None JS.URL) in Hout.
    exists st3. split; [exact Hout|exact Hst].
Defined.

Lemma callback_credential_never_expires_witness :
  let url := fun s : string => Some (JS.mkURL s []) in
  let st := OAuthServer.mkStore {[ "xyz" := OAuthServer.mkPending "https://c.example/cb" 600000 ]} ∅ in
  let st2 :=
    Spec.apply_ops url
      [Spec.TokenExchange [("grant_type", "authorization_code"); ("code", "c")]
         "uuid-2" 5;
       Spec.Lookup (Some "uuid-1") 99999999999]
      (OAuthServer.handleOAuthCallback url [("music_user_token", "Au.tok"); ("state", "xyz")]
         "uuid-1" 0 st).2 in
  OAuthServer.getStoredUserToken (Some "uuid-1") 99999999999999 st2 = (Some "Au.tok", st2).
Proof.
  intros url st st2.
  apply (callback_credential_never_expires url
           [("music_user_token", "Au.tok"); ("state", "xyz")] "uuid-1" 0 st
           "xyz" "Au.tok" (OAuthServer.mkPending "https://c.example/cb" 600000));
    try reflexivity; try discriminate.
  repeat constructor; simpl; discriminate.
Defined.

Lemma token_exchange_lifetime_witness :
  let st2 :=
    (OAuthToken.handleOAuthToken
       [("grant_type", "authorization_code"); ("code", "Au.tok")] "uuid-1" 1000
       (OAuthServer.mkStore ∅ ∅)).2 in
  OAuthServer.getStoredUserToken (Some "uuid-1") 7776001000 st2 = (Some "Au.tok", st2)
  /\ (OAuthServer.getStoredUserToken (Some "uuid-1") 7776001001 st2).1 = None.
Proof.
  intros st2.
  destruct (token_exchange_lifetime (fun s => Some (JS.mkURL s []))
              [("grant_type", "authorization_code"); ("code", "Au.tok")]
              "uuid-1" 1000 (OAuthServer.mkStore ∅ ∅) st2 "uuid-1" "Bearer"
              "music.library.read music.library.write" 7776000 []
              eq_refl ltac:(lia) ltac:(discriminate) ltac:(constructor))
    as (_ & _ & code & Hc & Hlive & Hdead).
  injection Hc as <-.
  split; [apply Hlive; lia|].
  destruct (Hdead 7776001001 ltac:(lia)) as (st3 & Heq & _).
  change (Spec.apply_ops _ [] st2) with st2 in Heq. rewrite Heq. reflexivity.
Defined.

(** ** The two token endpoints *)

Section TokenEndpoints.
Import Http.

(** X20.  The token endpoint of [client.ts] and the one of [oauthToken.js]
    accept the same requests: one answers an error exactly when the other
    does, with the same status and error, and when they grant they agree
    on the token type, the lifetime and the scope.  They differ in the
    access token, which is the code itself for [client.ts], which stores
    nothing, and the new identifier for [oauthToken.js], which stores the
    code under it. *)
Theorem token_endpoints_agree (params : list (string * string)) (uuid : string)
    (now : Z) (st : OAuthServer.store) :
  match Client.handleOAuthToken params,
        OAuthToken.handleOAuthToken params uuid now st with
  | TokenError s1 e1, (TokenError s2 e2, st') =>
      s1 = s2 /\ e1 = e2 /\ st' = st
  | TokenGranted a1 ty1 ex1 sc1, (TokenGranted a2 ty2 ex2 sc2, st') =>
      ty1 = ty2 /\ ex1 = ex2 /\ sc1 = sc2
      /\ JS.params_get "code" params = Some a1 /\ a1 <> ""
      /\ a2 = uuid
      /\ OAuthServer.userTokens st' !! uuid
         = Some (OAuthServer.mkStored a1 (Some (now + 1000 * ex2)))
  | _, _ => False
  end.
Proof.
  unfold Client.handleOAuthToken, OAuthToken.handleOAuthToken.
  destruct (JS.params_get "grant_type" params) as [g|]; [|auto].
  destruct (JS.params_get "code" params) as [code|]; [|auto].
  destruct (String.eqb g "authorization_code"); simpl; [|auto].
  destruct (JS.truthy code) eqn:Hc; simpl; [|auto].
  apply truthy_true in Hc.
  repeat split; try reflexivity; try assumption.
  rewrite lookup_insert_eq; repeat f_equal; lia.
Qed.

End TokenEndpoints.
